(** * simulation_physics: the particle engine of [src/lib/physics.js]

    A shallow embedding of the [Universe] class and of the photon
    emission/absorption, force, integration and boundary code, and of the
    energy accounting of [src/lib/energy.js]; then the vocabulary in which
    the properties are stated and the concrete inputs they are tried on;
    then the properties themselves, those of the specification first.

    JavaScript numbers are IEEE-754 binary64 values.  The program is written
    once over an interface [JsNumber] of the arithmetic it uses and read at
    two instances:
    - [float] (the kernel's binary64 floats), which is what the code
      computes, bit for bit, NaN and infinities included;
    - [R], the exact real arithmetic the specification's formulas speak of.

    [Math.sqrt] is the correctly rounded square root at the first instance,
    as the engines implement it. *)

From Stdlib Require Import List Bool Arith Lia ZArith Finite.
From Stdlib Require Import Reals Lra.
From Stdlib Require Import Floats.
Import ListNotations.

Set Implicit Arguments.

(** ** Numbers *)

Declare Scope js_scope.
Delimit Scope js_scope with js.

Class JsNumber (T : Type) : Type := {
  ofZ : Z -> T;            (* an integer literal *)
  add : T -> T -> T;
  sub : T -> T -> T;
  mul : T -> T -> T;
  div : T -> T -> T;
  neg : T -> T;
  Math_sqrt : T -> T;
  Math_abs : T -> T;
  ltb : T -> T -> bool;    (* a < b *)
  leb : T -> T -> bool     (* a <= b *)
}.

Notation "a + b" := (add a b) : js_scope.
Notation "a - b" := (sub a b) : js_scope.
Notation "a * b" := (mul a b) : js_scope.
Notation "a / b" := (div a b) : js_scope.
Notation "- a" := (neg a) : js_scope.
Notation "a <? b" := (ltb a b) (at level 70, no associativity) : js_scope.
Notation "a <=? b" := (leb a b) (at level 70, no associativity) : js_scope.
(* JavaScript's [a > b] and [a >= b] are [b < a] and [b <= a]; both are false
   as soon as one side is NaN. *)
Notation "a >? b" := (ltb b a) (at level 70, only parsing) : js_scope.
Notation "a >=? b" := (leb b a) (at level 70, only parsing) : js_scope.

(** Binary64 instance.  Integer literals below 2^53 convert exactly. *)
Definition float_ofZ (n : Z) : float :=
  match n with
  | Z0 => PrimFloat.zero
  | Zpos _ => PrimFloat.of_uint63 (Uint63.of_Z n)
  | Zneg p => PrimFloat.opp (PrimFloat.of_uint63 (Uint63.of_Z (Zpos p)))
  end.

#[export] Instance float_JsNumber : JsNumber float := {|
  ofZ := float_ofZ;
  add := PrimFloat.add;
  sub := PrimFloat.sub;
  mul := PrimFloat.mul;
  div := PrimFloat.div;
  neg := PrimFloat.opp;
  Math_sqrt := PrimFloat.sqrt;
  Math_abs := PrimFloat.abs;
  ltb := PrimFloat.ltb;
  leb := PrimFloat.leb
|}.

(** Exact real instance. *)
Definition Rltb (a b : R) : bool := if Rlt_dec a b then true else false.
Definition Rleb (a b : R) : bool := if Rle_dec a b then true else false.

#[export] Instance R_JsNumber : JsNumber R := {|
  ofZ := IZR;
  add := Rplus;
  sub := Rminus;
  mul := Rmult;
  div := Rdiv;
  neg := Ropp;
  Math_sqrt := R_sqrt.sqrt;
  Math_abs := Rabs;
  ltb := Rltb;
  leb := Rleb
|}.

(** The part of [Math] that has no arithmetic definition here: the stream of
    values [Math.random()] returns (indexed by the number of draws made so
    far), the trigonometric functions and [Math.PI]. *)
Record JsMath (T : Type) : Type := {
  Math_random : nat -> T;
  Math_sin : T -> T;
  Math_cos : T -> T;
  Math_acos : T -> T;
  Math_PI : T
}.

(** ** Data model *)

Record Particle (T : Type) : Type := mkParticle {
  x : T;
  y : T;
  z : T;
  vx : T;
  vy : T;
  vz : T;
  charge : T;
  mass : T;
  fixed : bool;
  isPhoton : bool;
  energy : T;
  age : T;
  hasEmittedPhoton : bool;
  forceElectroX : T;
  forceElectroY : T;
  forceElectroZ : T;
  accelerationX : T;
  accelerationY : T;
  accelerationZ : T
}.

Record Force (T : Type) : Type := mkForce { fx : T; fy : T; fz : T }.

Record Universe (T : Type) : Type := mkUniverse {
  size : T;
  electrostaticCoefficient : T;
  electronMass : T;
  photonEmissionSpeedThreshold : T;
  photonAbsorptionDistance : T;
  photonMinAgeForAbsorption : T;
  staticProtons : bool;
  strongForceEnabled : bool;
  strongForceCoefficient : T;
  gravityEnabled : bool;
  gravityCoefficient : T;
  groundGravityEnabled : bool;
  groundGravityCoefficient : T;
  mode3D : bool;
  particles : list (Particle T);
  dt : T
}.

(** [config.photonEmission] of [src/lib/config.js].  A key that is absent from
    the object reads as [undefined], which is falsy: [false] here. *)
Record PhotonEmissionConfig : Type := {
  enabled : bool;
  onePhotonPerElectron : bool
}.

Section Program.

Context {T : Type} {N : JsNumber T}.
Variable M : JsMath T.
Variable config : PhotonEmissionConfig.

Local Open Scope js_scope.

(** Decimal literals of the source.  Each is the quotient of two integers
    below 2^53, so the correctly rounded division yields the binary64 value
    the JavaScript parser produces. *)
Definition lit_0_5 : T := ofZ 5 / ofZ 10.
Definition lit_0_9 : T := ofZ 9 / ofZ 10.
Definition lit_0_01 : T := ofZ 1 / ofZ 100.
Definition lit_0_005 : T := ofZ 5 / ofZ 1000.
Definition lit_1e_3 : T := ofZ 1 / ofZ 1000.
Definition lit_0_00001 : T := ofZ 1 / ofZ 100000.
Definition lit_1e_6 : T := ofZ 1 / ofZ 1000000.
Definition lit_1e_10 : T := ofZ 1 / ofZ 10000000000.

(** [new Particle(x, y, vx, vy, charge, mass, fixed, z, vz, isPhoton, energy)] *)
Definition newParticle (ax ay avx avy acharge amass : T) (afixed : bool)
    (az avz : T) (aisPhoton : bool) (aenergy : T) : Particle T :=
  {| x := ax; y := ay; z := az; vx := avx; vy := avy; vz := avz;
     charge := acharge; mass := amass; fixed := afixed;
     isPhoton := aisPhoton; energy := aenergy;
     age := ofZ 0; hasEmittedPhoton := false;
     forceElectroX := ofZ 0; forceElectroY := ofZ 0; forceElectroZ := ofZ 0;
     accelerationX := ofZ 0; accelerationY := ofZ 0; accelerationZ := ofZ 0 |}.

(** [new Universe(size, electrostaticCoefficient)] *)
Definition newUniverse (asize aK : T) : Universe T :=
  {| size := asize;
     electrostaticCoefficient := aK;
     electronMass := ofZ 1;
     photonEmissionSpeedThreshold := lit_1e_3;
     photonAbsorptionDistance := ofZ 3 * lit_1e_3;
     photonMinAgeForAbsorption := ofZ 100;
     staticProtons := true;
     strongForceEnabled := false;
     strongForceCoefficient := ofZ 10;
     gravityEnabled := false;
     gravityCoefficient := ofZ 10;
     groundGravityEnabled := false;
     groundGravityCoefficient := ofZ 10;
     mode3D := false;
     particles := [];
     dt := lit_0_01 |}.

(** Field assignments [particle.f = v]. *)
Definition set_x (p : Particle T) (v : T) : Particle T :=
  mkParticle v (y p) (z p) (vx p) (vy p) (vz p) (charge p) (mass p) (fixed p)
    (isPhoton p) (energy p) (age p) (hasEmittedPhoton p)
    (forceElectroX p) (forceElectroY p) (forceElectroZ p)
    (accelerationX p) (accelerationY p) (accelerationZ p).
Definition set_y (p : Particle T) (v : T) : Particle T :=
  mkParticle (x p) v (z p) (vx p) (vy p) (vz p) (charge p) (mass p) (fixed p)
    (isPhoton p) (energy p) (age p) (hasEmittedPhoton p)
    (forceElectroX p) (forceElectroY p) (forceElectroZ p)
    (accelerationX p) (accelerationY p) (accelerationZ p).
Definition set_z (p : Particle T) (v : T) : Particle T :=
  mkParticle (x p) (y p) v (vx p) (vy p) (vz p) (charge p) (mass p) (fixed p)
    (isPhoton p) (energy p) (age p) (hasEmittedPhoton p)
    (forceElectroX p) (forceElectroY p) (forceElectroZ p)
    (accelerationX p) (accelerationY p) (accelerationZ p).
Definition set_vx (p : Particle T) (v : T) : Particle T :=
  mkParticle (x p) (y p) (z p) v (vy p) (vz p) (charge p) (mass p) (fixed p)
    (isPhoton p) (energy p) (age p) (hasEmittedPhoton p)
    (forceElectroX p) (forceElectroY p) (forceElectroZ p)
    (accelerationX p) (accelerationY p) (accelerationZ p).
Definition set_vy (p : Particle T) (v : T) : Particle T :=
  mkParticle (x p) (y p) (z p) (vx p) v (vz p) (charge p) (mass p) (fixed p)
    (isPhoton p) (energy p) (age p) (hasEmittedPhoton p)
    (forceElectroX p) (forceElectroY p) (forceElectroZ p)
    (accelerationX p) (accelerationY p) (accelerationZ p).
Definition set_vz (p : Particle T) (v : T) : Particle T :=
  mkParticle (x p) (y p) (z p) (vx p) (vy p) v (charge p) (mass p) (fixed p)
    (isPhoton p) (energy p) (age p) (hasEmittedPhoton p)
    (forceElectroX p) (forceElectroY p) (forceElectroZ p)
    (accelerationX p) (accelerationY p) (accelerationZ p).
Definition set_age (p : Particle T) (v : T) : Particle T :=
  mkParticle (x p) (y p) (z p) (vx p) (vy p) (vz p) (charge p) (mass p) (fixed p)
    (isPhoton p) (energy p) v (hasEmittedPhoton p)
    (forceElectroX p) (forceElectroY p) (forceElectroZ p)
    (accelerationX p) (accelerationY p) (accelerationZ p).
Definition set_hasEmittedPhoton (p : Particle T) (b : bool) : Particle T :=
  mkParticle (x p) (y p) (z p) (vx p) (vy p) (vz p) (charge p) (mass p) (fixed p)
    (isPhoton p) (energy p) (age p) b
    (forceElectroX p) (forceElectroY p) (forceElectroZ p)
    (accelerationX p) (accelerationY p) (accelerationZ p).
(* the three assignments [forceElectroX/Y/Z = ...], made together *)
Definition set_forceElectro (p : Particle T) (ffx ffy ffz : T) : Particle T :=
  mkParticle (x p) (y p) (z p) (vx p) (vy p) (vz p) (charge p) (mass p) (fixed p)
    (isPhoton p) (energy p) (age p) (hasEmittedPhoton p)
    ffx ffy ffz
    (accelerationX p) (accelerationY p) (accelerationZ p).
Definition set_accelerationX (p : Particle T) (v : T) : Particle T :=
  mkParticle (x p) (y p) (z p) (vx p) (vy p) (vz p) (charge p) (mass p) (fixed p)
    (isPhoton p) (energy p) (age p) (hasEmittedPhoton p)
    (forceElectroX p) (forceElectroY p) (forceElectroZ p)
    v (accelerationY p) (accelerationZ p).
Definition set_accelerationY (p : Particle T) (v : T) : Particle T :=
  mkParticle (x p) (y p) (z p) (vx p) (vy p) (vz p) (charge p) (mass p) (fixed p)
    (isPhoton p) (energy p) (age p) (hasEmittedPhoton p)
    (forceElectroX p) (forceElectroY p) (forceElectroZ p)
    (accelerationX p) v (accelerationZ p).
Definition set_accelerationZ (p : Particle T) (v : T) : Particle T :=
  mkParticle (x p) (y p) (z p) (vx p) (vy p) (vz p) (charge p) (mass p) (fixed p)
    (isPhoton p) (energy p) (age p) (hasEmittedPhoton p)
    (forceElectroX p) (forceElectroY p) (forceElectroZ p)
    (accelerationX p) (accelerationY p) v.

Definition set_particles (u : Universe T) (ps : list (Particle T)) : Universe T :=
  mkUniverse (size u) (electrostaticCoefficient u) (electronMass u)
    (photonEmissionSpeedThreshold u) (photonAbsorptionDistance u)
    (photonMinAgeForAbsorption u) (staticProtons u) (strongForceEnabled u)
    (strongForceCoefficient u) (gravityEnabled u) (gravityCoefficient u)
    (groundGravityEnabled u) (groundGravityCoefficient u) (mode3D u)
    ps (dt u).

(** [setMode3D(enabled)] *)
Definition setMode3D (u : Universe T) (enabled3D : bool) : Universe T :=
  mkUniverse (size u) (electrostaticCoefficient u) (electronMass u)
    (photonEmissionSpeedThreshold u) (photonAbsorptionDistance u)
    (photonMinAgeForAbsorption u) (staticProtons u) (strongForceEnabled u)
    (strongForceCoefficient u) (gravityEnabled u) (gravityCoefficient u)
    (groundGravityEnabled u) (groundGravityCoefficient u) enabled3D
    (particles u) (dt u).

(** ** Force calculator *)

Definition calculateElectrostaticForce (u : Universe T) (p1 p2 : Particle T)
  : Force T :=
  let dx := x p2 - x p1 in
  let dy := y p2 - y p1 in
  let dz := if mode3D u then z p2 - z p1 else ofZ 0 in
  let distanceSquared := dx * dx + dy * dy + dz * dz in
  let distance := Math_sqrt distanceSquared in
  let electrostaticForceMagnitude :=
    - (electrostaticCoefficient u * charge p1 * charge p2)
      / (distanceSquared + lit_0_01) in
  {| fx := electrostaticForceMagnitude * (dx / distance);
     fy := electrostaticForceMagnitude * (dy / distance);
     fz := if mode3D u then electrostaticForceMagnitude * (dz / distance)
           else ofZ 0 |}.

Definition calculateStrongForce (u : Universe T) (p1 p2 : Particle T)
  : Force T :=
  let dx := x p2 - x p1 in
  let dy := y p2 - y p1 in
  let dz := if mode3D u then z p2 - z p1 else ofZ 0 in
  let distanceSquared := dx * dx + dy * dy + dz * dz in
  let distance := Math_sqrt distanceSquared in
  let distanceQuartic := distanceSquared * distanceSquared in
  let strongForceMagnitude :=
    (strongForceCoefficient u * lit_1e_10) / distanceQuartic in
  {| fx := - strongForceMagnitude * (dx / distance);
     fy := - strongForceMagnitude * (dy / distance);
     fz := if mode3D u then - strongForceMagnitude * (dz / distance)
           else ofZ 0 |}.

Definition calculateGravityForce (u : Universe T) (particle : Particle T)
  : Force T :=
  let centerX := lit_0_5 in
  let centerY := lit_0_5 in
  let centerZ := lit_0_5 in
  let dx := centerX - x particle in
  let dy := centerY - y particle in
  let dz := if mode3D u then centerZ - z particle else ofZ 0 in
  let distanceSquared := dx * dx + dy * dy + dz * dz in
  let distance := Math_sqrt distanceSquared in
  if distance <=? lit_1e_6 then {| fx := ofZ 0; fy := ofZ 0; fz := ofZ 0 |}
  else
    let gravityForceMagnitude :=
      mass particle * gravityCoefficient u * lit_1e_6 in
    {| fx := gravityForceMagnitude * (dx / distance);
       fy := gravityForceMagnitude * (dy / distance);
       fz := if mode3D u then gravityForceMagnitude * (dz / distance)
             else ofZ 0 |}.

Definition calculateGroundGravityForce (u : Universe T)
    (particle : Particle T) : Force T :=
  let groundY := ofZ 1 in
  let dy := groundY - y particle in
  if Math_abs dy <=? lit_1e_6 then {| fx := ofZ 0; fy := ofZ 0; fz := ofZ 0 |}
  else
    let groundGravityForceMagnitude :=
      mass particle * groundGravityCoefficient u * lit_1e_6 in
    {| fx := ofZ 0; fy := groundGravityForceMagnitude; fz := ofZ 0 |}.

Definition calculateForce (u : Universe T) (p1 p2 : Particle T) : Force T :=
  let electrostaticForce := calculateElectrostaticForce u p1 p2 in
  let strongForce :=
    if strongForceEnabled u then calculateStrongForce u p1 p2
    else {| fx := ofZ 0; fy := ofZ 0; fz := ofZ 0 |} in
  {| fx := fx electrostaticForce + fx strongForce;
     fy := fy electrostaticForce + fy strongForce;
     fz := fz electrostaticForce + fz strongForce |}.

(** ** Photon emission *)

(** [Math.random()] is called only past the early return; the second
    component is the number of draws made so far. *)
Definition shouldEmitPhoton (u : Universe T) (particle : Particle T) (k : nat)
  : bool * nat :=
  let speed :=
    Math_sqrt (vx particle * vx particle + vy particle * vy particle
               + vz particle * vz particle) in
  if speed <? photonEmissionSpeedThreshold u then (false, k)
  else
    (Math_random M k <? lit_0_00001 * speed / photonEmissionSpeedThreshold u,
     S k).

(** Returns the mutated electron and the value returned by the source
    ([None] for [null]). *)
Definition managePhotonEmission (u : Universe T) (particle : Particle T)
    (speed avx avy avz : T) (photonEnergyRatio : T)
  : Particle T * option (Particle T) :=
  let initialKE := lit_0_5 * electronMass u * speed * speed in
  let photonEnergy := photonEnergyRatio * initialKE in
  let speedReductionFactor := ofZ 1 / Math_sqrt (ofZ 1 - photonEnergyRatio) in
  let particle := set_vx particle (vx particle / speedReductionFactor) in
  let particle := set_vy particle (vy particle / speedReductionFactor) in
  let particle :=
    if mode3D u then set_vz particle (vz particle / speedReductionFactor)
    else particle in
  let particle := set_hasEmittedPhoton particle true in
  let newSpeed := speed / speedReductionFactor in
  let photonSpeed := newSpeed in
  let photonVx := (avx / speed) * photonSpeed in
  let photonVy := (avy / speed) * photonSpeed in
  let photonVz := if mode3D u then (avz / speed) * photonSpeed else ofZ 0 in
  if enabled config then
    let photon :=
      newParticle (x particle) (y particle) photonVx photonVy
        (ofZ 0) (ofZ 0) false (z particle) photonVz true photonEnergy in
    (particle, Some photon)
  else (particle, None).

(** The call site of [managePhotonEmission] in the loop body of
    [checkAndEmitPhotons]: the arguments [(speed, vx, vy, vz)] of the call
    when the body reaches it, [None] when the electron is skipped. *)
Definition emissionCall (u : Universe T) (particle : Particle T) (k : nat)
  : option (T * T * T * T) * nat :=
  if (charge particle >=? ofZ 0) || isPhoton particle then (None, k)
  else if onePhotonPerElectron config && hasEmittedPhoton particle
  then (None, k)
  else
    let avx := vx particle in
    let avy := vy particle in
    let avz := if mode3D u then vz particle else ofZ 0 in
    let speed := Math_sqrt (avx * avx + avy * avy + avz * avz) in
    let '(emit, k') := shouldEmitPhoton u particle k in
    if emit then (Some (speed, avx, avy, avz), k') else (None, k').

(** One iteration of [for (let particle of this.particles)]: the particle as
    the iteration leaves it, the photon pushed on [newPhotons] if any. *)
Definition checkAndEmitPhotons_body (u : Universe T) (particle : Particle T)
    (k : nat) : Particle T * option (Particle T) * nat :=
  match emissionCall u particle k with
  | (Some (speed, avx, avy, avz), k') =>
      let '(particle', photon) :=
        managePhotonEmission u particle speed avx avy avz lit_0_9 in
      (particle', photon, k')
  | (None, k') => (particle, None, k')
  end.

Fixpoint checkAndEmitPhotons_loop (u : Universe T) (ps : list (Particle T))
    (k : nat) : list (Particle T) * list (Particle T) * nat :=
  match ps with
  | [] => ([], [], k)
  | particle :: rest =>
      let '(particle', photon, k1) := checkAndEmitPhotons_body u particle k in
      let '(rest', newPhotons, k2) := checkAndEmitPhotons_loop u rest k1 in
      (particle' :: rest',
       match photon with
       | Some ph => ph :: newPhotons
       | None => newPhotons
       end,
       k2)
  end.

Definition checkAndEmitPhotons (u : Universe T) (k : nat) : Universe T * nat :=
  let '(ps, newPhotons, k') := checkAndEmitPhotons_loop u (particles u) k in
  (* addParticle for each buffered photon *)
  (set_particles u (ps ++ newPhotons), k').

(** ** Photon absorption *)

(** The distance of the inner loop of [handlePhotonElectronCollisions]. *)
Definition photonElectronDistance (u : Universe T) (photon electron : Particle T)
  : T :=
  let dx := x electron - x photon in
  let dy := y electron - y photon in
  let dz := if mode3D u then z electron - z photon else ofZ 0 in
  Math_sqrt (dx * dx + dy * dy + dz * dz).

(** The body of [if (distance < ... && photon.age >= ...)]: the electron
    after the energy transfer. *)
Definition absorbPhoton (u : Universe T) (photon electron : Particle T)
    (k : nat) : Particle T * nat :=
  let currentSpeed :=
    Math_sqrt (vx electron * vx electron + vy electron * vy electron
               + vz electron * vz electron) in
  let currentKE := lit_0_5 * mass electron * currentSpeed * currentSpeed in
  let newKE := currentKE + energy photon in
  let newSpeed := Math_sqrt (ofZ 2 * newKE / mass electron) in
  if currentSpeed >? ofZ 0 then
    let speedRatio := newSpeed / currentSpeed in
    let electron := set_vx electron (vx electron * speedRatio) in
    let electron := set_vy electron (vy electron * speedRatio) in
    let electron :=
      if mode3D u then set_vz electron (vz electron * speedRatio)
      else electron in
    (electron, k)
  else
    let theta := Math_random M k * ofZ 2 * Math_PI M in
    let k := S k in
    let '(phi, k) :=
      if mode3D u
      then (Math_acos M (ofZ 2 * Math_random M k - ofZ 1), S k)
      else (Math_PI M / ofZ 2, k) in
    let electron :=
      set_vx electron (newSpeed * Math_sin M phi * Math_cos M theta) in
    let electron :=
      set_vy electron (newSpeed * Math_sin M phi * Math_sin M theta) in
    let electron :=
      if mode3D u then set_vz electron (newSpeed * Math_cos M phi)
      else electron in
    (electron, k).

(** The inner loop [for (let j = 0; ...)] for one photon, over the particles
    from index [j] on: [Some] of the particles with the absorbing electron
    updated when the loop leaves through [break], [None] when it runs to
    the end. *)
Fixpoint absorbScan (u : Universe T) (photon : Particle T)
    (ps : list (Particle T)) (k : nat) : option (list (Particle T) * nat) :=
  match ps with
  | [] => None
  | electron :: rest =>
      if (charge electron >=? ofZ 0) || isPhoton electron then
        match absorbScan u photon rest k with
        | Some (rest', k') => Some (electron :: rest', k')
        | None => None
        end
      else
        let distance := photonElectronDistance u photon electron in
        if (distance <? photonAbsorptionDistance u)
           && (age photon >=? photonMinAgeForAbsorption u)
        then
          let '(electron', k') := absorbPhoton u photon electron k in
          Some (electron' :: rest, k')
        else
          match absorbScan u photon rest k with
          | Some (rest', k') => Some (electron :: rest', k')
          | None => None
          end
  end.

(** [photonsToRemove.includes(i)] *)
Definition includes (l : list nat) (i : nat) : bool := existsb (Nat.eqb i) l.

(** The outer loop [for (let i = 0; ...)], over the indices [idxs] still to
    visit. *)
Fixpoint collisionLoop (u : Universe T) (idxs : list nat)
    (ps : list (Particle T)) (photonsToRemove : list nat) (k : nat)
  : list (Particle T) * list nat * nat :=
  match idxs with
  | [] => (ps, photonsToRemove, k)
  | i :: idxs' =>
      match nth_error ps i with
      | None => collisionLoop u idxs' ps photonsToRemove k
      | Some photon =>
          if negb (isPhoton photon)
          then collisionLoop u idxs' ps photonsToRemove k
          else
            match absorbScan u photon ps k with
            | Some (ps', k') =>
                collisionLoop u idxs' ps'
                  (if includes photonsToRemove i then photonsToRemove
                   else photonsToRemove ++ [i])
                  k'
            | None => collisionLoop u idxs' ps photonsToRemove k
            end
      end
  end.

(** [array.splice(i, 1)] *)
Fixpoint splice1 (A : Type) (i : nat) (l : list A) : list A :=
  match l, i with
  | [], _ => []
  | _ :: l', O => l'
  | a :: l', S i' => a :: splice1 i' l'
  end.

(** Returns the universe, the number of photons removed and the draw
    counter. *)
Definition handlePhotonElectronCollisions (u : Universe T) (k : nat)
  : Universe T * nat * nat :=
  let '(ps, photonsToRemove, k') :=
    collisionLoop u (seq 0 (length (particles u))) (particles u) [] k in
  (* for (let i = photonsToRemove.length - 1; i >= 0; i--) splice *)
  let ps' := fold_left (fun l i => splice1 i l) (rev photonsToRemove) ps in
  (set_particles u ps', length photonsToRemove, k').

(** ** Boundary handler *)

(** The photon branch: elastic reflection, axis by axis. *)
Definition reflectPhoton (u : Universe T) (particle : Particle T)
  : Particle T :=
  let particle :=
    if x particle <? ofZ 0 then
      let particle := set_x particle (- x particle) in
      set_vx particle (- vx particle)
    else if x particle >? size u then
      let particle := set_x particle (ofZ 2 * size u - x particle) in
      set_vx particle (- vx particle)
    else particle in
  let particle :=
    if y particle <? ofZ 0 then
      let particle := set_y particle (- y particle) in
      set_vy particle (- vy particle)
    else if y particle >? size u then
      let particle := set_y particle (ofZ 2 * size u - y particle) in
      set_vy particle (- vy particle)
    else particle in
  if mode3D u then
    if z particle <? ofZ 0 then
      let particle := set_z particle (- z particle) in
      set_vz particle (- vz particle)
    else if z particle >? size u then
      let particle := set_z particle (ofZ 2 * size u - z particle) in
      set_vz particle (- vz particle)
    else particle
  else particle.

(** The first half of the non-photon branch: the particle with its
    coordinates clamped, and the final value of [hitBoundary]. *)
Definition clampPosition (u : Universe T) (particle : Particle T)
  : Particle T * bool :=
  let hitBoundary := false in
  let '(particle, hitBoundary) :=
    if x particle <? ofZ 0 then (set_x particle (ofZ 0), true)
    else if x particle >? size u then (set_x particle (size u), true)
    else (particle, hitBoundary) in
  let '(particle, hitBoundary) :=
    if y particle <? ofZ 0 then (set_y particle (ofZ 0), true)
    else if y particle >? size u then (set_y particle (size u), true)
    else (particle, hitBoundary) in
  if mode3D u then
    if z particle <? ofZ 0 then (set_z particle (ofZ 0), true)
    else if z particle >? size u then (set_z particle (size u), true)
    else (particle, hitBoundary)
  else (particle, hitBoundary).

(** The second half: [if (hitBoundary) { ... }]. *)
Definition stopParticle (u : Universe T) (particle : Particle T)
  : Particle T :=
  let particle := set_vx particle (ofZ 0) in
  let particle := set_vy particle (ofZ 0) in
  let particle := set_accelerationX particle (ofZ 0) in
  let particle := set_accelerationY particle (ofZ 0) in
  if mode3D u then
    let particle := set_vz particle (ofZ 0) in
    set_accelerationZ particle (ofZ 0)
  else particle.

Definition applyBoundaryConditions (u : Universe T) (particle : Particle T)
  : Particle T :=
  if isPhoton particle then reflectPhoton u particle
  else
    let '(particle, hitBoundary) := clampPosition u particle in
    if hitBoundary then stopParticle u particle else particle.

(** ** Integrator *)

(** The code of [updateParticleMotion] below the two skip tests: the Euler
    update of velocity and position, before the boundary handler runs. *)
Definition integrate (u : Universe T) (particle : Particle T)
    (forceX forceY forceZ : T) : Particle T :=
  let ax := forceX / mass particle in
  let ay := forceY / mass particle in
  let az := if mode3D u then forceZ / mass particle else ofZ 0 in
  let particle := set_accelerationX particle ax in
  let particle := set_accelerationY particle ay in
  let particle := set_accelerationZ particle az in
  let particle := set_vx particle (vx particle + ax * dt u) in
  let particle := set_vy particle (vy particle + ay * dt u) in
  let particle :=
    if mode3D u then set_vz particle (vz particle + az * dt u)
    else particle in
  let particle := set_x particle (x particle + vx particle * dt u) in
  let particle := set_y particle (y particle + vy particle * dt u) in
  if mode3D u then set_z particle (z particle + vz particle * dt u)
  else particle.

(** The photon branch up to its call of [applyBoundaryConditions]. *)
Definition advancePhoton (u : Universe T) (particle : Particle T)
  : Particle T :=
  let particle := set_x particle (x particle + vx particle * dt u) in
  let particle := set_y particle (y particle + vy particle * dt u) in
  let particle :=
    if mode3D u then set_z particle (z particle + vz particle * dt u)
    else particle in
  set_age particle (age particle + ofZ 1).

Definition updateParticleMotion (u : Universe T) (particle : Particle T)
    (forceX forceY forceZ : T) : Particle T :=
  if isPhoton particle then
    applyBoundaryConditions u (advancePhoton u particle)
  else
    let particle := set_forceElectro particle forceX forceY forceZ in
    if fixed particle then particle
    else if staticProtons u && (charge particle >? ofZ 0) then particle
    else applyBoundaryConditions u (integrate u particle forceX forceY forceZ).

(** ** Step orchestrator *)

(** [forces[i] = g(forces[i])]; writes through an index that is in range
    at every use in [step]. *)
Fixpoint updateAt (A : Type) (i : nat) (g : A -> A) (l : list A) : list A :=
  match l, i with
  | [], _ => []
  | a :: l', O => g a :: l'
  | a :: l', S i' => a :: updateAt i' g l'
  end.

Definition zeroForce : Force T := {| fx := ofZ 0; fy := ofZ 0; fz := ofZ 0 |}.

(** [forces[i].fx += f.fx; forces[i].fy += f.fy; forces[i].fz += f.fz] *)
Definition plusForce (f g : Force T) : Force T :=
  {| fx := fx g + fx f; fy := fy g + fy f; fz := fz g + fz f |}.

(** [forces[j].fx -= f.fx; forces[j].fy -= f.fy; forces[j].fz -= f.fz] *)
Definition minusForce (f g : Force T) : Force T :=
  {| fx := fx g - fx f; fy := fy g - fy f; fz := fz g - fz f |}.

(** The body of the pairwise loop for the pair [(i, j)], once both photon
    tests have passed. *)
Definition accumulatePair (u : Universe T)
    (forces : list (Force T)) (i j : nat) (pi pj : Particle T)
  : list (Force T) :=
  let force := calculateForce u pi pj in
  let forces := updateAt i (plusForce force) forces in
  updateAt j (minusForce force) forces.

(** [for (let j = i + 1; ...)] over the indices [js] still to visit. *)
Fixpoint pairInner (u : Universe T) (ps : list (Particle T)) (i : nat)
    (pi : Particle T) (js : list nat) (forces : list (Force T))
  : list (Force T) :=
  match js with
  | [] => forces
  | j :: js' =>
      match nth_error ps j with
      | None => pairInner u ps i pi js' forces
      | Some pj =>
          if isPhoton pj then pairInner u ps i pi js' forces
          else pairInner u ps i pi js' (accumulatePair u forces i j pi pj)
      end
  end.

(** [for (let i = 0; ...)] over the indices [idxs] still to visit. *)
Fixpoint pairOuter (u : Universe T) (ps : list (Particle T)) (idxs : list nat)
    (forces : list (Force T)) : list (Force T) :=
  match idxs with
  | [] => forces
  | i :: idxs' =>
      match nth_error ps i with
      | None => pairOuter u ps idxs' forces
      | Some pi =>
          if isPhoton pi then pairOuter u ps idxs' forces
          else
            pairOuter u ps idxs'
              (pairInner u ps i pi
                 (seq (i + 1) (length ps - (i + 1))) forces)
      end
  end.

(** One of the two field-force loops: [forces[i] += field(particles[i])] for
    every non-photon. *)
Fixpoint addFieldForce (field : Particle T -> Force T)
    (ps : list (Particle T)) (forces : list (Force T)) : list (Force T) :=
  match ps, forces with
  | p :: ps', f :: forces' =>
      (if isPhoton p then f else plusForce (field p) f)
      :: addFieldForce field ps' forces'
  | _, _ => forces
  end.

(** The last loop: [updateParticleMotion(particles[i], forces[i].fx, ...)]. *)
Fixpoint moveAll (u : Universe T) (ps : list (Particle T))
    (forces : list (Force T)) : list (Particle T) :=
  match ps, forces with
  | p :: ps', f :: forces' =>
      updateParticleMotion u p (fx f) (fy f) (fz f) :: moveAll u ps' forces'
  | _, _ => ps
  end.

(** The forces [step] hands to the integrator for the particles [ps]. *)
Definition accumulateForces (u : Universe T) (ps : list (Particle T))
  : list (Force T) :=
  let forces := map (fun _ => zeroForce) ps in
  let forces := pairOuter u ps (seq 0 (length ps)) forces in
  let forces :=
    if gravityEnabled u then addFieldForce (calculateGravityForce u) ps forces
    else forces in
  if groundGravityEnabled u
  then addFieldForce (calculateGroundGravityForce u) ps forces
  else forces.

Definition step (u : Universe T) (k : nat) : Universe T * nat :=
  (* if (Math.random() < 0.005) { console.log(...) }: one draw; the branch
     only logs *)
  let logging := Math_random M k <? lit_0_005 in
  let k := S k in
  let '(u, _, k) := handlePhotonElectronCollisions u k in
  let '(u, k) := checkAndEmitPhotons u k in
  let ps :=
    map (fun p => set_forceElectro p (ofZ 0) (ofZ 0) (ofZ 0)) (particles u) in
  let forces := accumulateForces u ps in
  (set_particles u (moveAll u ps forces), k).

Fixpoint runSteps (n : nat) (u : Universe T) (k : nat) : Universe T * nat :=
  match n with
  | O => (u, k)
  | S n' => let '(u', k') := step u k in runSteps n' u' k'
  end.

End Program.

(** * Vocabulary of the properties

    The predicates and functions in which the properties below are stated,
    and the concrete inputs on which the program is evaluated. *)

(** ** Numbers: [Number.isNaN] and [Number.isFinite] on binary64 *)

Module Number.

Definition isNaN (a : float) : bool :=
  match Prim2SF a with S754_nan => true | _ => false end.

Definition isFinite (a : float) : bool :=
  match Prim2SF a with
  | S754_zero _ | S754_finite _ _ _ => true
  | _ => false
  end.

End Number.

Section Vocabulary.

Context {T : Type} {N : JsNumber T}.
Variable M : JsMath T.
Variable config : PhotonEmissionConfig.

Local Open Scope js_scope.

(** ** Pairwise forces *)

(** The component-wise negation of a force. *)
Definition negForce (f : Force T) : Force T :=
  {| fx := - fx f; fy := - fy f; fz := - fz f |}.

(** [particles[i]] exists and is not a photon. *)
Definition nonPhotonAt (ps : list (Particle T)) (i : nat) : bool :=
  match nth_error ps i with
  | Some p => negb (isPhoton p)
  | None => false
  end.

(** The pairs [(i, j)] for which the body of the pairwise loop runs, in the
    order in which it runs. *)
Definition pairsFrom (ps : list (Particle T)) (i : nat) : list (nat * nat) :=
  map (pair i)
    (filter (nonPhotonAt ps) (seq (i + 1) (length ps - (i + 1)))).

(** All of them, for the outer loop over [i]. *)
Definition nonPhotonPairs (ps : list (Particle T)) : list (nat * nat) :=
  flat_map (pairsFrom ps) (filter (nonPhotonAt ps) (seq 0 (length ps))).

(** The loop body, as a function of the pair of indices. *)
Definition applyPair (u : Universe T) (ps : list (Particle T))
    (forces : list (Force T)) (ij : nat * nat) : list (Force T) :=
  match nth_error ps (fst ij), nth_error ps (snd ij) with
  | Some pi, Some pj => accumulatePair u forces (fst ij) (snd ij) pi pj
  | _, _ => forces
  end.

(** ** Absorption *)

(** The particles the inner loop does not skip: [charge >= 0 || isPhoton]
    is false. *)
Definition isElectron (p : Particle T) : bool :=
  negb ((charge p >=? ofZ 0) || isPhoton p).

(** The inner loop's test for an unskipped [electron]. *)
Definition withinReach (u : Universe T) (photon electron : Particle T)
  : bool :=
  (photonElectronDistance u photon electron <? photonAbsorptionDistance u)
  && (age photon >=? photonMinAgeForAbsorption u).

(** The two tests together: [electron] absorbs [photon]. *)
Definition collides (u : Universe T) (photon electron : Particle T)
  : bool :=
  isElectron electron && withinReach u photon electron.

(** [p] is a photon and some particle of [ps] is an electron within reach
    of it. *)
Definition absorbed (u : Universe T) (ps : list (Particle T))
    (p : Particle T) : bool :=
  isPhoton p && existsb (collides u p) ps.

(** The same of the particle at index [i]. *)
Definition absorbedAt (u : Universe T) (ps : list (Particle T)) (i : nat)
  : bool :=
  match nth_error ps i with
  | Some p => absorbed u ps p
  | None => false
  end.

(** [q] is [p] up to its velocity. *)
Definition sameBody (p q : Particle T) : Prop :=
  q = set_vz (set_vy (set_vx p (vx q)) (vy q)) (vz q).

(** What absorption may do to a particle: nothing to a photon, a change of
    velocity to another particle, which leaves [vz] alone in 2D mode. *)
Definition moved (u : Universe T) (p q : Particle T) : Prop :=
  sameBody p q /\ (isPhoton p = true -> q = p)
  /\ (mode3D u = false -> vz q = vz p).

(** ** Emission *)

(** The argument lists [(particle, speed, vx, vy, vz)] of the calls of
    [managePhotonEmission] that the loop of [checkAndEmitPhotons] makes on
    the particles [ps], in order. *)
Fixpoint emissionCalls (u : Universe T) (ps : list (Particle T)) (k : nat)
  : list (Particle T * (T * T * T * T)) :=
  match ps with
  | [] => []
  | particle :: rest =>
      let '(call, k1) := emissionCall M config u particle k in
      match call with
      | Some args => (particle, args) :: emissionCalls u rest k1
      | None => emissionCalls u rest k1
      end
  end.

(** The calls made during one [step()]. *)
Definition stepEmissionCalls (u : Universe T) (k : nat)
  : list (Particle T * (T * T * T * T)) :=
  let '(u1, _, k1) := handlePhotonElectronCollisions M u (S k) in
  emissionCalls u1 (particles u1) k1.

(** What one call pushes on [newPhotons]. *)
Definition pushedBy (u : Universe T) (call : Particle T * (T * T * T * T))
  : list (Particle T) :=
  let '(particle, (speed, avx, avy, avz)) := call in
  match snd (managePhotonEmission config u particle speed avx avy avz lit_0_9)
  with
  | Some photon => [photon]
  | None => []
  end.

(** ** The step *)

(** [u] and [u'] differ by their particles only. *)
Definition sameSettings (u u' : Universe T) : Prop :=
  u' = set_particles u (particles u').

(** The particles on which the integrator runs during [step]: those left by
    absorption and emission, with their diagnostic force reset. *)
Definition beforeMotion (u : Universe T) (k : nat) : list (Particle T) :=
  let '(u1, _, k1) := handlePhotonElectronCollisions M u (S k) in
  let '(u2, _) := checkAndEmitPhotons M config u1 k1 in
  map (fun p => set_forceElectro p (ofZ 0) (ofZ 0) (ofZ 0)) (particles u2).

(** ** Boundaries *)

(** Some active coordinate of [p] is outside [[0, size]]. *)
Definition outOfBounds (u : Universe T) (p : Particle T) : bool :=
  (x p <? ofZ 0) || (x p >? size u)
  || ((y p <? ofZ 0) || (y p >? size u))
  || (mode3D u && ((z p <? ofZ 0) || (z p >? size u))).

(** [if (c < 0) c = 0; else if (c > size) c = size;] *)
Definition clampCoordinate (u : Universe T) (c : T) : T :=
  if c <? ofZ 0 then ofZ 0 else if c >? size u then size u else c.

(** The photon branch, axis by axis. *)
Definition reflectCoordinate (u : Universe T) (c : T) : T :=
  if c <? ofZ 0 then - c else if c >? size u then ofZ 2 * size u - c else c.

(** The velocity component [v] that goes with the coordinate [c]. *)
Definition reflectVelocity (u : Universe T) (c v : T) : T :=
  if c <? ofZ 0 then - v else if c >? size u then - v else v.

(** The photon branch runs once per axis and never looks at its result
    again.  [c'] is what it leaves of the coordinate [c]: beyond the upper
    wall the mirror image [2 * size - c], however far [c] is; below
    [-size] the opposite [-c], which is beyond the upper wall. *)
Definition reflectedOnce (u : Universe T) (c c' : T) : Prop :=
  c' = reflectCoordinate u c
  /\ ((c >? size u) = true -> c' = ofZ 2 * size u - c)
  /\ ((c <? - size u) = true -> c' = - c /\ (c' >? size u) = true).

End Vocabulary.

(** ** Removal by index *)

(** The elements of [l] whose index, counted from [a], satisfies [keep]. *)
Fixpoint keepAt (A : Type) (keep : nat -> bool) (a : nat) (l : list A)
  : list A :=
  match l with
  | [] => []
  | b :: l' =>
      if keep a then b :: keepAt keep (S a) l' else keepAt keep (S a) l'
  end.

(** [idxs] is strictly decreasing and below [n]. *)
Fixpoint descBelow (n : nat) (idxs : list nat) : Prop :=
  match idxs with
  | [] => True
  | i :: idxs' => i < n /\ descBelow i idxs'
  end.

(** ** Binary64 predicates *)

Section Binary64Vocabulary.

Local Open Scope js_scope.


(** [0 <= c && c <= size] *)
Definition inDomain (u : Universe float) (c : float) : Prop :=
  (ofZ 0 <=? c) = true /\ (c <=? size u) = true.

End Binary64Vocabulary.

(** ** Exact arithmetic *)

Section ExactVocabulary.

Local Open Scope R_scope.

(** [sqrt(1 - 0.9)] *)
Definition scale : R := R_sqrt.sqrt (1 - 9 / 10).

(** The velocity component the code treats as [vz]: the field in 3D mode,
    [0] in 2D mode. *)
Definition activeVz (u : Universe R) (p : Particle R) : R :=
  if mode3D u then vz p else 0.

(** The speed over the active axes, as [checkAndEmitPhotons] computes it. *)
Definition activeSpeed (u : Universe R) (p : Particle R) : R :=
  R_sqrt.sqrt (vx p * vx p + vy p * vy p + activeVz u p * activeVz u p).

End ExactVocabulary.

(** ** Concrete inputs *)

Module Sample.

Local Open Scope js_scope.

Definition num (n : Z) : float := ofZ n.

(** No randomness is drawn from, and no trigonometry evaluated, in the
    evaluations below except where stated: a constant stream will do. *)
Definition math : JsMath float :=
  {| Math_random := fun _ => lit_0_5;
     Math_sin := fun a => a;
     Math_cos := fun a => a;
     Math_acos := fun a => a;
     Math_PI := num 3 |}.

Definition emissionOn : PhotonEmissionConfig :=
  {| enabled := true; onePhotonPerElectron := true |}.

(** The object literal of [src/lib/config.js], which has no [enabled] key. *)
Definition emissionOff : PhotonEmissionConfig :=
  {| enabled := false; onePhotonPerElectron := true |}.

(** [new Universe(1.0, 1e-3)] *)
Definition universe : Universe float := newUniverse (num 1) lit_1e_3.

(** The same after [setMode3D(true)]. *)
Definition universe3D : Universe float := setMode3D universe true.

(** [new Particle(0.5, 0.5, 0, 0, -1, 1, false)]: an electron at rest. *)
Definition electron : Particle float :=
  newParticle lit_0_5 lit_0_5 (num 0) (num 0) (num (-1)) (num 1) false
    lit_0_5 (num 0) false (num 0).

(** [new Particle(0.5, 0.5, 0, 0, 1, 100, true)]: a fixed proton. *)
Definition fixedProton : Particle float :=
  newParticle lit_0_5 lit_0_5 (num 0) (num 0) (num 1) (num 100) true
    lit_0_5 (num 0) false (num 0).

End Sample.

Module Literal.

Import Sample.
Local Open Scope js_scope.

(** [new Universe(1.0, 1)] *)
Definition unitK : Universe float := newUniverse (num 1) (num 1).

Definition protonAt0 : Particle float :=
  newParticle (num 0) (num 0) (num 0) (num 0) (num 1) (num 100) false
    lit_0_5 (num 0) false (num 0).

Definition electronAt1 : Particle float :=
  newParticle (num 1) (num 0) (num 0) (num 0) (num (-1)) (num 1) false
    lit_0_5 (num 0) false (num 0).

Definition electronAt0_01 : Particle float :=
  newParticle lit_0_01 (num 0) (num 0) (num 0) (num (-1)) (num 1) false
    lit_0_5 (num 0) false (num 0).

End Literal.

Module AbsorptionSample.

Import Sample.
Local Open Scope js_scope.

(** [new Particle(0.5, 0.5, 1, 0, -1, 1, false)]: a moving electron. *)
Definition movingElectron : Particle float :=
  newParticle lit_0_5 lit_0_5 (num 1) (num 0) (num (-1)) (num 1) false
    lit_0_5 (num 0) false (num 0).

(** A photon of energy 4 at the electron's position, as emission creates
    them, of age 0 and of age 100. *)
Definition youngPhoton : Particle float :=
  newParticle lit_0_5 lit_0_5 (num 1) (num 0) (num 0) (num 0) false
    lit_0_5 (num 0) true (num 4).

Definition oldPhoton : Particle float := set_age youngPhoton (num 100).

Definition crowd : Universe float :=
  set_particles universe [youngPhoton; movingElectron; oldPhoton; electron].

End AbsorptionSample.

Module EmissionSample.

Import Sample.
Local Open Scope js_scope.

(** [new Particle(0.5, 0.5, 100, 0, -1, 1, false)]: probability
    [0.00001 * 100 / 0.001 = 1] of emission. *)
Definition fastElectron : Particle float :=
  newParticle lit_0_5 lit_0_5 (num 100) (num 0) (num (-1)) (num 1) false
    lit_0_5 (num 0) false (num 0).

(** [new Particle(0.5, 0.5, 100, 0, -1, 1, false, 0.5, 1)]: the same with
    [vz = 1], in a universe in 2D mode. *)
Definition tiltedElectron : Particle float :=
  newParticle lit_0_5 lit_0_5 (num 100) (num 0) (num (-1)) (num 1) false
    lit_0_5 (num 1) false (num 0).

Definition fast : Universe float := set_particles universe [fastElectron].

(** [new Particle(0.5, 0.5, 0, 0, -1, 1, false, 0.5, 100)]: all its speed
    is along z, in a universe in 2D mode. *)
Definition verticalElectron : Particle float :=
  newParticle lit_0_5 lit_0_5 (num 0) (num 0) (num (-1)) (num 1) false
    lit_0_5 (num 100) false (num 0).

Definition vertical : Universe float :=
  set_particles universe [verticalElectron].

(** [Math.sqrt(1 - 0.9)] *)
Definition scale64 : float := Math_sqrt (num 1 - lit_0_9).

(** [new Particle(0.5, 0.5, 3, 4, -1, 1, false)], of speed 5, and the call
    [managePhotonEmission(particle, 5, 3, 4, 0)] on it. *)
Definition electron34 : Particle float :=
  newParticle lit_0_5 lit_0_5 (num 3) (num 4) (num (-1)) (num 1) false
    lit_0_5 (num 0) false (num 0).

Definition emitted34 : Particle float * option (Particle float) :=
  managePhotonEmission emissionOn universe electron34
    (Math_sqrt (num 3 * num 3 + num 4 * num 4 + num 0 * num 0))
    (num 3) (num 4) (num 0) lit_0_9.

End EmissionSample.

Module ClampSample.

Import Sample.
Local Open Scope js_scope.

(** [new Particle(2, 0.5, 0, 0, 1, 100, false)]: a proton outside the unit
    square, in a universe with the default [staticProtons = true]. *)
Definition strayProton : Particle float :=
  newParticle (num 2) lit_0_5 (num 0) (num 0) (num 1) (num 100) false
    lit_0_5 (num 0) false (num 0).

(** [new Particle(0.5, 0.5, 100, 0, -1, 1, false, 0.5, 1)] after it has
    emitted: it leaves the unit square through [x = 1] within one step. *)
Definition escapingElectron : Particle float :=
  set_hasEmittedPhoton EmissionSample.tiltedElectron true.

Definition stray : Universe float := set_particles universe [strayProton].

Definition escaping : Universe float :=
  set_particles universe [escapingElectron].

(** Two electrons at rest at the same place. *)
Definition twins : Universe float :=
  set_particles universe [electron; electron].

End ClampSample.

Module ReflectSample.

Import Sample.
Local Open Scope js_scope.

(** A photon at the centre of the unit square with [vx = 1000]: one step of
    [dt = 0.01] carries it to [x = 10.5]. *)
Definition fastPhoton : Particle float :=
  newParticle lit_0_5 lit_0_5 (num 1000) (num 0) (num 0) (num 0) false
    lit_0_5 (num 0) true (num 1).

Definition beam : Universe float := set_particles universe [fastPhoton].

(** The same photon flying the other way: one step carries it to
    [x = -9.5]. *)
Definition backPhoton : Particle float :=
  newParticle lit_0_5 lit_0_5 (num (-1000)) (num 0) (num 0) (num 0) false
    lit_0_5 (num 0) true (num 1).

Definition backBeam : Universe float := set_particles universe [backPhoton].

(** The same universe in exact arithmetic, with a photon of [vx = 1]. *)
Definition universeR : Universe R := newUniverse 1%R (1 / 1000)%R.

Definition slowPhoton : Particle R :=
  newParticle (1 / 2)%R (1 / 2)%R 1%R 0%R 0%R 0%R false (1 / 2)%R 0%R true
    1%R.

Definition mathR : JsMath R :=
  {| Math_random := fun _ => (1 / 2)%R;
     Math_sin := Rtrigo_def.sin;
     Math_cos := Rtrigo_def.cos;
     Math_acos := Ratan.acos;
     Math_PI := Rtrigo1.PI |}.

End ReflectSample.

Module GravitySample.

Import Sample.
Local Open Scope js_scope.

(** [new Universe(2, 1e-3)] after [setMode3D(true)]: its centre is
    [(1, 1, 1)]. *)
Definition wide : Universe float := setMode3D (newUniverse (num 2) lit_1e_3) true.

(** [new Particle(1, 1, 0, 0, -1, 1, false, 1, 0)]: an electron at that
    centre. *)
Definition centred : Particle float :=
  newParticle (num 1) (num 1) (num 0) (num 0) (num (-1)) (num 1) false
    (num 1) (num 0) false (num 0).

(** [new Particle(0, 0, 0, 0, -1, 1, false)]: an electron in the corner of
    the unit square. *)
Definition cornered : Particle float :=
  newParticle (num 0) (num 0) (num 0) (num 0) (num (-1)) (num 1) false
    lit_0_5 (num 0) false (num 0).

(** The first of two electrons placed at the same point, as one [step()]
    leaves it. *)
Definition lost : Particle float :=
  hd electron (particles (fst (step math emissionOff ClampSample.twins 0))).

End GravitySample.

Module ExactSample.

Local Open Scope R_scope.

(** [new Particle(0.5, 0.5, 3, 4, -1, 1, false)], of speed 5. *)
Definition electron345 : Particle R :=
  newParticle (1 / 2) (1 / 2) 3 4 (-1) 1 false (1 / 2) 0 false 0.

End ExactSample.

(** * The rest of the engine

    [addParticle] and [removeAllElectrons] of [src/lib/physics.js], the
    energy accounting of [src/lib/energy.js], and the vocabulary of the
    properties stated about them and about the population of a universe
    across [step()]. *)

Section Housekeeping.

Context {T : Type} {N : JsNumber T}.

Local Open Scope js_scope.

(** [addParticle(particle)]: [this.particles.push(particle)] *)
Definition addParticle (u : Universe T) (particle : Particle T) : Universe T :=
  set_particles u (particles u ++ [particle]).

(** [removeAllElectrons()]: [this.particles.filter(p => p.charge > 0)] *)
Definition removeAllElectrons (u : Universe T) : Universe T :=
  set_particles u (filter (fun p => charge p >? ofZ 0) (particles u)).

End Housekeeping.

(** ** [src/lib/energy.js] *)

Module Energy.

(** The object [calculateTotalEnergy] returns. *)
Record Breakdown (T : Type) : Type := {
  kinetic : T;
  photon : T;
  electrostatic : T;
  total : T
}.

Section Functions.

Context {T : Type} {N : JsNumber T}.

Local Open Scope js_scope.

(** [const kineticEnergy = 0.5 * particle.mass * speedSquared], with the
    three constants above it in the loop body. *)
Definition kineticEnergy (universe : Universe T) (particle : Particle T) : T :=
  let avx := vx particle in
  let avy := vy particle in
  let avz := if mode3D universe then vz particle else ofZ 0 in
  let speedSquared := avx * avx + avy * avy + avz * avz in
  lit_0_5 * mass particle * speedSquared.

Definition calculateTotalKineticEnergy (universe : Universe T) : T :=
  fold_left
    (fun totalKE particle =>
       if isPhoton particle then totalKE
       else totalKE + kineticEnergy universe particle)
    (particles universe) (ofZ 0).

Definition calculateTotalPhotonEnergy (universe : Universe T) : T :=
  fold_left
    (fun totalPhotonEnergy particle =>
       if isPhoton particle then totalPhotonEnergy + energy particle
       else totalPhotonEnergy)
    (particles universe) (ofZ 0).

(** [const potentialEnergy = (K * p1.charge * p2.charge) / (distance + 0.01)] *)
Definition potentialEnergy (universe : Universe T) (p1 p2 : Particle T) : T :=
  let dx := x p2 - x p1 in
  let dy := y p2 - y p1 in
  let dz := if mode3D universe then z p2 - z p1 else ofZ 0 in
  let distance := Math_sqrt (dx * dx + dy * dy + dz * dz) in
  (electrostaticCoefficient universe * charge p1 * charge p2)
  / (distance + lit_0_01).

(** [for (let j = i + 1; ...)] over the indices [js] still to visit. *)
Fixpoint energyInner (universe : Universe T) (ps : list (Particle T))
    (p1 : Particle T) (js : list nat) (totalPE : T) : T :=
  match js with
  | [] => totalPE
  | j :: js' =>
      match nth_error ps j with
      | None => energyInner universe ps p1 js' totalPE
      | Some p2 =>
          if isPhoton p2 then energyInner universe ps p1 js' totalPE
          else
            energyInner universe ps p1 js'
              (totalPE + potentialEnergy universe p1 p2)
      end
  end.

(** [for (let i = 0; ...)] over the indices [idxs] still to visit. *)
Fixpoint energyOuter (universe : Universe T) (ps : list (Particle T))
    (idxs : list nat) (totalPE : T) : T :=
  match idxs with
  | [] => totalPE
  | i :: idxs' =>
      match nth_error ps i with
      | None => energyOuter universe ps idxs' totalPE
      | Some p1 =>
          if isPhoton p1 then energyOuter universe ps idxs' totalPE
          else
            energyOuter universe ps idxs'
              (energyInner universe ps p1
                 (seq (i + 1) (length ps - (i + 1))) totalPE)
      end
  end.

Definition calculateTotalElectrostaticEnergy (universe : Universe T) : T :=
  energyOuter universe (particles universe)
    (seq 0 (length (particles universe))) (ofZ 0).

Definition calculateTotalEnergy (universe : Universe T) : Breakdown T :=
  let kineticEnergy := calculateTotalKineticEnergy universe in
  let photonEnergy := calculateTotalPhotonEnergy universe in
  let electrostaticEnergy := calculateTotalElectrostaticEnergy universe in
  let totalEnergy := kineticEnergy + photonEnergy + electrostaticEnergy in
  {| kinetic := kineticEnergy;
     photon := photonEnergy;
     electrostatic := electrostaticEnergy;
     total := totalEnergy |}.

End Functions.

End Energy.

(** ** The population of a universe *)

Section PopulationVocabulary.

Context {T : Type} {N : JsNumber T}.
Variable M : JsMath T.
Variable config : PhotonEmissionConfig.

Local Open Scope js_scope.

Definition isNonPhoton (p : Particle T) : bool := negb (isPhoton p).

(** What absorption, emission and the reset of the diagnostics leave of a
    particle [p] in [q]: its kind, charge, mass, energy and age; a set
    [hasEmittedPhoton] flag; its position; and, in 2D mode, its [vz]. *)
Definition carried (u : Universe T) (p q : Particle T) : Prop :=
  isPhoton q = isPhoton p /\ charge q = charge p /\ mass q = mass p
  /\ fixed q = fixed p /\ energy q = energy p /\ age q = age p
  /\ (hasEmittedPhoton p = true -> hasEmittedPhoton q = true)
  /\ (x q = x p /\ y q = y p /\ z q = z p)
  /\ (mode3D u = false -> vz q = vz p).

(** What a whole [step()] leaves of [p] in [q]: its kind, charge, mass and
    energy; a set [hasEmittedPhoton] flag; its age, which is one more for a
    photon; and, in 2D mode, its [z] and [vz]. *)
Definition stepped (u : Universe T) (p q : Particle T) : Prop :=
  isPhoton q = isPhoton p /\ charge q = charge p /\ mass q = mass p
  /\ fixed q = fixed p /\ energy q = energy p
  /\ age q = (if isPhoton p then age p + ofZ 1 else age p)
  /\ (hasEmittedPhoton p = true -> hasEmittedPhoton q = true)
  /\ (mode3D u = false -> z q = z p /\ vz q = vz p).

(** A photon at the end of the step that emitted it. *)
Definition newborn (q : Particle T) : Prop :=
  isPhoton q = true /\ charge q = ofZ 0 /\ mass q = ofZ 0
  /\ fixed q = false /\ age q = ofZ 0 + ofZ 1.

(** The charge, mass and [fixed] flag of every non-photon, in order. *)
Definition matter (u : Universe T) : list (T * T * bool) :=
  map (fun p => (charge p, mass p, fixed p))
    (filter isNonPhoton (particles u)).

(** The speed [shouldEmitPhoton] compares with the threshold. *)
Definition fullSpeed (p : Particle T) : T :=
  Math_sqrt (vx p * vx p + vy p * vy p + vz p * vz p).

(** An electron that has not emitted yet. *)
Definition fresh (p : Particle T) : bool :=
  isElectron p && negb (hasEmittedPhoton p).

(** [q] stands where [p] stands in the list and is a photon if [p] is one,
    [p] itself otherwise. *)
Definition samePlaceholder (p q : Particle T) : Prop :=
  if isPhoton p then isPhoton q = true else q = p.

End PopulationVocabulary.

(** ** Energy *)

Section EnergyVocabulary.

Context {T : Type} {N : JsNumber T}.

(** [q] is where [p] is, with [p]'s charge, and a photon if [p] is one. *)
Definition samePlace (p q : Particle T) : Prop :=
  isPhoton q = isPhoton p /\ charge q = charge p
  /\ x q = x p /\ y q = y p /\ z q = z p.

(** The universe [u] holding only its non-photons, and only its photons. *)
Definition matterOnly (u : Universe T) : Universe T :=
  set_particles u (filter isNonPhoton (particles u)).

Definition lightOnly (u : Universe T) : Universe T :=
  set_particles u (filter (fun p => isPhoton p) (particles u)).

End EnergyVocabulary.

(** ** Exact arithmetic: distances and trigonometry *)

Section ExactForceVocabulary.

Local Open Scope R_scope.

(** The components of the vector from [p1] to [p2] over the active axes,
    and its length, as the force calculators compute them. *)
Definition offsetX (p1 p2 : Particle R) : R := x p2 - x p1.
Definition offsetY (p1 p2 : Particle R) : R := y p2 - y p1.
Definition offsetZ (u : Universe R) (p1 p2 : Particle R) : R :=
  if mode3D u then z p2 - z p1 else 0.

Definition separation (u : Universe R) (p1 p2 : Particle R) : R :=
  R_sqrt.sqrt (offsetX p1 p2 * offsetX p1 p2 + offsetY p1 p2 * offsetY p1 p2
               + offsetZ u p1 p2 * offsetZ u p1 p2).

(** No two non-photons of [ps] are at the same place over the active axes:
    the pairwise loop never divides by a zero distance. *)
Definition apart (u : Universe R) (ps : list (Particle R)) : Prop :=
  forall i j pi pj,
    In (i, j) (nonPhotonPairs ps) ->
    nth_error ps i = Some pi -> nth_error ps j = Some pj ->
    0 < separation u pi pj.

(** The length of a force vector. *)
Definition norm (f : Force R) : R :=
  R_sqrt.sqrt (fx f * fx f + fy f * fy f + fz f * fz f).

(** What the absorption code needs of [Math.sin], [Math.cos] and
    [Math.PI]. *)
Definition trigonometric (M : JsMath R) : Prop :=
  (forall a, Math_sin M a * Math_sin M a + Math_cos M a * Math_cos M a = 1)
  /\ Math_sin M (Math_PI M / 2) = 1.

End ExactForceVocabulary.

Module ForceSample.

Local Open Scope R_scope.

(** [new Universe(1.0, 1e-3)] after [setStrongForceEnabled(true)], in exact
    arithmetic. *)
Definition universeR : Universe R :=
  mkUniverse 1 (1 / 1000) 1 (1 / 1000) (3 * (1 / 1000)) 100 true true 10
    false 10 false 10 false [] (1 / 100).

(** [new Particle(0, 0, 0, 0, 1, 100, false)] and
    [new Particle(1, 0, 0, 0, -1, 1, false)] *)
Definition protonR : Particle R :=
  newParticle 0 0 0 0 1 100 false (1 / 2) 0 false 0.

Definition electronR : Particle R :=
  newParticle 1 0 0 0 (-1) 1 false (1 / 2) 0 false 0.

End ForceSample.

(** ** Exact arithmetic: sums of energies *)

Section ExactEnergyVocabulary.

Local Open Scope R_scope.

(** The three sums of [energy.js] for the particles [l] in the universe
    [u]. *)
Definition kineticSum (u : Universe R) (l : list (Particle R)) : R :=
  Energy.calculateTotalKineticEnergy (set_particles u l).

Definition photonSum (u : Universe R) (l : list (Particle R)) : R :=
  Energy.calculateTotalPhotonEnergy (set_particles u l).

(** The sum of [f] over a list. *)
Definition sumOf (A : Type) (f : A -> R) (l : list A) : R :=
  fold_right (fun a s => f a + s) 0 l.

(** The energy of the particle at index [i], if there is one. *)
Definition energyAt (l : list (Particle R)) (i : nat) : R :=
  match nth_error l i with
  | Some p => energy p
  | None => 0
  end.

(** What the energy balance of absorption asks of a particle: an electron
    has a positive mass and, in 2D mode, no velocity along [z]; a photon
    has a non-negative energy. *)
Definition wellFormed (u : Universe R) (p : Particle R) : Prop :=
  (isElectron p = true ->
   0 < mass p /\ (mode3D u = false -> vz p = 0))
  /\ (isPhoton p = true -> 0 <= energy p).

End ExactEnergyVocabulary.

Module PopulationSample.

Import Sample.
Local Open Scope js_scope.

(** An electron at rest and a fixed proton. *)
Definition resting : Universe float :=
  set_particles universe [electron; fixedProton].

(** A photon between two electrons, and the same with a younger photon in
    its place. *)
Definition withOldPhoton : list (Particle float) :=
  [AbsorptionSample.movingElectron; AbsorptionSample.oldPhoton; electron].

Definition withYoungPhoton : list (Particle float) :=
  [AbsorptionSample.movingElectron; AbsorptionSample.youngPhoton; electron].

End PopulationSample.

Module EnergySample.

Local Open Scope R_scope.

(** [new Particle(0.5, 0.5, 60, 80, -1, 1, false)], of speed 100: it
    passes the emission test for every draw below 1. *)
Definition fastElectron : Particle R :=
  newParticle (1 / 2) (1 / 2) 60 80 (-1) 1 false (1 / 2) 0 false 0.

Definition emitter : Universe R :=
  set_particles ReflectSample.universeR [fastElectron].

(** A photon of energy 1 and age 100 at the place of the electron of
    speed 5: the electron absorbs it. *)
Definition oldPhoton : Particle R := set_age ReflectSample.slowPhoton 100.

Definition absorber : Universe R :=
  set_particles ReflectSample.universeR [oldPhoton; ExactSample.electron345].

End EnergySample.

(** ** Who is left alone by a step *)

Section UntouchedVocabulary.

Context {T : Type} {N : JsNumber T}.

Local Open Scope js_scope.

(** The two skip tests of [updateParticleMotion]. *)
Definition skipped (u : Universe T) (p : Particle T) : bool :=
  fixed p || (staticProtons u && (charge p >? ofZ 0)).

(** [set_forceElectro p 0 0 0]: the reset at the start of the force
    computation. *)
Definition resetForce (p : Particle T) : Particle T :=
  set_forceElectro p (ofZ 0) (ofZ 0) (ofZ 0).

(** [q] is [p] up to the diagnostic force. *)
Definition sameButForce (p q : Particle T) : Prop :=
  q = set_forceElectro p (forceElectroX q) (forceElectroY q)
        (forceElectroZ q).

End UntouchedVocabulary.

Section KeptVocabulary.

Context {T : Type} {N : JsNumber T}.

Local Open Scope js_scope.

(** What absorption, emission and the reset leave of [p] in [q], the
    particle the integrator is run on: what [carried] says, and, unless [p]
    is an electron, all of [p] but the diagnostic force. *)
Definition kept (u : Universe T) (p q : Particle T) : Prop :=
  carried u p q /\ (isElectron p = false -> q = resetForce p).

(** [q] is what the integrator makes of [p], for some force. *)
Definition moves (u : Universe T) (p q : Particle T) : Prop :=
  exists f, q = updateParticleMotion u p (fx f) (fy f) (fz f).

End KeptVocabulary.

(** * Facts about binary64 arithmetic

    Proved from the specification of the primitive operations
    ([FloatAxioms]) by case analysis on the specification-level value. *)

Module Binary64.

Lemma SFsub_is_add_opp (a b : spec_float) :
  SFsub prec emax a b = SFadd prec emax a (SFopp b).
Proof.
  destruct a as [sa|sa| |sa ma ea], b as [sb|sb| |sb mb eb]; simpl;
    try reflexivity; destruct sa, sb; reflexivity.
Qed.

Lemma sub_is_add_opp (a b : float) :
  PrimFloat.sub a b = PrimFloat.add a (PrimFloat.opp b).
Proof.
  apply Prim2SF_inj.
  rewrite sub_spec, add_spec, opp_spec.
  apply SFsub_is_add_opp.
Qed.

Lemma SFcompare_flip (a b : spec_float) :
  SFcompare b a = option_map CompOpp (SFcompare a b).
Proof.
  destruct a as [sa|sa| |sa ma ea], b as [sb|sb| |sb mb eb]; simpl;
    try reflexivity;
    try (destruct sa; reflexivity); try (destruct sb; reflexivity);
    try (destruct sa, sb; reflexivity).
  destruct sa, sb; simpl; try reflexivity;
    rewrite (Z.compare_antisym eb ea);
    destruct (Z.compare eb ea); simpl; try reflexivity;
    rewrite (Pos.compare_cont_antisym ma mb Eq); simpl;
    destruct (Pos.compare_cont Eq mb ma); reflexivity.
Qed.

Lemma SFcompare_defined (a b : spec_float) :
  a <> S754_nan -> b <> S754_nan -> exists c, SFcompare a b = Some c.
Proof.
  intros Ha Hb.
  destruct a as [sa|sa| |sa ma ea], b as [sb|sb| |sb mb eb];
    try congruence; simpl; eauto.
Qed.

Lemma isNaN_false (a : float) : Number.isNaN a = false <-> Prim2SF a <> S754_nan.
Proof.
  unfold Number.isNaN. destruct (Prim2SF a); split; congruence.
Qed.

(** [a < b] excludes [a >= b]; this holds for NaN as well. *)
Lemma ltb_excludes_geb (a b : float) :
  PrimFloat.ltb a b = true -> PrimFloat.leb b a = false.
Proof.
  rewrite ltb_spec, leb_spec. unfold SFltb, SFleb.
  rewrite (SFcompare_flip (Prim2SF a) (Prim2SF b)).
  destruct (SFcompare (Prim2SF a) (Prim2SF b)) as [[]|]; simpl; congruence.
Qed.

(** For numbers, [a >= b] is the negation of [a < b]. *)
Lemma not_ltb_geb (a b : float) :
  Number.isNaN a = false -> Number.isNaN b = false ->
  PrimFloat.ltb a b = false -> PrimFloat.leb b a = true.
Proof.
  rewrite !isNaN_false, ltb_spec, leb_spec. unfold SFltb, SFleb.
  intros Ha Hb.
  rewrite (SFcompare_flip (Prim2SF a) (Prim2SF b)).
  destruct (SFcompare_defined Ha Hb) as [c ->].
  destruct c; simpl; congruence.
Qed.


Lemma ltb_true_numbers (a b : float) :
  PrimFloat.ltb a b = true -> Number.isNaN a = false /\ Number.isNaN b = false.
Proof.
  rewrite ltb_spec. unfold SFltb, Number.isNaN.
  destruct (Prim2SF a) as [sa|sa| |sa ma ea],
           (Prim2SF b) as [sb|sb| |sb mb eb]; simpl; auto; discriminate.
Qed.

Lemma leb_true_numbers (a b : float) :
  PrimFloat.leb a b = true -> Number.isNaN a = false /\ Number.isNaN b = false.
Proof.
  rewrite leb_spec. unfold SFleb, Number.isNaN.
  destruct (Prim2SF a) as [sa|sa| |sa ma ea],
           (Prim2SF b) as [sb|sb| |sb mb eb]; simpl; auto; discriminate.
Qed.

Lemma SFcompare_refl (a : spec_float) :
  a <> S754_nan -> SFcompare a a = Some Eq.
Proof.
  destruct a as [sa|sa| |sa ma ea]; try congruence; intros _; simpl.
  - reflexivity.
  - destruct sa; reflexivity.
  - rewrite Z.compare_refl.
    assert (H : Pos.compare_cont Eq ma ma = Eq) by apply Pos.compare_refl.
    destruct sa; rewrite H; reflexivity.
Qed.

Lemma leb_refl (a : float) : Number.isNaN a = false -> PrimFloat.leb a a = true.
Proof.
  rewrite isNaN_false, leb_spec. unfold SFleb.
  intros Ha. now rewrite (SFcompare_refl Ha).
Qed.


(** NaN is absorbing. *)
Lemma mul_nan_r (a b : float) : Number.isNaN b = true -> Number.isNaN (PrimFloat.mul a b) = true.
Proof.
  unfold Number.isNaN. rewrite mul_spec.
  destruct (Prim2SF b); try discriminate.
  destruct (Prim2SF a); reflexivity.
Qed.


Lemma isNaN_eq (a : float) : Number.isNaN a = true -> a = PrimFloat.nan.
Proof.
  unfold Number.isNaN. intros H. apply Prim2SF_inj.
  destruct (Prim2SF a); try discriminate. reflexivity.
Qed.

Lemma mul_opp_opp (a : float) :
  PrimFloat.mul (PrimFloat.opp a) (PrimFloat.opp a) = PrimFloat.mul a a.
Proof.
  apply Prim2SF_inj. rewrite !mul_spec, opp_spec.
  destruct (Prim2SF a) as [sa|sa| |sa ma ea]; simpl; try reflexivity;
    destruct sa; reflexivity.
Qed.

(** A finite number minus itself is [+0]. *)
Lemma sub_diag (a : float) : Number.isFinite a = true -> PrimFloat.sub a a = PrimFloat.zero.
Proof.
  unfold Number.isFinite. intros H. apply Prim2SF_inj. rewrite sub_spec.
  change (Prim2SF PrimFloat.zero) with (S754_zero false).
  destruct (Prim2SF a) as [sa|sa| |sa ma ea]; try discriminate; simpl.
  - destruct sa; reflexivity.
  - rewrite Z.sub_diag. reflexivity.
Qed.

End Binary64.

(** The decimal literals of the source, as binary64 values. *)
Example literals_binary64 :
  @lit_0_5 float _ = 0x1p-1%float
  /\ @lit_0_9 float _ = 0x1.ccccccccccccdp-1%float
  /\ @lit_0_01 float _ = 0x1.47ae147ae147bp-7%float
  /\ @lit_0_005 float _ = 0x1.47ae147ae147bp-8%float
  /\ @lit_1e_3 float _ = 0x1.0624dd2f1a9fcp-10%float
  /\ @lit_0_00001 float _ = 0x1.4f8b588e368f1p-17%float
  /\ @lit_1e_6 float _ = 0x1.0c6f7a0b5ed8dp-20%float
  /\ @lit_1e_10 float _ = 0x1.b7cdfd9d7bdbbp-34%float.
Proof. vm_compute. repeat split. Qed.

(** ** The literal cases of the specification, evaluated *)

(** K_e = 1, charges +1 and -1 at distance 1 along x: the force on the
    positive charge is [1 / (1 + 0.01)], toward the negative charge. *)
Example electrostatic_force_at_distance_1 :
  calculateElectrostaticForce Literal.unitK Literal.protonAt0
    Literal.electronAt1
  = {| fx := (Sample.num 1 / (Sample.num 1 + lit_0_01))%js;
       fy := Sample.num 0;
       fz := Sample.num 0 |}.
Proof. vm_compute. reflexivity. Qed.

(** K_s = 10, distance 0.01: the strong force has magnitude 0.1 and pushes
    the first particle away from the second. *)
Example strong_force_at_distance_0_01 :
  fx (calculateStrongForce Literal.unitK Literal.protonAt0
        Literal.electronAt0_01)
  = (- (Sample.num 1 / Sample.num 10))%js
  /\ fx (calculateStrongForce Literal.unitK Literal.electronAt0_01
           Literal.protonAt0)
     = (Sample.num 1 / Sample.num 10)%js.
Proof. vm_compute. split; reflexivity. Qed.

(** * The integrator's skip tests *)

Section Skip.

Context {T : Type} {N : JsNumber T}.
Local Open Scope js_scope.

(** C8 (amended). If a non-photon particle has [fixed = true], or
    [staticProtons] is enabled and its charge is [> 0], then
    [updateParticleMotion] leaves its position, its velocity and its
    diagnostic acceleration fields unchanged; the diagnostic force fields
    [forceElectroX/Y/Z] are overwritten with the force passed to the call,
    since that assignment precedes the two skip tests.  Nothing else
    changes. *)
Theorem updateParticleMotion_skip (u : Universe T) (p : Particle T)
    (forceX forceY forceZ : T) :
  isPhoton p = false ->
  fixed p = true \/ (staticProtons u = true /\ (charge p >? ofZ 0) = true) ->
  let p' := updateParticleMotion u p forceX forceY forceZ in
  (x p' = x p /\ y p' = y p /\ z p' = z p) /\
  (vx p' = vx p /\ vy p' = vy p /\ vz p' = vz p) /\
  (accelerationX p' = accelerationX p /\ accelerationY p' = accelerationY p
   /\ accelerationZ p' = accelerationZ p) /\
  (forceElectroX p' = forceX /\ forceElectroY p' = forceY
   /\ forceElectroZ p' = forceZ) /\
  p' = set_forceElectro p forceX forceY forceZ.
Proof.
  intros Hphoton Hskip p'.
  assert (E : p' = set_forceElectro p forceX forceY forceZ).
  { unfold p', updateParticleMotion. rewrite Hphoton. simpl.
    destruct Hskip as [Hf | [Hs Hc]].
    - now rewrite Hf.
    - rewrite Hs, Hc. simpl. now destruct (fixed p). }
  rewrite E. simpl. repeat split; reflexivity.
Qed.

End Skip.

(** The claim as stated does not hold: the call changes the diagnostic
    force of a fixed proton from [0] to the force it is given. *)
Lemma updateParticleMotion_skip_changes_force :
  isPhoton Sample.fixedProton = false /\
  fixed Sample.fixedProton = true /\
  forceElectroX
    (updateParticleMotion Sample.universe Sample.fixedProton
       (Sample.num 1) (Sample.num 0) (Sample.num 0))
  <> forceElectroX Sample.fixedProton.
Proof.
  split; [reflexivity | split; [reflexivity |]].
  intros H.
  apply (f_equal (fun a => PrimFloat.eqb a (Sample.num 0))) in H.
  vm_compute in H. discriminate H.
Qed.

Lemma updateParticleMotion_skip_witness :
  let p' :=
    updateParticleMotion Sample.universe Sample.fixedProton
      (Sample.num 1) (Sample.num 0) (Sample.num 0) in
  (x p' = x Sample.fixedProton /\ y p' = y Sample.fixedProton
   /\ z p' = z Sample.fixedProton) /\
  (vx p' = vx Sample.fixedProton /\ vy p' = vy Sample.fixedProton
   /\ vz p' = vz Sample.fixedProton) /\
  (accelerationX p' = accelerationX Sample.fixedProton
   /\ accelerationY p' = accelerationY Sample.fixedProton
   /\ accelerationZ p' = accelerationZ Sample.fixedProton) /\
  (forceElectroX p' = Sample.num 1 /\ forceElectroY p' = Sample.num 0
   /\ forceElectroZ p' = Sample.num 0) /\
  p' = set_forceElectro Sample.fixedProton
         (Sample.num 1) (Sample.num 0) (Sample.num 0).
Proof.
  apply (updateParticleMotion_skip Sample.universe Sample.fixedProton
           (Sample.num 1) (Sample.num 0) (Sample.num 0)).
  - reflexivity.
  - left. reflexivity.
Defined.

(** * Electrostatic force at zero separation *)

Section Coincident.

Local Open Scope js_scope.

(** C9 (the code at the failing input). For two particles at the same finite
    position ([x] and [y], and [z] in 3D mode),
    [calculateElectrostaticForce] returns NaN for [fx] and [fy] (and for
    [fz] in 3D mode), whatever the charges and the coefficient: [distance]
    is [0] and the direction [dx / distance] is [0 / 0].  The [+ 0.01]
    softens the magnitude only. *)
Theorem calculateElectrostaticForce_coincident_NaN
    (u : Universe float) (p1 p2 : Particle float) :
  Number.isFinite (x p1) = true -> x p2 = x p1 ->
  Number.isFinite (y p1) = true -> y p2 = y p1 ->
  (mode3D u = true -> Number.isFinite (z p1) = true /\ z p2 = z p1) ->
  let f := calculateElectrostaticForce u p1 p2 in
  Number.isNaN (fx f) = true /\
  Number.isNaN (fy f) = true /\
  (if mode3D u then Number.isNaN (fz f) = true else fz f = ofZ 0).
Proof.
  intros Fx Ex Fy Ey Hz. unfold calculateElectrostaticForce.
  rewrite Ex, Ey. cbn [add sub mul div neg Math_sqrt float_JsNumber].
  rewrite !Binary64.sub_diag by assumption.
  assert (Hdz : (if mode3D u then PrimFloat.sub (z p2) (z p1) else ofZ 0)
                = PrimFloat.zero).
  { destruct (mode3D u); [| reflexivity].
    destruct (Hz eq_refl) as [Fz ->]. now apply Binary64.sub_diag. }
  rewrite Hdz. cbn [fx fy fz].
  repeat split.
  - apply Binary64.mul_nan_r. reflexivity.
  - apply Binary64.mul_nan_r. reflexivity.
  - destruct (mode3D u).
    + apply Binary64.mul_nan_r. reflexivity.
    + reflexivity.
Qed.

End Coincident.

Lemma calculateElectrostaticForce_coincident_NaN_witness :
  let f :=
    calculateElectrostaticForce Sample.universe Sample.electron
      Sample.electron in
  Number.isNaN (fx f) = true /\ Number.isNaN (fy f) = true /\
  fz f = Sample.num 0.
Proof.
  apply (calculateElectrostaticForce_coincident_NaN Sample.universe
           Sample.electron Sample.electron);
    try reflexivity; discriminate.
Defined.

(** * Pairwise force accumulation *)

Section Pairwise.

Context {T : Type} {N : JsNumber T}.
Local Open Scope js_scope.

Lemma pairInner_fold (u : Universe T) (ps : list (Particle T)) (i : nat)
    (pi : Particle T) (js : list nat) :
  nth_error ps i = Some pi ->
  forall forces,
    pairInner u ps i pi js forces
    = fold_left (applyPair u ps)
        (map (pair i) (filter (nonPhotonAt ps) js)) forces.
Proof.
  intros Hi. induction js as [|j js IH]; intros forces; simpl.
  - reflexivity.
  - unfold nonPhotonAt at 1.
    destruct (nth_error ps j) as [pj|] eqn:Hj.
    + destruct (isPhoton pj); simpl.
      * apply IH.
      * rewrite IH. f_equal. unfold applyPair. simpl. now rewrite Hi, Hj.
    + apply IH.
Qed.

Lemma pairOuter_fold (u : Universe T) (ps : list (Particle T))
    (idxs : list nat) :
  forall forces,
    pairOuter u ps idxs forces
    = fold_left (applyPair u ps)
        (flat_map (pairsFrom ps) (filter (nonPhotonAt ps) idxs)) forces.
Proof.
  induction idxs as [|i idxs IH]; intros forces; simpl.
  - reflexivity.
  - unfold nonPhotonAt at 1.
    destruct (nth_error ps i) as [pi|] eqn:Hi.
    + destruct (isPhoton pi); simpl.
      * apply IH.
      * rewrite fold_left_app, IH. f_equal.
        unfold pairsFrom. now apply pairInner_fold.
    + apply IH.
Qed.

Lemma nonPhotonPairs_spec (ps : list (Particle T)) (i j : nat) :
  In (i, j) (nonPhotonPairs ps) <->
  i < j < length ps /\ nonPhotonAt ps i = true /\ nonPhotonAt ps j = true.
Proof.
  unfold nonPhotonPairs, pairsFrom. rewrite in_flat_map. split.
  - intros [i' [Hi' Hin]].
    apply filter_In in Hi'. destruct Hi' as [Hseq Hnp].
    apply in_map_iff in Hin. destruct Hin as [j' [E Hj']].
    inversion E; subst i' j'.
    apply filter_In in Hj'. destruct Hj' as [Hseqj Hnpj].
    apply in_seq in Hseq. apply in_seq in Hseqj.
    repeat split; try assumption; lia.
  - intros [[Hij Hj] [Hnpi Hnpj]]. exists i. split.
    + apply filter_In. split; [apply in_seq; lia | assumption].
    + apply in_map. apply filter_In. split; [apply in_seq; lia | assumption].
Qed.

Lemma nth_error_updateAt_same (A : Type) (g : A -> A) (l : list A) (i : nat)
    (a : A) :
  nth_error l i = Some a -> nth_error (updateAt i g l) i = Some (g a).
Proof.
  revert i. induction l as [|b l IH]; intros [|i]; simpl; try discriminate.
  - now intros [= ->].
  - apply IH.
Qed.

Lemma nth_error_updateAt_other (A : Type) (g : A -> A) (l : list A)
    (i j : nat) :
  i <> j -> nth_error (updateAt i g l) j = nth_error l j.
Proof.
  revert i j. induction l as [|b l IH]; intros [|i] [|j] Hij; simpl;
    try reflexivity; try congruence.
  apply IH. congruence.
Qed.

Lemma length_updateAt (A : Type) (g : A -> A) (l : list A) (i : nat) :
  length (updateAt i g l) = length l.
Proof.
  revert i. induction l as [|b l IH]; intros [|i]; simpl; auto.
Qed.

Lemma accumulatePair_spec (u : Universe T) (forces : list (Force T))
    (i j : nat) (pi pj : Particle T) (fi fj : Force T) :
  i <> j ->
  nth_error forces i = Some fi -> nth_error forces j = Some fj ->
  let force := calculateForce u pi pj in
  let forces' := accumulatePair u forces i j pi pj in
  nth_error forces' i = Some (plusForce force fi) /\
  nth_error forces' j = Some (minusForce force fj) /\
  forall l, l <> i -> l <> j -> nth_error forces' l = nth_error forces l.
Proof.
  intros Hij Hi Hj force forces'. unfold forces', accumulatePair.
  fold force. repeat split.
  - rewrite nth_error_updateAt_other by congruence.
    now apply nth_error_updateAt_same.
  - apply nth_error_updateAt_same.
    now rewrite nth_error_updateAt_other by congruence.
  - intros l Hli Hlj.
    rewrite !nth_error_updateAt_other by congruence. reflexivity.
Qed.

End Pairwise.

Lemma NoDup_pairs_of (f : nat -> list nat) (l : list nat) :
  NoDup l -> (forall i, NoDup (f i)) ->
  NoDup (flat_map (fun i => map (pair i) (f i)) l).
Proof.
  intros Hl Hf. induction Hl as [|a l Ha Hl IH]; simpl.
  - constructor.
  - apply NoDup_app.
    + apply Finite.Injective_map_NoDup; [| apply Hf].
      intros b c E. now inversion E.
    + exact IH.
    + intros [i j] Hin Hin'.
      apply in_map_iff in Hin. destruct Hin as [j' [E _]].
      inversion E; subst.
      apply in_flat_map in Hin'. destruct Hin' as [i' [Hi' Hin']].
      apply in_map_iff in Hin'. destruct Hin' as [j'' [E' _]].
      inversion E'; subst. contradiction.
Qed.

Lemma NoDup_nonPhotonPairs (T : Type) (ps : list (Particle T)) :
  NoDup (nonPhotonPairs ps).
Proof.
  unfold nonPhotonPairs, pairsFrom.
  apply (NoDup_pairs_of
           (fun i => filter (nonPhotonAt ps)
                       (seq (i + 1) (length ps - (i + 1))))).
  - apply NoDup_filter, seq_NoDup.
  - intros i. apply NoDup_filter, seq_NoDup.
Qed.

(** C6. In the pairwise loop of [step], run on the particles [ps]:
    the loop runs its body once for every pair [i < j] of non-photons and
    for no other pair; and the body, for the pair [(i, j)] with force
    [calculateForce(particles[i], particles[j])], adds that force to
    [forces[i]] and adds its exact component-wise negation to [forces[j]]
    ([a - f] is [a + (-f)] in binary64), leaving every other entry alone. *)
Theorem pairwise_contributions_opposite
    (u : Universe float) (ps : list (Particle float)) :
  (forall forces,
      pairOuter u ps (seq 0 (length ps)) forces
      = fold_left (applyPair u ps) (nonPhotonPairs ps) forces) /\
  (forall i j,
      In (i, j) (nonPhotonPairs ps) <->
      i < j < length ps /\ nonPhotonAt ps i = true
      /\ nonPhotonAt ps j = true) /\
  NoDup (nonPhotonPairs ps) /\
  (forall forces i j pi pj fi fj,
      i <> j ->
      nth_error forces i = Some fi -> nth_error forces j = Some fj ->
      let force := calculateForce u pi pj in
      let forces' := accumulatePair u forces i j pi pj in
      nth_error forces' i = Some (plusForce force fi) /\
      nth_error forces' j = Some (plusForce (negForce force) fj) /\
      forall l, l <> i -> l <> j -> nth_error forces' l = nth_error forces l).
Proof.
  split; [| split; [| split]].
  - intros forces. rewrite pairOuter_fold. unfold nonPhotonPairs. reflexivity.
  - apply nonPhotonPairs_spec.
  - apply NoDup_nonPhotonPairs.
  - intros forces i j pi pj fi fj Hij Hi Hj force forces'.
    destruct (accumulatePair_spec u forces pi pj Hij Hi Hj)
      as [H1 [H2 H3]].
    split; [exact H1 | split; [| exact H3]].
    fold force in H2. fold forces' in H2. rewrite H2. f_equal.
    unfold minusForce, plusForce, negForce. simpl.
    now rewrite !Binary64.sub_is_add_opp.
Qed.

(** * Photon absorption *)

Section Absorption.

Context {T : Type} {N : JsNumber T}.
Variable M : JsMath T.
Variable u : Universe T.

Local Open Scope js_scope.

Lemma sameBody_refl (p : Particle T) : sameBody p p.
Proof. unfold sameBody. now destruct p. Qed.

Lemma sameBody_trans (p q r : Particle T) :
  sameBody p q -> sameBody q r -> sameBody p r.
Proof. unfold sameBody. intros -> ->. now destruct p. Qed.

Lemma moved_refl (p : Particle T) : moved u p p.
Proof. split; [apply sameBody_refl | split; reflexivity]. Qed.

Lemma sameBody_isPhoton (p q : Particle T) :
  sameBody p q -> isPhoton q = isPhoton p.
Proof. unfold sameBody. now intros ->. Qed.

Lemma moved_trans (p q r : Particle T) : moved u p q -> moved u q r -> moved u p r.
Proof.
  intros [B1 [P1 V1]] [B2 [P2 V2]]. split; [| split].
  - eapply sameBody_trans; eassumption.
  - intros Hp. rewrite (P1 Hp) in *. now apply P2.
  - intros H2D. now rewrite V2, V1.
Qed.

Lemma Forall2_moved_refl (ps : list (Particle T)) : Forall2 (moved u) ps ps.
Proof. induction ps; constructor; auto using moved_refl. Qed.

Lemma Forall2_moved_trans (ps qs rs : list (Particle T)) :
  Forall2 (moved u) ps qs -> Forall2 (moved u) qs rs -> Forall2 (moved u) ps rs.
Proof.
  intros H. revert rs. induction H as [|p q ps qs Hpq _ IH]; intros rs Hr.
  - inversion Hr. constructor.
  - inversion Hr; subst. constructor.
    + eapply moved_trans; eassumption.
    + now apply IH.
Qed.

Lemma collides_sameBody (photon p q : Particle T) :
  sameBody p q -> collides u photon q = collides u photon p.
Proof. unfold sameBody. now intros ->. Qed.

Lemma existsb_collides_moved (photon : Particle T)
    (ps qs : list (Particle T)) :
  Forall2 (moved u) ps qs ->
  existsb (collides u photon) qs = existsb (collides u photon) ps.
Proof.
  induction 1 as [|p q ps qs [Hb _] _ IH]; simpl.
  - reflexivity.
  - now rewrite IH, (collides_sameBody photon Hb).
Qed.

Lemma absorbed_moved (ps : list (Particle T)) (p q : Particle T) :
  moved u p q -> absorbed u ps q = absorbed u ps p.
Proof.
  intros [Hb [Hp _]]. unfold absorbed.
  rewrite (sameBody_isPhoton Hb).
  destruct (isPhoton p) eqn:E; [| reflexivity].
  now rewrite (Hp eq_refl).
Qed.

Lemma absorbPhoton_sameBody (photon electron : Particle T) (k : nat) :
  sameBody electron (fst (absorbPhoton M u photon electron k)).
Proof.
  unfold absorbPhoton, sameBody.
  destruct (_ >? ofZ 0); destruct (mode3D u); destruct electron; reflexivity.
Qed.

Lemma absorbPhoton_vz_2D (photon electron : Particle T) (k : nat) :
  mode3D u = false ->
  vz (fst (absorbPhoton M u photon electron k)) = vz electron.
Proof.
  intros H2D. unfold absorbPhoton. rewrite H2D.
  destruct (_ >? ofZ 0); reflexivity.
Qed.

(** The inner loop, when it leaves through [break], has updated the first
    electron within reach and nothing else. *)
Lemma absorbScan_Some (photon : Particle T) (ps ps' : list (Particle T))
    (k k' : nat) :
  absorbScan M u photon ps k = Some (ps', k') ->
  exists j e,
    nth_error ps j = Some e /\ collides u photon e = true /\
    (forall j' e', j' < j -> nth_error ps j' = Some e' ->
                   collides u photon e' = false) /\
    ps' = updateAt j (fun _ => fst (absorbPhoton M u photon e k)) ps /\
    k' = snd (absorbPhoton M u photon e k).
Proof.
  revert ps'. induction ps as [|p ps IH]; intros ps' H; simpl in H.
  - discriminate.
  - assert (Hrec :
      forall r, collides u photon p = false ->
        match absorbScan M u photon ps k with
        | Some (rest', k0) => Some (p :: rest', k0)
        | None => None
        end = Some (r, k') ->
        exists j e,
          nth_error (p :: ps) j = Some e /\ collides u photon e = true /\
          (forall j' e', j' < j -> nth_error (p :: ps) j' = Some e' ->
                         collides u photon e' = false) /\
          r = updateAt j (fun _ => fst (absorbPhoton M u photon e k)) (p :: ps)
          /\ k' = snd (absorbPhoton M u photon e k)).
    { intros r Hc Hr.
      destruct (absorbScan M u photon ps k) as [[rest' k0]|]; [| discriminate].
      inversion Hr; subst.
      destruct (IH _ eq_refl) as [j [e [Hj [He [Hfirst [Hupd Hk]]]]]].
      exists (S j), e. repeat split; simpl; try assumption.
      - intros [|j'] e' Hlt Hn; simpl in Hn.
        + now inversion Hn; subst.
        + apply (Hfirst j'); [lia | assumption].
      - now rewrite <- Hupd. }
    unfold collides, isElectron, withinReach in *.
    destruct ((charge p >=? ofZ 0) || isPhoton p) eqn:Hskip.
    + apply Hrec; [reflexivity | exact H].
    + destruct ((photonElectronDistance u photon p <? photonAbsorptionDistance u)
                && (age photon >=? photonMinAgeForAbsorption u)) eqn:Hreach.
      * destruct (absorbPhoton M u photon p k) as [e' k0] eqn:Ha.
        inversion H; subst.
        exists 0, p. simpl. rewrite Hskip, Hreach, Ha. simpl.
        repeat split; try reflexivity.
        intros j' e'0 Hlt. lia.
      * apply Hrec; [reflexivity | exact H].
Qed.

Lemma absorbScan_None (photon : Particle T) (ps : list (Particle T))
    (k : nat) :
  absorbScan M u photon ps k = None <-> existsb (collides u photon) ps = false.
Proof.
  induction ps as [|p ps IH]; simpl.
  - tauto.
  - unfold collides at 1, isElectron, withinReach.
    destruct ((charge p >=? ofZ 0) || isPhoton p); simpl.
    + destruct (absorbScan M u photon ps k) as [[rest' k0]|];
        split; intros H; try discriminate; try reflexivity;
        try (now apply IH); try (apply IH in H; discriminate).
    + destruct ((photonElectronDistance u photon p <? photonAbsorptionDistance u)
                && (age photon >=? photonMinAgeForAbsorption u)); simpl.
      * destruct (absorbPhoton M u photon p k). split; discriminate.
      * destruct (absorbScan M u photon ps k) as [[rest' k0]|];
          split; intros H; try discriminate; try reflexivity;
          try (now apply IH); try (apply IH in H; discriminate).
Qed.

End Absorption.

(** ** Removal by descending index *)

Section Splice.

Variable A : Type.

Lemma descBelow_mono (n m : nat) (idxs : list nat) :
  n <= m -> descBelow n idxs -> descBelow m idxs.
Proof. destruct idxs; simpl; intuition lia. Qed.

Lemma keepAt_app (keep : nat -> bool) (a : nat) (l1 l2 : list A) :
  keepAt keep a (l1 ++ l2)
  = keepAt keep a l1 ++ keepAt keep (a + length l1) l2.
Proof.
  revert a. induction l1 as [|b l1 IH]; intros a; simpl.
  - now rewrite Nat.add_0_r.
  - rewrite IH, <- plus_n_Sm. now destruct (keep a).
Qed.

Lemma splice1_last (l : list A) (b : A) : splice1 (length l) (l ++ [b]) = l.
Proof. induction l as [|c l IH]; simpl; [reflexivity | now rewrite IH]. Qed.

Lemma splice1_app (i : nat) (l t : list A) :
  i < length l -> splice1 i (l ++ t) = splice1 i l ++ t.
Proof.
  revert i. induction l as [|c l IH]; intros [|i] H; simpl in *;
    try lia; try reflexivity.
  rewrite IH by lia. reflexivity.
Qed.

Lemma length_splice1 (i : nat) (l : list A) :
  i < length l -> S (length (splice1 i l)) = length l.
Proof.
  revert i. induction l as [|c l IH]; intros [|i] H; simpl in *;
    try lia.
  rewrite IH by lia. reflexivity.
Qed.

Lemma fold_splice1_app (idxs : list nat) (l t : list A) :
  descBelow (length l) idxs ->
  fold_left (fun l i => splice1 i l) idxs (l ++ t)
  = fold_left (fun l i => splice1 i l) idxs l ++ t.
Proof.
  revert l. induction idxs as [|i idxs IH]; intros l H; simpl.
  - reflexivity.
  - destruct H as [Hi Hd].
    rewrite splice1_app by assumption. apply IH.
    apply descBelow_mono with (n := i); [| assumption].
    pose proof (length_splice1 l Hi). lia.
Qed.

Lemma descBelow_rev_filter (P : nat -> bool) (n : nat) :
  descBelow n (rev (filter P (seq 0 n))).
Proof.
  induction n as [|n IH].
  - exact I.
  - rewrite seq_S, filter_app, rev_app_distr. simpl.
    destruct (P n); simpl.
    + split; [lia | exact IH].
    + apply descBelow_mono with (n := n); [lia | exact IH].
Qed.

(** Splicing out, last first, the indices that satisfy [P] keeps exactly the
    elements whose index does not. *)
Lemma fold_splice1_filter (P : nat -> bool) (l : list A) :
  fold_left (fun l i => splice1 i l) (rev (filter P (seq 0 (length l)))) l
  = keepAt (fun i => negb (P i)) 0 l.
Proof.
  induction l as [|b l IH] using rev_ind.
  - reflexivity.
  - rewrite length_app. simpl. rewrite Nat.add_1_r.
    rewrite seq_S, filter_app, rev_app_distr, fold_left_app, keepAt_app.
    simpl.
    destruct (P (length l)); simpl.
    + rewrite splice1_last, IH, app_nil_r. reflexivity.
    + rewrite fold_splice1_app by apply descBelow_rev_filter.
      now rewrite IH.
Qed.

Lemma length_keepAt_filter (P : nat -> bool) (a : nat) (l : list A) :
  length (filter P (seq a (length l)))
  + length (keepAt (fun i => negb (P i)) a l)
  = length l.
Proof.
  revert a. induction l as [|b l IH]; intros a; simpl.
  - reflexivity.
  - specialize (IH (S a)). destruct (P a); simpl; lia.
Qed.

End Splice.

Lemma Forall2_nth_error_r (A B : Type) (R : A -> B -> Prop)
    (l : list A) (l' : list B) (i : nat) :
  Forall2 R l l' ->
  match nth_error l' i with
  | Some q => exists p, nth_error l i = Some p /\ R p q
  | None => nth_error l i = None
  end.
Proof.
  intros H. revert i. induction H as [|p q l l' Hpq _ IH]; intros [|i]; simpl;
    try reflexivity.
  - exists p. auto.
  - apply IH.
Qed.

Lemma keepAt_as_filter (A : Type) (keep : nat -> bool) (Q : A -> bool)
    (l : list A) :
  forall a,
    (forall j q, nth_error l j = Some q -> keep (a + j) = Q q) ->
    keepAt keep a l = filter Q l.
Proof.
  induction l as [|b l IH]; intros a H; simpl.
  - reflexivity.
  - rewrite <- (H 0 b eq_refl), Nat.add_0_r.
    rewrite (IH (S a)).
    + reflexivity.
    + intros j q Hj. rewrite <- (H (S j) q Hj). f_equal. lia.
Qed.

Section AbsorptionLoop.

Context {T : Type} {N : JsNumber T}.
Variable M : JsMath T.
Variable u : Universe T.

Local Open Scope js_scope.

Lemma Forall2_moved_updateAt (ps : list (Particle T)) (j : nat)
    (e e' : Particle T) :
  nth_error ps j = Some e -> moved u e e' ->
  Forall2 (moved u) ps (updateAt j (fun _ => e') ps).
Proof.
  revert j. induction ps as [|p ps IH]; intros [|j] Hj Hm; simpl in *;
    try discriminate.
  - inversion Hj; subst. constructor; [assumption | apply Forall2_moved_refl].
  - constructor; [apply moved_refl | now apply IH].
Qed.

Lemma absorbScan_moved (photon : Particle T) (ps ps' : list (Particle T))
    (k k' : nat) :
  absorbScan M u photon ps k = Some (ps', k') -> Forall2 (moved u) ps ps'.
Proof.
  intros H.
  destruct (absorbScan_Some _ _ _ _ _ H) as [j [e [Hj [Hc [_ [-> _]]]]]].
  apply Forall2_moved_updateAt with (e := e); [assumption |].
  split; [| split].
  - apply absorbPhoton_sameBody.
  - unfold collides, isElectron in Hc.
    destruct (isPhoton e); [| discriminate].
    rewrite orb_true_r in Hc. discriminate.
  - apply absorbPhoton_vz_2D.
Qed.

Lemma includes_false (l : list nat) (i : nat) :
  ~ In i l -> includes l i = false.
Proof.
  intros H. unfold includes.
  destruct (existsb (Nat.eqb i) l) eqn:E; [| reflexivity].
  apply existsb_exists in E. destruct E as [j [Hj Heq]].
  apply Nat.eqb_eq in Heq. subst. contradiction.
Qed.

(** The outer loop schedules exactly the indices of the photons that have an
    electron within reach, in increasing order, and changes the particles
    by velocity updates of non-photons only. *)
Lemma collisionLoop_spec (ps0 : list (Particle T)) (idxs : list nat) :
  forall ps rm k,
    Forall2 (moved u) ps0 ps -> NoDup idxs ->
    (forall i, In i idxs -> ~ In i rm) ->
    exists ps' k',
      collisionLoop M u idxs ps rm k
      = (ps', rm ++ filter (absorbedAt u ps0) idxs, k')
      /\ Forall2 (moved u) ps0 ps'.
Proof.
  induction idxs as [|i idxs IH]; intros ps rm k Hm Hnd Hrm; simpl.
  - exists ps, k. now rewrite app_nil_r.
  - inversion Hnd as [|? ? Hi Hnd']; subst.
    assert (Hrm' : forall i', In i' idxs -> ~ In i' rm).
    { intros i' Hi'. apply Hrm. now right. }
    pose proof (Forall2_nth_error_r i Hm) as Hnth.
    unfold absorbedAt at 1.
    destruct (nth_error ps i) as [photon|].
    + destruct Hnth as [p0 [Hp0 Hmv]]. rewrite Hp0.
      rewrite <- (absorbed_moved ps0 Hmv).
      unfold absorbed at 1.
      destruct (isPhoton photon) eqn:Hph; simpl.
      * rewrite <- (existsb_collides_moved photon Hm).
        destruct (absorbScan M u photon ps k) as [[ps1 k1]|] eqn:Hscan.
        -- assert (He : existsb (collides u photon) ps = true).
           { destruct (existsb (collides u photon) ps) eqn:E; [reflexivity |].
             apply (absorbScan_None M u photon ps k) in E. congruence. }
           rewrite He, includes_false by (apply Hrm; now left).
           destruct (IH ps1 (rm ++ [i]) k1) as [ps' [k' [Hloop Hm']]].
           ++ eapply Forall2_moved_trans; [exact Hm |].
              eapply absorbScan_moved; eassumption.
           ++ assumption.
           ++ intros i' Hi' Hin. apply in_app_or in Hin.
              destruct Hin as [Hin | [-> | []]].
              ** now apply (Hrm' i').
              ** contradiction.
           ++ exists ps', k'. rewrite Hloop, <- app_assoc. auto.
        -- apply (absorbScan_None M u photon ps k) in Hscan.
           rewrite Hscan. now apply IH.
      * now apply IH.
    + rewrite Hnth. now apply IH.
Qed.

(** Absorption as a whole: the particles after the call are the particles
    with some non-photon velocities changed, minus the absorbed photons. *)
Lemma handlePhotonElectronCollisions_spec (k : nat) :
  exists ps1 k',
    handlePhotonElectronCollisions M u k
    = (set_particles u
         (filter (fun p => negb (absorbed u (particles u) p)) ps1),
       length (filter (absorbedAt u (particles u))
                 (seq 0 (length (particles u)))),
       k')
    /\ Forall2 (moved u) (particles u) ps1.
Proof.
  unfold handlePhotonElectronCollisions.
  destruct (@collisionLoop_spec (particles u) (seq 0 (length (particles u)))
              (particles u) [] k)
    as [ps1 [k' [Hloop Hm]]].
  - apply Forall2_moved_refl.
  - apply seq_NoDup.
  - intros i _ [].
  - exists ps1, k'. rewrite Hloop. simpl. split; [| exact Hm].
    f_equal. f_equal. f_equal.
    assert (Hlen : length (particles u) = length ps1)
      by (eapply Forall2_length; eassumption).
    rewrite Hlen, fold_splice1_filter.
    apply keepAt_as_filter. intros j q Hj. simpl.
    pose proof (Forall2_nth_error_r j Hm) as Hnth. rewrite Hj in Hnth.
    destruct Hnth as [p [Hp Hmv]].
    unfold absorbedAt. rewrite Hp.
    now rewrite (absorbed_moved (particles u) Hmv).
Qed.

End AbsorptionLoop.

(** ** Absorption on binary64 numbers *)

Section AbsorptionBinary64.

Variable M : JsMath float.
Variable u : Universe float.

Local Open Scope js_scope.





End AbsorptionBinary64.

(** On the sample: the photon of age 100 is absorbed by the moving electron
    (kinetic energy 0.5 + 4, speed 3); the photon of age 0 stays, at
    distance 0 from two electrons. *)
Lemma handlePhotonElectronCollisions_sample :
  handlePhotonElectronCollisions Sample.math AbsorptionSample.crowd 0
  = (set_particles Sample.universe
       [AbsorptionSample.youngPhoton;
        set_vx AbsorptionSample.movingElectron (Sample.num 3);
        Sample.electron],
     1, 0).
Proof. vm_compute. reflexivity. Qed.


(** * Photon emission *)

Section EmissionCalls.

Context {T : Type} {N : JsNumber T}.
Variable M : JsMath T.
Variable config : PhotonEmissionConfig.

Local Open Scope js_scope.

(** [emissionCalls] lists the calls of the loop: the photons the loop
    buffers are the ones these calls return. *)
Lemma checkAndEmitPhotons_loop_calls (u : Universe T)
    (ps : list (Particle T)) :
  forall k,
    snd (fst (checkAndEmitPhotons_loop M config u ps k))
    = flat_map (pushedBy config u) (emissionCalls M config u ps k).
Proof.
  induction ps as [|p ps IH]; intros k; simpl.
  - reflexivity.
  - unfold checkAndEmitPhotons_body.
    destruct (emissionCall M config u p k) as [[[[[speed avx] avy] avz]|] k1].
    + destruct (managePhotonEmission config u p speed avx avy avz lit_0_9)
        as [p' photon] eqn:Hm.
      specialize (IH k1).
      destruct (checkAndEmitPhotons_loop M config u ps k1) as [[rest' nps] k2].
      simpl in *. rewrite Hm. simpl. rewrite IH.
      now destruct photon.
    + specialize (IH k1).
      destruct (checkAndEmitPhotons_loop M config u ps k1) as [[rest' nps] k2].
      simpl in *. exact IH.
Qed.

Lemma isElectron_sameBody (p q : Particle T) :
  sameBody p q -> isElectron q = isElectron p.
Proof. unfold sameBody. now intros ->. Qed.

(** The arguments of a call are the electron's velocity over the active axes
    and the norm of that velocity. *)
Lemma emissionCall_args (u : Universe T) (p : Particle T) (k k' : nat)
    (speed avx avy avz : T) :
  emissionCall M config u p k = (Some (speed, avx, avy, avz), k') ->
  avx = vx p /\ avy = vy p /\
  avz = (if mode3D u then vz p else ofZ 0) /\
  speed = Math_sqrt (avx * avx + avy * avy + avz * avz).
Proof.
  unfold emissionCall.
  destruct ((charge p >=? ofZ 0) || isPhoton p); [discriminate |].
  destruct (onePhotonPerElectron config && hasEmittedPhoton p);
    [discriminate |].
  destruct (shouldEmitPhoton M u p k) as [[|] k1]; [| discriminate].
  intros H. injection H as <- <- <- <- <-. auto.
Qed.

(** The photon of an emission, for every number instance: where it is, what
    it is, its energy and the velocity the code computes for it. *)
Lemma managePhotonEmission_photon (u : Universe T) (p : Particle T)
    (speed avx avy avz r : T) :
  enabled config = true ->
  let speedReductionFactor := ofZ 1 / Math_sqrt (ofZ 1 - r) in
  let newSpeed := speed / speedReductionFactor in
  exists photon,
    snd (managePhotonEmission config u p speed avx avy avz r) = Some photon
    /\ (x photon = x p /\ y photon = y p /\ z photon = z p)
    /\ (charge photon = ofZ 0 /\ mass photon = ofZ 0 /\ age photon = ofZ 0)
    /\ (isPhoton photon = true /\ fixed photon = false)
    /\ energy photon = r * (lit_0_5 * electronMass u * speed * speed)
    /\ vx photon = avx / speed * newSpeed
    /\ vy photon = avy / speed * newSpeed
    /\ vz photon = (if mode3D u then avz / speed * newSpeed else ofZ 0).
Proof.
  intros Hen. cbv zeta. unfold managePhotonEmission. rewrite Hen.
  eexists. split; [reflexivity |].
  destruct (mode3D u); simpl; repeat split; reflexivity.
Qed.

End EmissionCalls.


Section EmissionBinary64.

Variable M : JsMath float.
Variable config : PhotonEmissionConfig.

Local Open Scope js_scope.





End EmissionBinary64.

(** ** The emission call, as computed *)

Section EmissionComputed.

Context {T : Type} {N : JsNumber T}.
Variable config : PhotonEmissionConfig.

Local Open Scope js_scope.

(** What [managePhotonEmission] computes with the ratio 0.9, at every number
    instance. *)
Lemma managePhotonEmission_computes (u : Universe T) (p : Particle T)
    (speed avx avy avz : T) :
  enabled config = true ->
  let factor := ofZ 1 / Math_sqrt (ofZ 1 - lit_0_9) in
  let result := managePhotonEmission config u p speed avx avy avz lit_0_9 in
  let p' := fst result in
  exists photon,
    snd result = Some photon /\
    energy photon = lit_0_9 * (lit_0_5 * electronMass u * speed * speed) /\
    vx p' = vx p / factor /\ vy p' = vy p / factor /\
    vz p' = (if mode3D u then vz p / factor else vz p) /\
    hasEmittedPhoton p' = true /\
    (x photon = x p /\ y photon = y p /\ z photon = z p) /\
    (vx photon = avx / speed * (speed / factor) /\
     vy photon = avy / speed * (speed / factor) /\
     vz photon = (if mode3D u then avz / speed * (speed / factor)
                  else ofZ 0)) /\
    charge photon = ofZ 0 /\ mass photon = ofZ 0 /\ age photon = ofZ 0 /\
    isPhoton photon = true.
Proof.
  intros Hen. cbv zeta. unfold managePhotonEmission. rewrite Hen.
  cbn [fst snd]. eexists. split; [reflexivity |].
  destruct (mode3D u); cbn; repeat split; reflexivity.
Qed.

End EmissionComputed.

(** ** Emission in exact arithmetic *)

Section EmissionExact.

Variable config : PhotonEmissionConfig.

Local Open Scope R_scope.

Lemma scale_pos : 0 < scale.
Proof. apply sqrt_lt_R0. lra. Qed.

Lemma div_reduction_factor (a : R) : a / (1 / scale) = a * scale.
Proof. pose proof scale_pos. field. lra. Qed.

Lemma sqrt_scaled (a b c : R) :
  R_sqrt.sqrt (a * scale * (a * scale) + b * scale * (b * scale)
        + c * scale * (c * scale))
  = R_sqrt.sqrt (a * a + b * b + c * c) * scale.
Proof.
  replace (a * scale * (a * scale) + b * scale * (b * scale)
           + c * scale * (c * scale))
    with ((a * a + b * b + c * c) * (scale * scale)) by ring.
  rewrite sqrt_mult_alt by nra.
  rewrite sqrt_square by (pose proof scale_pos; lra).
  reflexivity.
Qed.

(** In exact arithmetic, for the call
    [managePhotonEmission(particle, speed, vx, vy, vz)] that
    [checkAndEmitPhotons] makes ([speed] the speed over the active axes,
    nonzero): the division by [1 / sqrt(1 - 0.9)] is the scaling by
    [sqrt(1 - 0.9)], the electron's speed over the active axes becomes
    [speed * sqrt(1 - 0.9)], and the photon's velocity on the active axes
    is the electron's new velocity. *)
Lemma managePhotonEmission_exact (u : Universe R) (p : Particle R) :
  enabled config = true ->
  0 < activeSpeed u p ->
  let speed := activeSpeed u p in
  let result :=
    managePhotonEmission config u p speed (vx p) (vy p) (activeVz u p)
      lit_0_9 in
  let p' := fst result in
  exists photon,
    snd result = Some photon /\
    energy photon = 9 / 10 * (1 / 2 * electronMass u * speed * speed) /\
    vx p' = vx p * scale /\ vy p' = vy p * scale /\
    vz p' = (if mode3D u then vz p * scale else vz p) /\
    activeSpeed u p' = speed * scale /\
    hasEmittedPhoton p' = true /\
    (x photon = x p /\ y photon = y p /\ z photon = z p) /\
    (vx photon = vx p' /\ vy photon = vy p' /\ vz photon = activeVz u p') /\
    charge photon = 0 /\ mass photon = 0 /\ age photon = 0 /\
    isPhoton photon = true.
Proof.
  intros Hen Hpos speed result p'. subst p' result speed.
  unfold managePhotonEmission. rewrite Hen.
  cbn [fst snd]. eexists. split; [reflexivity |].
  unfold lit_0_9, lit_0_5.
  cbn [add sub mul div neg Math_sqrt ofZ R_JsNumber].
  fold scale.
  destruct (mode3D u) eqn:H3D;
    cbn [x y z vx vy vz energy charge mass age isPhoton hasEmittedPhoton
         newParticle set_vx set_vy set_vz set_hasEmittedPhoton];
    unfold activeSpeed, activeVz in *; rewrite ?H3D in *;
    cbn [x y z vx vy vz energy charge mass age isPhoton hasEmittedPhoton
         newParticle set_vx set_vy set_vz set_hasEmittedPhoton];
    rewrite ?div_reduction_factor.
  - repeat split; try reflexivity; try lra; try (field; lra).
    apply sqrt_scaled.
  - repeat split; try reflexivity; try lra; try (field; lra).
    rewrite <- (sqrt_scaled (vx p) (vy p) 0). f_equal. ring.
Qed.

(** C2 (amended). On photon emission with the fixed ratio 0.9, photons
    enabled.  At every number instance, binary64 included, whatever the
    arguments [(speed, vx, vy, vz)] of the call: the photon's energy is
    [0.9 * (0.5 * m_e * speed * speed)]; the electron's [vx] and [vy], and
    its [vz] in 3D mode only, are divided by [f = 1 / sqrt(1 - 0.9)], its
    [vz] being left as it is in 2D mode; [hasEmittedPhoton] is set; the
    photon is at the electron's position, with charge 0, mass 0, age 0 and
    the velocity components [(v / speed) * (speed / f)] on the active axes,
    [vz = 0] in 2D mode.  In exact arithmetic, for the call that
    [checkAndEmitPhotons] makes ([speed] the speed over the active axes,
    nonzero): the electron's active components are scaled by
    [sqrt(1 - 0.9)], its speed over the active axes becomes
    [speed * sqrt(1 - 0.9)], and the photon's velocity on the active axes
    is the electron's new velocity. *)
Theorem managePhotonEmission_emits :
  enabled config = true ->
  (forall (T : Type) (N : JsNumber T) (u : Universe T) (p : Particle T)
          (speed avx avy avz : T),
     let factor := (ofZ 1 / Math_sqrt (ofZ 1 - lit_0_9))%js in
     let result :=
       managePhotonEmission config u p speed avx avy avz lit_0_9 in
     let p' := fst result in
     exists photon,
       snd result = Some photon /\
       energy photon
       = (lit_0_9 * (lit_0_5 * electronMass u * speed * speed))%js /\
       vx p' = (vx p / factor)%js /\ vy p' = (vy p / factor)%js /\
       vz p' = (if mode3D u then vz p / factor else vz p)%js /\
       hasEmittedPhoton p' = true /\
       (x photon = x p /\ y photon = y p /\ z photon = z p) /\
       (vx photon = (avx / speed * (speed / factor))%js /\
        vy photon = (avy / speed * (speed / factor))%js /\
        vz photon = (if mode3D u then avz / speed * (speed / factor)
                     else ofZ 0)%js) /\
       charge photon = ofZ 0 /\ mass photon = ofZ 0 /\ age photon = ofZ 0 /\
       isPhoton photon = true) /\
  (forall (u : Universe R) (p : Particle R),
     0 < activeSpeed u p ->
     let speed := activeSpeed u p in
     let result :=
       managePhotonEmission config u p speed (vx p) (vy p) (activeVz u p)
         lit_0_9 in
     let p' := fst result in
     exists photon,
       snd result = Some photon /\
       energy photon = 9 / 10 * (1 / 2 * electronMass u * speed * speed) /\
       vx p' = vx p * scale /\ vy p' = vy p * scale /\
       vz p' = (if mode3D u then vz p * scale else vz p) /\
       activeSpeed u p' = speed * scale /\
       hasEmittedPhoton p' = true /\
       (x photon = x p /\ y photon = y p /\ z photon = z p) /\
       (vx photon = vx p' /\ vy photon = vy p' /\
        vz photon = activeVz u p') /\
       charge photon = 0 /\ mass photon = 0 /\ age photon = 0 /\
       isPhoton photon = true)%R.
Proof.
  intros Hen. split.
  - intros T N u p speed avx avy avz.
    now apply managePhotonEmission_computes.
  - intros u p Hpos. now apply managePhotonEmission_exact.
Qed.

End EmissionExact.

(** * The shape of a step *)

Section StepShape.

Context {T : Type} {N : JsNumber T}.
Variable M : JsMath T.
Variable config : PhotonEmissionConfig.

Local Open Scope js_scope.

Lemma sameSettings_refl (u : Universe T) : sameSettings u u.
Proof. unfold sameSettings. now destruct u. Qed.

Lemma sameSettings_set (u : Universe T) (ps : list (Particle T)) :
  sameSettings u (set_particles u ps).
Proof. reflexivity. Qed.

Lemma sameSettings_trans (u u' u'' : Universe T) :
  sameSettings u u' -> sameSettings u' u'' -> sameSettings u u''.
Proof. unfold sameSettings. intros -> ->. reflexivity. Qed.

Lemma updateParticleMotion_settings (u u' : Universe T) (p : Particle T)
    (forceX forceY forceZ : T) :
  sameSettings u u' ->
  updateParticleMotion u' p forceX forceY forceZ
  = updateParticleMotion u p forceX forceY forceZ.
Proof. unfold sameSettings. intros ->. reflexivity. Qed.

Lemma handlePhotonElectronCollisions_settings (u : Universe T) (k : nat) :
  sameSettings u (fst (fst (handlePhotonElectronCollisions M u k))).
Proof.
  unfold handlePhotonElectronCollisions.
  destruct (collisionLoop M u _ _ _ k) as [[ps rm] k']. reflexivity.
Qed.

Lemma checkAndEmitPhotons_settings (u : Universe T) (k : nat) :
  sameSettings u (fst (checkAndEmitPhotons M config u k)).
Proof.
  unfold checkAndEmitPhotons.
  destruct (checkAndEmitPhotons_loop M config u _ k) as [[ps nps] k'].
  reflexivity.
Qed.

Lemma length_pairInner (u : Universe T) (ps : list (Particle T)) (i : nat)
    (pi : Particle T) (js : list nat) :
  forall forces, length (pairInner u ps i pi js forces) = length forces.
Proof.
  induction js as [|j js IH]; intros forces; simpl.
  - reflexivity.
  - destruct (nth_error ps j) as [pj|]; [| apply IH].
    destruct (isPhoton pj); [apply IH |].
    rewrite IH. unfold accumulatePair. now rewrite !length_updateAt.
Qed.

Lemma length_pairOuter (u : Universe T) (ps : list (Particle T))
    (idxs : list nat) :
  forall forces, length (pairOuter u ps idxs forces) = length forces.
Proof.
  induction idxs as [|i idxs IH]; intros forces; simpl.
  - reflexivity.
  - destruct (nth_error ps i) as [pi|]; [| apply IH].
    destruct (isPhoton pi); [apply IH |].
    now rewrite IH, length_pairInner.
Qed.

Lemma length_addFieldForce (field : Particle T -> Force T)
    (ps : list (Particle T)) :
  forall forces, length (addFieldForce field ps forces) = length forces.
Proof.
  induction ps as [|p ps IH]; intros [|f forces]; simpl; auto.
Qed.

Lemma length_accumulateForces (u : Universe T) (ps : list (Particle T)) :
  length (accumulateForces u ps) = length ps.
Proof.
  unfold accumulateForces.
  destruct (groundGravityEnabled u), (gravityEnabled u);
    rewrite ?length_addFieldForce, length_pairOuter; apply length_map.
Qed.


(** Every particle the last loop of [step] produces is
    [updateParticleMotion] of the particle in its place. *)
Lemma moveAll_In (u : Universe T) (ps : list (Particle T)) :
  forall forces q,
    length forces = length ps ->
    In q (moveAll u ps forces) ->
    exists p f,
      In p ps /\ q = updateParticleMotion u p (fx f) (fy f) (fz f).
Proof.
  induction ps as [|p ps IH]; intros [|f forces] q Hlen Hin; simpl in *;
    try contradiction; try discriminate.
  destruct Hin as [<- | Hin].
  - exists p, f. auto.
  - destruct (IH forces q) as [p0 [f0 [Hp0 Hq]]]; [lia | assumption |].
    exists p0, f0. auto.
Qed.

Lemma step_settings (u : Universe T) (k : nat) :
  sameSettings u (fst (step M config u k)).
Proof.
  unfold step.
  pose proof (handlePhotonElectronCollisions_settings u (S k)) as H1.
  destruct (handlePhotonElectronCollisions M u (S k)) as [[u1 n] k1].
  pose proof (checkAndEmitPhotons_settings u1 k1) as H2.
  destruct (checkAndEmitPhotons M config u1 k1) as [u2 k2].
  simpl in *.
  eapply sameSettings_trans; [exact H1 |].
  eapply sameSettings_trans; [exact H2 |]. apply sameSettings_set.
Qed.

Lemma step_In (u : Universe T) (k : nat) (q : Particle T) :
  In q (particles (fst (step M config u k))) ->
  exists p f,
    In p (beforeMotion M config u k)
    /\ q = updateParticleMotion u p (fx f) (fy f) (fz f).
Proof.
  unfold step, beforeMotion.
  pose proof (handlePhotonElectronCollisions_settings u (S k)) as H1.
  destruct (handlePhotonElectronCollisions M u (S k)) as [[u1 n] k1].
  pose proof (checkAndEmitPhotons_settings u1 k1) as H2.
  destruct (checkAndEmitPhotons M config u1 k1) as [u2 k2].
  simpl in *. intros Hin.
  apply moveAll_In in Hin; [| apply length_accumulateForces].
  destruct Hin as [p [f [Hp Hq]]]. exists p, f. split; [exact Hp |].
  rewrite Hq. apply updateParticleMotion_settings.
  eapply sameSettings_trans; eassumption.
Qed.


End StepShape.

(** * Emission disabled *)

Section EmissionDisabled.

Context {T : Type} {N : JsNumber T}.
Variable M : JsMath T.

Local Open Scope js_scope.


Lemma managePhotonEmission_disabled (config : PhotonEmissionConfig)
    (u : Universe T) (p : Particle T) (speed avx avy avz r : T) :
  enabled config = false ->
  snd (managePhotonEmission config u p speed avx avy avz r) = None.
Proof. unfold managePhotonEmission. now intros ->. Qed.




Lemma checkAndEmitPhotons_loop_disabled (config : PhotonEmissionConfig)
    (u : Universe T) (ps : list (Particle T)) :
  enabled config = false ->
  forall k, snd (fst (checkAndEmitPhotons_loop M config u ps k)) = [].
Proof.
  intros Hoff k. rewrite checkAndEmitPhotons_loop_calls.
  induction (emissionCalls M config u ps k)
    as [|[p [[[speed avx] avy] avz]] calls IH]; simpl.
  - reflexivity.
  - now rewrite managePhotonEmission_disabled.
Qed.



End EmissionDisabled.

Section StepWithoutEmission.

Context {T : Type} {N : JsNumber T}.
Variable M : JsMath T.

Local Open Scope js_scope.


End StepWithoutEmission.

(** ** Emission on binary64 numbers *)

(** The claim C2 as stated does not hold: in 2D mode the emitting electron's
    [vz] is not scaled (it stays 1), and the photon moves in the plane, not
    in the electron's direction. *)
Lemma managePhotonEmission_2D_keeps_vz :
  let result :=
    checkAndEmitPhotons_body Sample.math Sample.emissionOn Sample.universe
      EmissionSample.tiltedElectron 0 in
  let p' := fst (fst result) in
  hasEmittedPhoton p' = true /\
  vz p' = Sample.num 1 /\
  PrimFloat.eqb (vz p')
    (vz EmissionSample.tiltedElectron * EmissionSample.scale64)%js = false /\
  exists photon,
    snd (fst result) = Some photon /\ vz photon = Sample.num 0.
Proof.
  vm_compute. repeat split. eexists. split; reflexivity.
Qed.



(** The electron of [EmissionSample.fast] does pass the test during the
    step, with either configuration. *)
Lemma stepEmissionCalls_sample :
  stepEmissionCalls Sample.math Sample.emissionOff EmissionSample.fast 0
  = [(EmissionSample.fastElectron,
      (Sample.num 100, Sample.num 100, Sample.num 0, Sample.num 0))].
Proof. vm_compute. reflexivity. Qed.

(** With emission enabled the step appends the photon; disabled, it does
    not, and the electron ends in the same state. *)
Example step_sample_emission :
  let on := fst (step Sample.math Sample.emissionOn EmissionSample.fast 0) in
  let off := fst (step Sample.math Sample.emissionOff EmissionSample.fast 0) in
  length (particles on) = 2 /\ length (particles off) = 1
  /\ nth_error (particles on) 0 = nth_error (particles off) 0
  /\ option_map (@isPhoton float) (nth_error (particles on) 1) = Some true.
Proof. vm_compute. repeat split. Qed.

(** Without the precondition on [vz] the speed passed on can be [0]:
    [shouldEmitPhoton] sees the speed 100 along z, the call receives the
    speed over x and y, and the photon's velocity is [0 / 0]. *)
Example emission_speed_zero_when_vz_nonzero :
  stepEmissionCalls Sample.math Sample.emissionOn EmissionSample.vertical 0
  = [(EmissionSample.verticalElectron,
      (Sample.num 0, Sample.num 0, Sample.num 0, Sample.num 0))]
  /\ option_map (fun photon => Number.isNaN (vx photon))
       (snd (managePhotonEmission Sample.emissionOn EmissionSample.vertical
               EmissionSample.verticalElectron
               (Sample.num 0) (Sample.num 0) (Sample.num 0) (Sample.num 0)
               lit_0_9))
     = Some true.
Proof. vm_compute. split; reflexivity. Qed.


(** * Boundary handling *)

Section Boundary.

Context {T : Type} {N : JsNumber T}.
Local Open Scope js_scope.

Lemma clampPosition_spec (u : Universe T) (p : Particle T) :
  clampPosition u p
  = (set_z (set_y (set_x p (clampCoordinate u (x p)))
                  (clampCoordinate u (y p)))
           (if mode3D u then clampCoordinate u (z p) else z p),
     outOfBounds u p).
Proof.
  unfold clampPosition, outOfBounds, clampCoordinate.
  destruct p as [px py pz pvx pvy pvz]; simpl.
  destruct (px <? ofZ 0); [| destruct (px >? size u)]; simpl;
    (destruct (py <? ofZ 0); [| destruct (py >? size u)]; simpl;
     (destruct (mode3D u);
      [destruct (pz <? ofZ 0); [| destruct (pz >? size u)] |];
      reflexivity)).
Qed.

Lemma reflectPhoton_spec (u : Universe T) (p : Particle T) :
  reflectPhoton u p
  = set_vz
      (set_z
         (set_vy
            (set_y
               (set_vx (set_x p (reflectCoordinate u (x p)))
                  (reflectVelocity u (x p) (vx p)))
               (reflectCoordinate u (y p)))
            (reflectVelocity u (y p) (vy p)))
         (if mode3D u then reflectCoordinate u (z p) else z p))
      (if mode3D u then reflectVelocity u (z p) (vz p) else vz p).
Proof.
  unfold reflectPhoton, reflectCoordinate, reflectVelocity.
  destruct p as [px py pz pvx pvy pvz]; simpl.
  destruct (px <? ofZ 0); [| destruct (px >? size u)]; simpl;
    (destruct (py <? ofZ 0); [| destruct (py >? size u)]; simpl;
     (destruct (mode3D u);
      [destruct (pz <? ofZ 0); [| destruct (pz >? size u)] |];
      reflexivity)).
Qed.

Lemma applyBoundaryConditions_nonPhoton (u : Universe T) (p : Particle T) :
  isPhoton p = false ->
  let clamped :=
    set_z (set_y (set_x p (clampCoordinate u (x p)))
                 (clampCoordinate u (y p)))
          (if mode3D u then clampCoordinate u (z p) else z p) in
  applyBoundaryConditions u p
  = if outOfBounds u p then stopParticle u clamped else clamped.
Proof.
  intros Hph. unfold applyBoundaryConditions.
  now rewrite Hph, clampPosition_spec.
Qed.

(** What the integrator's skip tests read is left alone by the whole of
    [updateParticleMotion]. *)
Lemma updateParticleMotion_kind (u : Universe T) (p : Particle T)
    (forceX forceY forceZ : T) :
  let q := updateParticleMotion u p forceX forceY forceZ in
  isPhoton q = isPhoton p /\ fixed q = fixed p /\ charge q = charge p.
Proof.
  assert (Hb : forall a : Particle T,
             isPhoton (applyBoundaryConditions u a) = isPhoton a
             /\ fixed (applyBoundaryConditions u a) = fixed a
             /\ charge (applyBoundaryConditions u a) = charge a).
  { intros a. unfold applyBoundaryConditions.
    rewrite clampPosition_spec, reflectPhoton_spec. unfold stopParticle.
    destruct (isPhoton a) eqn:E, (outOfBounds u a), (mode3D u); simpl;
      rewrite ?E; auto. }
  cbv zeta. unfold updateParticleMotion.
  destruct (isPhoton p) eqn:Hph.
  - destruct (Hb (advancePhoton u p)) as [H1 [H2 H3]].
    rewrite H1, H2, H3. unfold advancePhoton.
    destruct (mode3D u); simpl; auto.
  - simpl. destruct (fixed p) eqn:Hf; [simpl; auto |].
    destruct (staticProtons u && (charge p >? ofZ 0)); [simpl; auto |].
    match goal with
    | |- context [applyBoundaryConditions u ?a] =>
        destruct (Hb a) as [H1 [H2 H3]]
    end.
    rewrite H1, H2, H3. unfold integrate.
    destruct (mode3D u); simpl; auto.
Qed.

Lemma updateParticleMotion_movable (u : Universe T) (p : Particle T)
    (forceX forceY forceZ : T) :
  isPhoton p = false -> fixed p = false ->
  staticProtons u && (charge p >? ofZ 0) = false ->
  updateParticleMotion u p forceX forceY forceZ
  = applyBoundaryConditions u
      (integrate u (set_forceElectro p forceX forceY forceZ)
         forceX forceY forceZ).
Proof.
  intros Hph Hf Hs. unfold updateParticleMotion.
  rewrite Hph. simpl. now rewrite Hf, Hs.
Qed.

Lemma integrate_isPhoton (u : Universe T) (p : Particle T)
    (forceX forceY forceZ : T) :
  isPhoton (integrate u p forceX forceY forceZ) = isPhoton p.
Proof. unfold integrate. destruct (mode3D u); reflexivity. Qed.

(** Clamp-and-stop: a non-photon out of bounds on an active axis leaves the
    boundary handler with zero velocity and acceleration on the active
    axes. *)
Lemma applyBoundaryConditions_stops (u : Universe T) (p : Particle T) :
  isPhoton p = false -> outOfBounds u p = true ->
  let q := applyBoundaryConditions u p in
  vx q = ofZ 0 /\ vy q = ofZ 0 /\
  accelerationX q = ofZ 0 /\ accelerationY q = ofZ 0 /\
  (if mode3D u then vz q = ofZ 0 /\ accelerationZ q = ofZ 0
   else vz q = vz p /\ accelerationZ q = accelerationZ p).
Proof.
  intros Hph Hout. cbv zeta.
  rewrite (applyBoundaryConditions_nonPhoton u p Hph), Hout.
  unfold stopParticle. destruct (mode3D u); simpl; repeat split; reflexivity.
Qed.

Lemma applyBoundaryConditions_position (u : Universe T) (p : Particle T) :
  isPhoton p = false ->
  let q := applyBoundaryConditions u p in
  x q = clampCoordinate u (x p) /\ y q = clampCoordinate u (y p) /\
  z q = (if mode3D u then clampCoordinate u (z p) else z p).
Proof.
  intros Hph. cbv zeta.
  rewrite (applyBoundaryConditions_nonPhoton u p Hph).
  unfold stopParticle.
  destruct (outOfBounds u p), (mode3D u); simpl; auto.
Qed.

End Boundary.

Section ClampBinary64.

Variable M : JsMath float.
Variable config : PhotonEmissionConfig.

Local Open Scope js_scope.

Lemma clampCoordinate_inDomain (u : Universe float) (c : float) :
  (ofZ 0 <=? size u) = true ->
  Number.isNaN (clampCoordinate u c) = false ->
  inDomain u (clampCoordinate u c).
Proof.
  intros Hsize. unfold clampCoordinate, inDomain.
  cbn [ltb leb ofZ float_JsNumber float_ofZ] in *.
  pose proof (Binary64.leb_true_numbers Hsize) as [_ Hs].
  destruct (PrimFloat.ltb c PrimFloat.zero) eqn:Hlo.
  - intros _. split; [reflexivity | exact Hsize].
  - destruct (PrimFloat.ltb (size u) c) eqn:Hhi.
    + intros _. split; [exact Hsize | now apply Binary64.leb_refl].
    + intros Hc. split; now apply Binary64.not_ltb_geb.
Qed.

(** C4 (amended). With [0 <= size]: after [step()], every non-photon
    particle that the integrator moves (not [fixed], and not of charge
    [> 0] while [staticProtons] is on) has each coordinate of an active axis
    ([x], [y], and [z] in 3D mode) in [[0, size]], unless that coordinate
    is NaN; and if its position after the Euler update was out of bounds on
    an active axis, its velocity on every active axis is exactly [0] after
    the step. *)
Theorem step_clamps_moved_particles (u : Universe float) (k : nat)
    (q : Particle float) :
  (ofZ 0 <=? size u) = true ->
  In q (particles (fst (step M config u k))) ->
  isPhoton q = false -> fixed q = false ->
  staticProtons u && (charge q >? ofZ 0) = false ->
  (Number.isNaN (x q) = false -> inDomain u (x q)) /\
  (Number.isNaN (y q) = false -> inDomain u (y q)) /\
  (mode3D u = true -> Number.isNaN (z q) = false -> inDomain u (z q)) /\
  exists p f,
    In p (beforeMotion M config u k) /\
    q = updateParticleMotion u p (fx f) (fy f) (fz f) /\
    (outOfBounds u
       (integrate u (set_forceElectro p (fx f) (fy f) (fz f))
          (fx f) (fy f) (fz f)) = true ->
     vx q = ofZ 0 /\ vy q = ofZ 0 /\ (mode3D u = true -> vz q = ofZ 0)).
Proof.
  intros Hsize Hin Hph Hfix Hstatic.
  destruct (step_In M config u k q Hin) as [p [f [Hp Hq]]].
  destruct (updateParticleMotion_kind u p (fx f) (fy f) (fz f))
    as [K1 [K2 K3]].
  rewrite <- Hq in K1, K2, K3.
  rewrite K1 in Hph. rewrite K2 in Hfix. rewrite K3 in Hstatic.
  rewrite (updateParticleMotion_movable u p (fx f) (fy f) (fz f)
             Hph Hfix Hstatic) in Hq.
  set (p1 := integrate u (set_forceElectro p (fx f) (fy f) (fz f))
               (fx f) (fy f) (fz f)) in *.
  assert (Hph1 : isPhoton p1 = false)
    by (unfold p1; now rewrite integrate_isPhoton).
  destruct (applyBoundaryConditions_position u p1 Hph1) as [Px [Py Pz]].
  rewrite <- Hq in Px, Py, Pz.
  split; [| split; [| split]].
  - rewrite Px. now apply clampCoordinate_inDomain.
  - rewrite Py. now apply clampCoordinate_inDomain.
  - intros H3D. rewrite Pz, H3D. now apply clampCoordinate_inDomain.
  - exists p, f. split; [exact Hp |]. split.
    + rewrite Hq.
      symmetry. now apply updateParticleMotion_movable.
    + intros Hout.
      pose proof (applyBoundaryConditions_stops u p1 Hph1 Hout) as Hstop.
      cbv zeta in Hstop. rewrite <- Hq in Hstop.
      destruct Hstop as [Vx [Vy [_ [_ Vz]]]].
      split; [exact Vx | split; [exact Vy |]].
      intros H3D. rewrite H3D in Vz. apply Vz.
Qed.

End ClampBinary64.

(** The claim C4 as stated does not hold: a proton that is not [fixed] but
    static is not moved, hence not clamped; in 2D mode a particle stopped
    at the wall keeps its [vz]; and two electrons at the same place get the
    force [0 / 0], which no comparison clamps. *)
Lemma step_leaves_static_proton_outside :
  (exists q,
      particles (fst (step Sample.math Sample.emissionOff ClampSample.stray 0))
      = [q]
      /\ isPhoton q = false /\ fixed q = false
      /\ (x q <=? size ClampSample.stray)%js = false) /\
  (exists q,
      particles
        (fst (step Sample.math Sample.emissionOff ClampSample.escaping 0))
      = [q]
      /\ isPhoton q = false /\ fixed q = false
      /\ x q = size ClampSample.escaping
      /\ vx q = Sample.num 0
      /\ PrimFloat.eqb (vz q) (Sample.num 0) = false) /\
  (exists q q',
      particles
        (fst (step Sample.math Sample.emissionOff ClampSample.twins 0))
      = [q; q']
      /\ isPhoton q = false /\ fixed q = false
      /\ Number.isNaN (x q) = true).
Proof.
  split; [| split]; repeat eexists; vm_compute; repeat split.
Qed.

Lemma step_clamps_moved_particles_witness :
  let q :=
    set_accelerationX
      (set_vx (set_x ClampSample.escapingElectron (Sample.num 1))
         (Sample.num 0))
      (Sample.num 0) in
  (Number.isNaN (x q) = false -> inDomain ClampSample.escaping (x q)) /\
  (Number.isNaN (y q) = false -> inDomain ClampSample.escaping (y q)).
Proof.
  cbv zeta.
  destruct (@step_clamps_moved_particles Sample.math Sample.emissionOff
              ClampSample.escaping 0
              (set_accelerationX
                 (set_vx (set_x ClampSample.escapingElectron (Sample.num 1))
                    (Sample.num 0))
                 (Sample.num 0)))
    as [Hx [Hy _]].
  - reflexivity.
  - vm_compute. left. reflexivity.
  - reflexivity.
  - reflexivity.
  - reflexivity.
  - split; assumption.
Defined.

(** ** Reflection of photons *)

Section ReflectBinary64.

Local Open Scope js_scope.

Lemma reflectVelocity_square (u : Universe float) (c v : float) :
  reflectVelocity u c v * reflectVelocity u c v = v * v.
Proof.
  unfold reflectVelocity.
  destruct (c <? ofZ 0); [apply Binary64.mul_opp_opp |].
  destruct (c >? size u); [apply Binary64.mul_opp_opp | reflexivity].
Qed.

(** In binary64 too, reflection leaves [|v|] as it is, bit for bit. *)
Lemma reflectPhoton_speed_binary64 (u : Universe float) (p : Particle float) :
  let q := reflectPhoton u p in
  Math_sqrt (vx q * vx q + vy q * vy q + vz q * vz q)
  = Math_sqrt (vx p * vx p + vy p * vy p + vz p * vz p).
Proof.
  cbv zeta. rewrite reflectPhoton_spec.
  destruct (mode3D u); simpl; now rewrite !reflectVelocity_square.
Qed.

End ReflectBinary64.

Section ReflectExact.

Variable M : JsMath R.
Variable config : PhotonEmissionConfig.

Local Open Scope R_scope.

Lemma reflectCoordinate_exact (u : Universe R) (c : R) :
  0 <= size u -> - size u <= c <= 2 * size u ->
  0 <= reflectCoordinate u c <= size u.
Proof.
  intros Hs Hc. unfold reflectCoordinate.
  cbn [ltb sub mul neg ofZ R_JsNumber]. unfold Rltb.
  destruct (Rlt_dec c 0); [lra |].
  destruct (Rlt_dec (size u) c); lra.
Qed.

Lemma reflectVelocity_exact (u : Universe R) (c v : R) :
  reflectVelocity u c v = v \/ reflectVelocity u c v = - v.
Proof.
  unfold reflectVelocity. cbn [ltb neg ofZ R_JsNumber].
  destruct (Rltb c 0); [now right |].
  destruct (Rltb (size u) c); [now right | now left].
Qed.

(** In exact arithmetic, with [0 <= size]: every photon [q] of the
    collection after [step()] is the reflection of the advanced position
    [a = position + velocity * dt] of a photon [p] that the integrator
    found; on every active axis, if the coordinate of [a] is in
    [[-size, 2 * size]] (the photon overshoots the wall by at most one
    domain width) then the coordinate of [q] is in [[0, size]]; each
    velocity component of [q] is the one of [p] or its opposite, and the
    speed [|v|] is unchanged. *)
Lemma step_reflects_photons (u : Universe R) (k : nat) (q : Particle R) :
  0 <= size u ->
  In q (particles (fst (step M config u k))) ->
  isPhoton q = true ->
  exists p,
    In p (beforeMotion M config u k) /\ isPhoton p = true /\
    q = reflectPhoton u (advancePhoton u p) /\
    let a := advancePhoton u p in
    (- size u <= x a <= 2 * size u -> 0 <= x q <= size u) /\
    (- size u <= y a <= 2 * size u -> 0 <= y q <= size u) /\
    (mode3D u = true ->
     - size u <= z a <= 2 * size u -> 0 <= z q <= size u) /\
    (vx q = vx p \/ vx q = - vx p) /\
    (vy q = vy p \/ vy q = - vy p) /\
    (vz q = vz p \/ vz q = - vz p) /\
    R_sqrt.sqrt (vx q * vx q + vy q * vy q + vz q * vz q)
    = R_sqrt.sqrt (vx p * vx p + vy p * vy p + vz p * vz p).
Proof.
  intros Hsize Hin Hph.
  destruct (step_In M config u k q Hin) as [p [f [Hp Hq]]].
  destruct (updateParticleMotion_kind u p (fx f) (fy f) (fz f))
    as [K1 _].
  rewrite <- Hq, Hph in K1. symmetry in K1.
  exists p. split; [exact Hp |]. split; [exact K1 |].
  assert (Hq' : q = reflectPhoton u (advancePhoton u p)).
  { rewrite Hq. unfold updateParticleMotion, applyBoundaryConditions.
    rewrite K1.
    replace (isPhoton (advancePhoton u p)) with true; [reflexivity |].
    unfold advancePhoton. destruct (mode3D u); simpl; congruence. }
  split; [exact Hq' |]. cbv zeta.
  rewrite Hq', reflectPhoton_spec.
  assert (Hv : vx (advancePhoton u p) = vx p
               /\ vy (advancePhoton u p) = vy p
               /\ vz (advancePhoton u p) = vz p).
  { unfold advancePhoton. destruct (mode3D u); simpl; auto. }
  destruct Hv as [Vx [Vy Vz]].
  remember (advancePhoton u p) as a eqn:Ha. clear Ha.
  pose proof (reflectVelocity_exact u (x a) (vx a)) as Rx.
  pose proof (reflectVelocity_exact u (y a) (vy a)) as Ry.
  pose proof (reflectVelocity_exact u (z a) (vz a)) as Rz.
  rewrite Vx in Rx. rewrite Vy in Ry. rewrite Vz in Rz.
  destruct (mode3D u) eqn:H3D; simpl; rewrite ?Vx, ?Vy, ?Vz;
    (split; [now apply reflectCoordinate_exact |]);
    (split; [now apply reflectCoordinate_exact |]);
    (split; [intros; try discriminate; now apply reflectCoordinate_exact |]);
    (split; [exact Rx |]); (split; [exact Ry |]).
  - split; [exact Rz |]. f_equal.
    destruct Rx as [-> | ->], Ry as [-> | ->], Rz as [-> | ->]; ring.
  - split; [now left |]. f_equal.
    destruct Rx as [-> | ->], Ry as [-> | ->]; ring.
Qed.

End ReflectExact.

(** A universe that holds a single photon: the step reflects it. *)
Lemma step_lone_photon (T : Type) (N : JsNumber T) (M : JsMath T)
    (config : PhotonEmissionConfig) (u : Universe T) (p : Particle T)
    (k : nat) :
  isPhoton p = true ->
  particles (fst (step M config (set_particles u [p]) k))
  = [reflectPhoton u
       (advancePhoton u (set_forceElectro p (ofZ 0) (ofZ 0) (ofZ 0)))].
Proof.
  intros Hph.
  unfold step, handlePhotonElectronCollisions, checkAndEmitPhotons. simpl.
  rewrite Hph. simpl. rewrite orb_true_r. simpl.
  unfold checkAndEmitPhotons_body, emissionCall.
  rewrite Hph, orb_true_r. simpl.
  match goal with
  | |- context [accumulateForces ?v ?l] =>
      assert (Hf : exists f, accumulateForces v l = [f])
  end.
  { unfold accumulateForces. simpl. rewrite Hph.
    destruct (gravityEnabled u), (groundGravityEnabled u); simpl;
      rewrite ?Hph; eauto. }
  destruct Hf as [f ->].
  unfold updateParticleMotion, applyBoundaryConditions.
  replace (isPhoton (set_forceElectro p (ofZ 0) (ofZ 0) (ofZ 0)))
    with true by (symmetry; exact Hph).
  match goal with
  | |- context [isPhoton (advancePhoton ?v ?a)] =>
      replace (isPhoton (advancePhoton v a)) with true
  end.
  - now destruct u.
  - unfold advancePhoton. simpl. destruct (mode3D u); simpl; congruence.
Qed.

Lemma beforeMotion_lone_photon (T : Type) (N : JsNumber T) (M : JsMath T)
    (config : PhotonEmissionConfig) (u : Universe T) (p : Particle T)
    (k : nat) :
  isPhoton p = true ->
  beforeMotion M config (set_particles u [p]) k
  = [set_forceElectro p (ofZ 0) (ofZ 0) (ofZ 0)].
Proof.
  intros Hph.
  unfold beforeMotion, handlePhotonElectronCollisions, checkAndEmitPhotons.
  simpl. rewrite Hph. simpl. rewrite orb_true_r. simpl.
  unfold checkAndEmitPhotons_body, emissionCall.
  now rewrite Hph, orb_true_r.
Qed.

(** A single reflection brings a photon back inside only if it overshoots
    by less than the domain width: from [x = 10.5] the photon lands on
    [2 * 1 - 10.5 < 0]. *)
Lemma step_reflection_overshoots :
  exists q,
    particles (fst (step Sample.math Sample.emissionOff ReflectSample.beam 0))
    = [q]
    /\ isPhoton q = true
    /\ (x q <? ofZ 0)%js = true.
Proof. eexists. vm_compute. repeat split. Qed.

Lemma step_reflects_photons_witness :
  let q :=
    reflectPhoton ReflectSample.universeR
      (advancePhoton ReflectSample.universeR
         (set_forceElectro ReflectSample.slowPhoton (ofZ 0) (ofZ 0) (ofZ 0)))
  in
  (0 <= x q <= size ReflectSample.universeR)%R
  /\ (0 <= y q <= size ReflectSample.universeR)%R.
Proof.
  cbv zeta.
  destruct (@step_reflects_photons ReflectSample.mathR Sample.emissionOff
              (set_particles ReflectSample.universeR
                 [ReflectSample.slowPhoton]) 0
              (reflectPhoton ReflectSample.universeR
                 (advancePhoton ReflectSample.universeR
                    (set_forceElectro ReflectSample.slowPhoton
                       (ofZ 0) (ofZ 0) (ofZ 0)))))
    as [p [Hp [_ [_ [Hx [Hy _]]]]]].
  - simpl. lra.
  - rewrite step_lone_photon by reflexivity. now left.
  - rewrite reflectPhoton_spec. reflexivity.
  - rewrite beforeMotion_lone_photon in Hp by reflexivity.
    destruct Hp as [<- | []].
    split; [apply Hx | apply Hy]; simpl; lra.
Defined.

(** ** One reflection per axis

    Signs and comparisons of binary64 numbers, from the specification of
    the primitive operations. *)

Module Binary64Sign.

Lemma SFopp_involutive (a : spec_float) : SFopp (SFopp a) = a.
Proof. destruct a as [s|s| |s m e]; simpl; try reflexivity; now rewrite negb_involutive. Qed.

Lemma SFcompare_opp (a b : spec_float) :
  SFcompare (SFopp a) (SFopp b) = SFcompare b a.
Proof.
  destruct a as [sa|sa| |sa ma ea], b as [sb|sb| |sb mb eb]; simpl;
    try reflexivity;
    try (destruct sa; reflexivity); try (destruct sb; reflexivity);
    try (destruct sa, sb; reflexivity).
  destruct sa, sb; simpl; try reflexivity;
    rewrite (Z.compare_antisym ea eb);
    destruct (Z.compare ea eb); simpl; try reflexivity;
    now rewrite Pos.compare_cont_antisym.
Qed.

(** [c < -s] is [s < -c]. *)
Lemma ltb_opp_swap (c s : float) :
  PrimFloat.ltb c (PrimFloat.opp s) = true ->
  PrimFloat.ltb s (PrimFloat.opp c) = true.
Proof.
  rewrite !ltb_spec, !opp_spec. unfold SFltb.
  rewrite <- (SFcompare_opp (SFopp (Prim2SF s)) (Prim2SF c)).
  now rewrite SFopp_involutive.
Qed.

(** [c < -s] and [0 <= s] give [c < 0]. *)
Lemma ltb_opp_neg (c s : float) :
  PrimFloat.leb PrimFloat.zero s = true ->
  PrimFloat.ltb c (PrimFloat.opp s) = true ->
  PrimFloat.ltb c PrimFloat.zero = true.
Proof.
  rewrite !ltb_spec, leb_spec, opp_spec. unfold SFltb, SFleb.
  change (Prim2SF PrimFloat.zero) with (S754_zero false).
  destruct (Prim2SF c) as [sc|sc| |sc mc ec],
           (Prim2SF s) as [ss|ss| |ss ms es]; simpl;
    try discriminate; try reflexivity;
    try (destruct sc; simpl; (discriminate || reflexivity));
    try (destruct ss; simpl; (discriminate || reflexivity));
    try (destruct sc, ss; simpl; (discriminate || reflexivity)).
Qed.

(** [s < c] and [0 <= s] exclude [c < 0]. *)
Lemma gtb_not_neg (c s : float) :
  PrimFloat.leb PrimFloat.zero s = true ->
  PrimFloat.ltb s c = true ->
  PrimFloat.ltb c PrimFloat.zero = false.
Proof.
  rewrite !ltb_spec, leb_spec. unfold SFltb, SFleb.
  change (Prim2SF PrimFloat.zero) with (S754_zero false).
  destruct (Prim2SF c) as [sc|sc| |sc mc ec],
           (Prim2SF s) as [ss|ss| |ss ms es]; simpl;
    try discriminate; try reflexivity;
    try (destruct sc; simpl; (discriminate || reflexivity));
    try (destruct ss; simpl; (discriminate || reflexivity));
    try (destruct sc, ss; simpl; (discriminate || reflexivity)).
Qed.

End Binary64Sign.

Section ReflectOnce.

Local Open Scope js_scope.

(** What the photon branch leaves of a coordinate. *)
Lemma reflectedOnce_binary64 (u : Universe float) (c : float) :
  (ofZ 0 <=? size u) = true -> reflectedOnce u c (reflectCoordinate u c).
Proof.
  intros Hs. unfold reflectedOnce. split; [reflexivity |].
  unfold reflectCoordinate.
  cbn [ltb leb neg ofZ float_JsNumber float_ofZ] in *.
  split; intros Hc.
  - now rewrite (Binary64Sign.gtb_not_neg Hs Hc), Hc.
  - rewrite (Binary64Sign.ltb_opp_neg Hs Hc).
    split; [reflexivity |].
    now apply Binary64Sign.ltb_opp_swap.
Qed.

Variable M : JsMath float.
Variable config : PhotonEmissionConfig.

(** C5 (the code at the failing input). On binary64 numbers, with
    [0 <= size]: every photon [q] of the collection after [step()] is one
    reflection of the advanced position of a photon [p] that the integrator
    found.  On every active axis the coordinate
    [c = position + velocity * dt] is handled once: beyond the upper wall
    it becomes [2 * size - c], however far beyond [c] is, and below [-size]
    it becomes [-c], which is beyond the upper wall, so that the photon
    is left outside [[0, size]].  The speed [|v|] is unchanged, bit for
    bit. *)
Theorem step_photon_escapes (u : Universe float) (k : nat)
    (q : Particle float) :
  (ofZ 0 <=? size u) = true ->
  In q (particles (fst (step M config u k))) ->
  isPhoton q = true ->
  exists p,
    In p (beforeMotion M config u k) /\ isPhoton p = true /\
    q = reflectPhoton u (advancePhoton u p) /\
    reflectedOnce u (x p + vx p * dt u) (x q) /\
    reflectedOnce u (y p + vy p * dt u) (y q) /\
    (mode3D u = true -> reflectedOnce u (z p + vz p * dt u) (z q)) /\
    Math_sqrt (vx q * vx q + vy q * vy q + vz q * vz q)
    = Math_sqrt (vx p * vx p + vy p * vy p + vz p * vz p).
Proof.
  intros Hsize Hin Hph.
  destruct (step_In M config u k q Hin) as [p [f [Hp Hq]]].
  destruct (updateParticleMotion_kind u p (fx f) (fy f) (fz f))
    as [K1 _].
  rewrite <- Hq, Hph in K1. symmetry in K1.
  exists p. split; [exact Hp |]. split; [exact K1 |].
  assert (Hq' : q = reflectPhoton u (advancePhoton u p)).
  { rewrite Hq. unfold updateParticleMotion, applyBoundaryConditions.
    rewrite K1.
    replace (isPhoton (advancePhoton u p)) with true; [reflexivity |].
    unfold advancePhoton. destruct (mode3D u); simpl; congruence. }
  split; [exact Hq' |].
  assert (Hv : Math_sqrt (vx q * vx q + vy q * vy q + vz q * vz q)
               = Math_sqrt (vx p * vx p + vy p * vy p + vz p * vz p)).
  { rewrite Hq'.
    rewrite (reflectPhoton_speed_binary64 u (advancePhoton u p)).
    unfold advancePhoton. destruct (mode3D u); reflexivity. }
  rewrite Hq', reflectPhoton_spec.
  pose proof (reflectedOnce_binary64 u) as Once.
  unfold advancePhoton.
  destruct (mode3D u) eqn:H3D; simpl;
    (split; [now apply Once |]); (split; [now apply Once |]);
    (split; [intros; try discriminate; now apply Once |]).
  all: rewrite Hq', reflectPhoton_spec in Hv; unfold advancePhoton in Hv;
    rewrite H3D in Hv; exact Hv.
Qed.

End ReflectOnce.

Section ReflectSamples.

Local Open Scope js_scope.

(** The photon of [x = 0.5] and [vx = 1000] is at [x = -8.5] after one
    step. *)
Lemma step_photon_escapes_witness :
  let u := Sample.universe in
  let p := set_forceElectro ReflectSample.fastPhoton (ofZ 0) (ofZ 0) (ofZ 0) in
  let q := reflectPhoton u (advancePhoton u p) in
  particles (fst (step Sample.math Sample.emissionOff ReflectSample.beam 0))
  = [q]
  /\ x q = ofZ 2 * size u - (x p + vx p * dt u)
  /\ x q = ofZ (-17) / ofZ 2
  /\ (x q <? ofZ 0) = true.
Proof.
  cbv zeta.
  destruct (@step_photon_escapes Sample.math Sample.emissionOff
              ReflectSample.beam 0
              (reflectPhoton Sample.universe
                 (advancePhoton Sample.universe
                    (set_forceElectro ReflectSample.fastPhoton
                       (ofZ 0) (ofZ 0) (ofZ 0)))))
    as [p [Hp [_ [_ [[_ [Hx _]] _]]]]].
  - vm_compute. reflexivity.
  - unfold ReflectSample.beam. rewrite step_lone_photon by reflexivity.
    now left.
  - rewrite reflectPhoton_spec. reflexivity.
  - unfold ReflectSample.beam in Hp.
    rewrite beforeMotion_lone_photon in Hp by reflexivity.
    destruct Hp as [<- | []].
    split.
    { unfold ReflectSample.beam. now rewrite step_lone_photon. }
    split; [apply Hx; vm_compute; reflexivity |].
    split; vm_compute; reflexivity.
Defined.

(** The lower wall: from [x = -9.5] the photon lands on [x = 9.5]. *)
Example step_photon_lands_above :
  exists q,
    particles
      (fst (step Sample.math Sample.emissionOff ReflectSample.backBeam 0))
    = [q]
    /\ isPhoton q = true /\ x q = ofZ 19 / ofZ 2
    /\ (x q >? size ReflectSample.backBeam) = true.
Proof. eexists. vm_compute. repeat split. Qed.

(** The photon is not brought back by the following steps either: it is
    at [x = -8.5], [18.5] and [-26.5] after one, two and three steps. *)
Example runSteps_photon_drifts :
  map (fun n =>
         map (@x float)
           (particles
              (fst (runSteps Sample.math Sample.emissionOff n
                      ReflectSample.beam 0))))
      [1%nat; 2%nat; 3%nat]
  = [[ofZ (-17) / ofZ 2]; [ofZ 37 / ofZ 2]; [ofZ (-53) / ofZ 2]].
Proof. vm_compute. reflexivity. Qed.

End ReflectSamples.

(** * Gravity toward the centre *)

(** NaN goes through every operation and fails every comparison. *)
Module Binary64NaN.

Lemma sub_nan_r (a b : float) :
  Number.isNaN b = true -> Number.isNaN (PrimFloat.sub a b) = true.
Proof.
  unfold Number.isNaN. rewrite sub_spec.
  destruct (Prim2SF b); try discriminate.
  destruct (Prim2SF a); reflexivity.
Qed.

Lemma mul_nan_l (a b : float) :
  Number.isNaN a = true -> Number.isNaN (PrimFloat.mul a b) = true.
Proof.
  unfold Number.isNaN. rewrite mul_spec.
  destruct (Prim2SF a); try discriminate. reflexivity.
Qed.

Lemma add_nan_l (a b : float) :
  Number.isNaN a = true -> Number.isNaN (PrimFloat.add a b) = true.
Proof.
  unfold Number.isNaN. rewrite add_spec.
  destruct (Prim2SF a); try discriminate. reflexivity.
Qed.

Lemma add_nan_r (a b : float) :
  Number.isNaN b = true -> Number.isNaN (PrimFloat.add a b) = true.
Proof.
  unfold Number.isNaN. rewrite add_spec.
  destruct (Prim2SF b); try discriminate.
  destruct (Prim2SF a); reflexivity.
Qed.

Lemma sqrt_nan (a : float) :
  Number.isNaN a = true -> Number.isNaN (PrimFloat.sqrt a) = true.
Proof.
  unfold Number.isNaN. rewrite sqrt_spec.
  destruct (Prim2SF a); try discriminate. reflexivity.
Qed.

Lemma div_nan_r (a b : float) :
  Number.isNaN b = true -> Number.isNaN (PrimFloat.div a b) = true.
Proof.
  unfold Number.isNaN. rewrite div_spec.
  destruct (Prim2SF b); try discriminate.
  destruct (Prim2SF a); reflexivity.
Qed.

(** No comparison with NaN holds. *)
Lemma leb_nan_l (a b : float) :
  Number.isNaN a = true -> PrimFloat.leb a b = false.
Proof.
  unfold Number.isNaN. rewrite leb_spec.
  destruct (Prim2SF a); try discriminate. reflexivity.
Qed.

End Binary64NaN.

Section GravityComputed.

Context {T : Type} {N : JsNumber T}.

Local Open Scope js_scope.

(** The force as [calculateGravityForce] computes it, at every number
    instance. *)
Lemma calculateGravityForce_computes (u : Universe T) (p : Particle T) :
  let dx := lit_0_5 - x p in
  let dy := lit_0_5 - y p in
  let dz := if mode3D u then lit_0_5 - z p else ofZ 0 in
  let d := Math_sqrt (dx * dx + dy * dy + dz * dz) in
  let m := mass p * gravityCoefficient u * lit_1e_6 in
  calculateGravityForce u p
  = if d <=? lit_1e_6 then {| fx := ofZ 0; fy := ofZ 0; fz := ofZ 0 |}
    else {| fx := m * (dx / d); fy := m * (dy / d);
            fz := if mode3D u then m * (dz / d) else ofZ 0 |}.
Proof. reflexivity. Qed.

(** [calculateGravityForce] does not read the size of the universe. *)
Lemma calculateGravityForce_any_size (u u' : Universe T) (p : Particle T) :
  mode3D u' = mode3D u -> gravityCoefficient u' = gravityCoefficient u ->
  calculateGravityForce u' p = calculateGravityForce u p.
Proof.
  intros H3D HK. unfold calculateGravityForce. now rewrite H3D, HK.
Qed.

End GravityComputed.

Section GravityBinary64.

Local Open Scope js_scope.

(** A particle one of whose active coordinates is NaN passes the guard
    [distance <= 1e-6] and gets NaN. *)
Lemma calculateGravityForce_NaN (u : Universe float) (p : Particle float) :
  Number.isNaN (x p) = true \/ Number.isNaN (y p) = true
  \/ (mode3D u = true /\ Number.isNaN (z p) = true) ->
  let f := calculateGravityForce u p in
  Number.isNaN (fx f) = true /\ Number.isNaN (fy f) = true
  /\ (mode3D u = true -> Number.isNaN (fz f) = true).
Proof.
  intros H. cbv zeta. rewrite calculateGravityForce_computes. cbv zeta.
  cbn [add sub mul div Math_sqrt leb float_JsNumber].
  match goal with
  | |- context [PrimFloat.leb ?d _] =>
      assert (Hd : Number.isNaN d = true)
  end.
  { apply Binary64NaN.sqrt_nan.
    destruct H as [H | [H | [H3D H]]].
    - do 2 apply Binary64NaN.add_nan_l. apply Binary64NaN.mul_nan_l.
      now apply Binary64NaN.sub_nan_r.
    - apply Binary64NaN.add_nan_l, Binary64NaN.add_nan_r.
      apply Binary64NaN.mul_nan_l. now apply Binary64NaN.sub_nan_r.
    - rewrite H3D. apply Binary64NaN.add_nan_r.
      apply Binary64NaN.mul_nan_l. now apply Binary64NaN.sub_nan_r. }
  rewrite (@Binary64NaN.leb_nan_l _ _ Hd). cbn [fx fy fz].
  split; [| split].
  - apply Binary64.mul_nan_r. apply Binary64NaN.div_nan_r. exact Hd.
  - apply Binary64.mul_nan_r. apply Binary64NaN.div_nan_r. exact Hd.
  - intros H3D. rewrite H3D in *.
    apply Binary64.mul_nan_r. apply Binary64NaN.div_nan_r. exact Hd.
Qed.

End GravityBinary64.

Section GravityExact.

Local Open Scope R_scope.

Lemma Rleb_true (a b : R) : a <= b -> Rleb a b = true.
Proof. intros H. unfold Rleb. now destruct (Rle_dec a b). Qed.

Lemma Rleb_false (a b : R) : b < a -> Rleb a b = false.
Proof. intros H. unfold Rleb. destruct (Rle_dec a b); [lra | reflexivity]. Qed.

(** In exact arithmetic, with [d] the distance from the particle to the
    fixed point [(0.5, 0.5, 0.5)] (the [z] axis taking part in 3D mode
    only): [calculateGravityForce] returns the zero vector when
    [d <= 1e-6]; otherwise it returns [mass * K_gravity * 1e-6] times the
    unit vector from the particle toward that point, a vector of that
    magnitude. *)
Lemma calculateGravityForce_exact (u : Universe R) (p : Particle R) :
  let dx := 1 / 2 - x p in
  let dy := 1 / 2 - y p in
  let dz := if mode3D u then 1 / 2 - z p else 0 in
  let d := R_sqrt.sqrt (dx * dx + dy * dy + dz * dz) in
  let m := mass p * gravityCoefficient u * (1 / 1000000) in
  let f := calculateGravityForce u p in
  (d <= 1 / 1000000 -> fx f = 0 /\ fy f = 0 /\ fz f = 0) /\
  (1 / 1000000 < d ->
   fx f = m * (dx / d) /\ fy f = m * (dy / d) /\ fz f = m * (dz / d) /\
   dx / d * (dx / d) + dy / d * (dy / d) + dz / d * (dz / d) = 1 /\
   R_sqrt.sqrt (fx f * fx f + fy f * fy f + fz f * fz f) = Rabs m).
Proof.
  intros dx dy dz d m f.
  assert (Hf : f = if Rleb d (1 / 1000000)
                   then {| fx := 0; fy := 0; fz := 0 |}
                   else {| fx := m * (dx / d); fy := m * (dy / d);
                           fz := if mode3D u then m * (dz / d) else 0 |}).
  { unfold f, calculateGravityForce, lit_0_5, lit_1e_6.
    cbn [add sub mul div neg Math_sqrt leb ofZ R_JsNumber].
    replace (5 / 10) with (1 / 2) by lra.
    fold dx dy. unfold dz, d, dz. destruct (mode3D u); reflexivity. }
  split.
  - intros Hd. rewrite Hf, Rleb_true by exact Hd. simpl. auto.
  - intros Hd. rewrite Hf, Rleb_false by exact Hd.
    assert (Hsq : d * d = dx * dx + dy * dy + dz * dz).
    { unfold d. apply sqrt_sqrt. nra. }
    assert (Hunit : dx / d * (dx / d) + dy / d * (dy / d)
                    + dz / d * (dz / d) = 1).
    { replace (dx / d * (dx / d) + dy / d * (dy / d) + dz / d * (dz / d))
        with ((dx * dx + dy * dy + dz * dz) / (d * d)) by (field; lra).
      rewrite <- Hsq. field. lra. }
    assert (Hz : (if mode3D u then m * (dz / d) else 0) = m * (dz / d)).
    { unfold dz. destruct (mode3D u); [reflexivity |].
      unfold Rdiv. ring. }
    cbn [fx fy fz]. rewrite Hz.
    repeat split; try reflexivity; try exact Hunit.
    replace (m * (dx / d) * (m * (dx / d)) + m * (dy / d) * (m * (dy / d))
             + m * (dz / d) * (m * (dz / d)))
      with (Rsqr m * (dx / d * (dx / d) + dy / d * (dy / d)
                      + dz / d * (dz / d)))
      by (unfold Rsqr; ring).
    rewrite Hunit, Rmult_1_r. apply sqrt_Rsqr_abs.
Qed.

End GravityExact.

(** C7 (amended). [calculateGravityForce] works from the fixed point
    [(0.5, 0.5, 0.5)], whatever the size of the universe (the [z] axis
    taking part in 3D mode only).  At every number instance, binary64
    included, with [(dx, dy, dz)] the offset from the particle to that point
    and [d = sqrt(dx^2 + dy^2 + dz^2)] as computed: it returns the zero
    vector when the test [d <= 1e-6] holds and
    [(mass * K_gravity * 1e-6) * (dx / d, dy / d, dz / d)] when it fails,
    and no other universe of the same mode and coefficient returns
    anything else.  On binary64 numbers a particle with a NaN active
    coordinate fails the test and gets NaN.  In exact arithmetic the vector
    returned beyond [1e-6] is the magnitude times the unit vector toward
    the point, a vector of that magnitude. *)
Theorem calculateGravityForce_fixed_centre :
  (forall (T : Type) (N : JsNumber T) (u : Universe T) (p : Particle T),
     let dx := (lit_0_5 - x p)%js in
     let dy := (lit_0_5 - y p)%js in
     let dz := (if mode3D u then lit_0_5 - z p else ofZ 0)%js in
     let d := Math_sqrt (dx * dx + dy * dy + dz * dz)%js in
     let m := (mass p * gravityCoefficient u * lit_1e_6)%js in
     let f := calculateGravityForce u p in
     ((d <=? lit_1e_6)%js = true ->
      f = {| fx := ofZ 0; fy := ofZ 0; fz := ofZ 0 |}) /\
     ((d <=? lit_1e_6)%js = false ->
      f = {| fx := m * (dx / d); fy := m * (dy / d);
             fz := if mode3D u then m * (dz / d) else ofZ 0 |}%js) /\
     (forall u' : Universe T,
        mode3D u' = mode3D u ->
        gravityCoefficient u' = gravityCoefficient u ->
        calculateGravityForce u' p = f)) /\
  (forall (u : Universe float) (p : Particle float),
     Number.isNaN (x p) = true \/ Number.isNaN (y p) = true
     \/ (mode3D u = true /\ Number.isNaN (z p) = true) ->
     let f := calculateGravityForce u p in
     Number.isNaN (fx f) = true /\ Number.isNaN (fy f) = true
     /\ (mode3D u = true -> Number.isNaN (fz f) = true)) /\
  (forall (u : Universe R) (p : Particle R),
     let dx := 1 / 2 - x p in
     let dy := 1 / 2 - y p in
     let dz := if mode3D u then 1 / 2 - z p else 0 in
     let d := R_sqrt.sqrt (dx * dx + dy * dy + dz * dz) in
     let m := mass p * gravityCoefficient u * (1 / 1000000) in
     let f := calculateGravityForce u p in
     (d <= 1 / 1000000 -> fx f = 0 /\ fy f = 0 /\ fz f = 0) /\
     (1 / 1000000 < d ->
      fx f = m * (dx / d) /\ fy f = m * (dy / d) /\ fz f = m * (dz / d) /\
      dx / d * (dx / d) + dy / d * (dy / d) + dz / d * (dz / d) = 1 /\
      R_sqrt.sqrt (fx f * fx f + fy f * fy f + fz f * fz f) = Rabs m))%R.
Proof.
  split; [| split].
  - intros T N u p. cbv zeta. rewrite calculateGravityForce_computes.
    cbv zeta. split; [| split].
    + now intros ->.
    + now intros ->.
    + intros u' H3D HK.
      rewrite <- calculateGravityForce_computes.
      now apply calculateGravityForce_any_size.
  - exact calculateGravityForce_NaN.
  - exact calculateGravityForce_exact.
Qed.

Section GravitySamples.

Local Open Scope js_scope.

(** In binary64 the norm of the returned vector is the magnitude up to
    rounding only: for an electron in the corner of the unit square they
    differ. *)
Example calculateGravityForce_binary64_rounding :
  let f := calculateGravityForce Sample.universe GravitySample.cornered in
  let m :=
    mass GravitySample.cornered * gravityCoefficient Sample.universe
    * lit_1e_6 in
  (Math_sqrt (fx f * fx f + fy f * fy f + fz f * fz f) <? m) = true.
Proof. vm_compute. reflexivity. Qed.

(** A particle that the engine itself has sent to NaN. *)
Example calculateGravityForce_lost_particle :
  let f := calculateGravityForce Sample.universe GravitySample.lost in
  Number.isNaN (x GravitySample.lost) = true
  /\ Number.isNaN (fx f) = true /\ Number.isNaN (fy f) = true.
Proof. vm_compute. repeat split. Qed.

End GravitySamples.

(** The claim C7 as stated does not hold for a universe of size 2: at the
    point [(size/2, size/2, size/2)] the force is not the zero vector; it
    pulls toward [(0.5, 0.5, 0.5)]. *)
Lemma calculateGravityForce_not_toward_half_size :
  let f := calculateGravityForce GravitySample.wide GravitySample.centred in
  let half := (size GravitySample.wide / ofZ 2)%js in
  (x GravitySample.centred = half /\ y GravitySample.centred = half
   /\ z GravitySample.centred = half) /\
  (fx f <? ofZ 0)%js = true /\ (fy f <? ofZ 0)%js = true
  /\ (fz f <? ofZ 0)%js = true.
Proof. vm_compute. repeat split. Qed.

(** ** Emission: binary64 against exact arithmetic *)

Section EmissionSamples.

Local Open Scope js_scope.

(** In binary64 the photon's velocity is the electron's new velocity up to
    rounding only: for an electron of velocity [(3, 4)] the two [vx]
    differ. *)
Example managePhotonEmission_binary64_rounding :
  exists photon,
    snd EmissionSample.emitted34 = Some photon
    /\ (vx photon <? vx (fst EmissionSample.emitted34)) = true
    /\ vy photon = vy (fst EmissionSample.emitted34).
Proof. eexists. vm_compute. repeat split. Qed.

(** ** A sample emission *)

Lemma activeSpeed_electron345 :
  (0 < activeSpeed ReflectSample.universeR ExactSample.electron345)%R.
Proof.
  unfold activeSpeed, activeVz. simpl. apply sqrt_lt_R0. lra.
Qed.

Lemma managePhotonEmission_emits_witness :
  (exists photon,
     snd EmissionSample.emitted34 = Some photon
     /\ vx (fst EmissionSample.emitted34)
        = ofZ 3 / (ofZ 1 / Math_sqrt (ofZ 1 - lit_0_9))
     /\ charge photon = ofZ 0 /\ mass photon = ofZ 0
     /\ age photon = ofZ 0)
  /\
  (exists photon,
     snd (managePhotonEmission Sample.emissionOn ReflectSample.universeR
            ExactSample.electron345
            (activeSpeed ReflectSample.universeR ExactSample.electron345)
            3%R 4%R 0%R lit_0_9)
     = Some photon
     /\ vx photon = (3 * scale)%R
     /\ charge photon = 0%R /\ mass photon = 0%R /\ age photon = 0%R).
Proof.
  destruct (@managePhotonEmission_emits Sample.emissionOn eq_refl)
    as [Hcode Hexact].
  split.
  - destruct (Hcode float _ Sample.universe EmissionSample.electron34
                (Math_sqrt (ofZ 3 * ofZ 3 + ofZ 4 * ofZ 4 + ofZ 0 * ofZ 0))
                (ofZ 3) (ofZ 4) (ofZ 0))
      as [photon [Hsome [_ [Hvx [_ [_ [_ [_ [_ [Hc [Hm [Ha _]]]]]]]]]]]].
    exists photon. repeat split; assumption.
  - destruct (Hexact ReflectSample.universeR ExactSample.electron345
                activeSpeed_electron345)
      as [photon [Hsome [_ [Hvx [_ [_ [_ [_ [_ [[Hpx _] [Hc [Hm [Ha _]]]]]]]]]]]]].
    exists photon. repeat split; try assumption.
    rewrite Hpx. exact Hvx.
Defined.

End EmissionSamples.

(** * Beyond the specification's properties

    Properties of the code the specification does not state: the
    population of a universe across [step()], the emission policy, what
    the forces and the energy sums read, the energy balance of emission
    and absorption, and the housekeeping methods. *)

Section ListRelations.

Variables (A B C : Type).

Lemma Forall2_compose (R1 : A -> B -> Prop) (R2 : B -> C -> Prop)
    (R3 : A -> C -> Prop) (l1 : list A) (l2 : list B) (l3 : list C) :
  (forall a b c, R1 a b -> R2 b c -> R3 a c) ->
  Forall2 R1 l1 l2 -> Forall2 R2 l2 l3 -> Forall2 R3 l1 l3.
Proof.
  intros Hc H12. revert l3.
  induction H12 as [|a b l1 l2 Hab _ IH]; intros l3 H23;
    inversion H23; subst; constructor; eauto.
Qed.

Lemma Forall2_filter (R : A -> B -> Prop) (f : A -> bool) (g : B -> bool)
    (l : list A) (l' : list B) :
  (forall a b, R a b -> f a = g b) ->
  Forall2 R l l' -> Forall2 R (filter f l) (filter g l').
Proof.
  intros Hfg H. induction H as [|a b l l' Hab _ IH]; simpl.
  - constructor.
  - rewrite (Hfg a b Hab). destruct (g b); [constructor |]; assumption.
Qed.

Lemma Forall2_map_r (R : A -> C -> Prop) (f : A -> C) (l : list A) :
  (forall a, R a (f a)) -> Forall2 R l (map f l).
Proof. intros H. induction l; simpl; constructor; auto. Qed.

Lemma Forall2_weaken (R R' : A -> B -> Prop) (l : list A) (l' : list B) :
  (forall a b, R a b -> R' a b) -> Forall2 R l l' -> Forall2 R' l l'.
Proof. intros H H2. induction H2; constructor; auto. Qed.

End ListRelations.

Section Population.

Context {T : Type} {N : JsNumber T}.
Variable M : JsMath T.
Variable config : PhotonEmissionConfig.

Local Open Scope js_scope.

Lemma carried_refl (u : Universe T) (p : Particle T) : carried u p p.
Proof. unfold carried. tauto. Qed.

Lemma carried_trans (u : Universe T) (p q r : Particle T) :
  carried u p q -> carried u q r -> carried u p r.
Proof.
  unfold carried.
  intros [A1 [A2 [A3 [A4 [A5 [A6 [A7 [[A8 [A9 A10]] A11]]]]]]]]
         [B1 [B2 [B3 [B4 [B5 [B6 [B7 [[B8 [B9 B10]] B11]]]]]]]].
  repeat split; try congruence; auto.
  intros H. rewrite B11, A11; auto.
Qed.

Lemma moved_carried (u : Universe T) (p q : Particle T) :
  moved u p q -> carried u p q.
Proof.
  unfold moved, sameBody, carried. intros [-> [_ Hvz]].
  simpl in *. tauto.
Qed.


(** One iteration of the emission sweep changes a particle's velocity and
    sets its flag, nothing else; what it pushes is a photon of age 0. *)
Lemma checkAndEmitPhotons_body_carried (u : Universe T) (p : Particle T)
    (k : nat) :
  carried u p (fst (fst (checkAndEmitPhotons_body M config u p k)))
  /\ match snd (fst (checkAndEmitPhotons_body M config u p k)) with
     | Some ph =>
         isPhoton ph = true /\ charge ph = ofZ 0 /\ mass ph = ofZ 0
         /\ fixed ph = false /\ age ph = ofZ 0 /\ hasEmittedPhoton ph = false
     | None => True
     end.
Proof.
  unfold checkAndEmitPhotons_body.
  destruct (emissionCall M config u p k) as [[[[[speed avx] avy] avz]|] k1];
    simpl; [| split; [apply carried_refl | exact I]].
  unfold managePhotonEmission, carried.
  destruct (enabled config), (mode3D u); simpl;
    repeat split; auto; discriminate.
Qed.

Lemma checkAndEmitPhotons_loop_carried (u : Universe T)
    (ps : list (Particle T)) :
  forall k,
    Forall2 (carried u) ps
      (fst (fst (checkAndEmitPhotons_loop M config u ps k)))
    /\ Forall
         (fun ph =>
            isPhoton ph = true /\ charge ph = ofZ 0 /\ mass ph = ofZ 0
            /\ fixed ph = false /\ age ph = ofZ 0
            /\ hasEmittedPhoton ph = false)
         (snd (fst (checkAndEmitPhotons_loop M config u ps k))).
Proof.
  induction ps as [|p ps IH]; intros k; simpl.
  - split; constructor.
  - pose proof (checkAndEmitPhotons_body_carried u p k) as [Hc Hph].
    destruct (checkAndEmitPhotons_body M config u p k) as [[p' ph] k1].
    destruct (IH k1) as [IH1 IH2].
    destruct (checkAndEmitPhotons_loop M config u ps k1) as [[rest' nps] k2].
    simpl in *. split.
    + now constructor.
    + destruct ph; [constructor |]; assumption.
Qed.

(** The integrator, boundary handler included, on one particle. *)
Lemma updateParticleMotion_stepped (u : Universe T) (p : Particle T)
    (forceX forceY forceZ : T) :
  stepped u p (updateParticleMotion u p forceX forceY forceZ).
Proof.
  assert (Hb : forall a : Particle T,
             let b := applyBoundaryConditions u a in
             isPhoton b = isPhoton a /\ charge b = charge a
             /\ mass b = mass a /\ fixed b = fixed a /\ energy b = energy a
             /\ age b = age a /\ hasEmittedPhoton b = hasEmittedPhoton a
             /\ (mode3D u = false -> z b = z a /\ vz b = vz a)).
  { intros a. cbv zeta. unfold applyBoundaryConditions.
    rewrite clampPosition_spec, reflectPhoton_spec. unfold stopParticle.
    destruct (isPhoton a) eqn:E, (outOfBounds u a), (mode3D u); simpl;
      rewrite ?E; repeat split; auto; discriminate. }
  unfold stepped, updateParticleMotion.
  destruct (isPhoton p) eqn:Hph.
  - destruct (Hb (advancePhoton u p)) as [H1 [H2 [H3 [H4 [H5 [H6 [H7 H8]]]]]]].
    rewrite H1, H2, H3, H4, H5, H6, H7.
    assert (Hadv : isPhoton (advancePhoton u p) = true
                   /\ charge (advancePhoton u p) = charge p
                   /\ mass (advancePhoton u p) = mass p
                   /\ fixed (advancePhoton u p) = fixed p
                   /\ energy (advancePhoton u p) = energy p
                   /\ age (advancePhoton u p) = age p + ofZ 1
                   /\ hasEmittedPhoton (advancePhoton u p)
                      = hasEmittedPhoton p
                   /\ (mode3D u = false ->
                       z (advancePhoton u p) = z p
                       /\ vz (advancePhoton u p) = vz p)).
    { unfold advancePhoton. destruct (mode3D u); simpl;
        repeat split; auto; discriminate. }
    destruct Hadv as [A1 [A2 [A3 [A4 [A5 [A6 [A7 A8]]]]]]].
    repeat split; try congruence;
      match goal with
      | E3 : mode3D u = false |- _ => destruct (H8 E3), (A8 E3); congruence
      end.
  - cbv zeta.
    assert (Hset : forall a : Particle T,
               a = set_forceElectro p forceX forceY forceZ ->
               isPhoton a = false /\ charge a = charge p /\ mass a = mass p
               /\ fixed a = fixed p /\ energy a = energy p /\ age a = age p
               /\ hasEmittedPhoton a = hasEmittedPhoton p
               /\ z a = z p /\ vz a = vz p).
    { intros a ->. simpl. rewrite Hph. tauto. }
    destruct (Hset _ eq_refl) as [S1 [S2 [S3 [S4 [S5 [S6 [S7 [S8 S9]]]]]]]].
    simpl fixed. simpl charge.
    destruct (fixed p) eqn:Hf; [repeat split; auto; congruence |].
    destruct (staticProtons u && (charge p >? ofZ 0));
      [repeat split; auto; congruence |].
    match goal with
    | |- context [applyBoundaryConditions u ?a] =>
        destruct (Hb a) as [H1 [H2 [H3 [H4 [H5 [H6 [H7 H8]]]]]]];
        assert (Hint : isPhoton a = false /\ charge a = charge p
                       /\ mass a = mass p /\ fixed a = false
                       /\ energy a = energy p /\ age a = age p
                       /\ hasEmittedPhoton a = hasEmittedPhoton p
                       /\ (mode3D u = false -> z a = z p /\ vz a = vz p))
    end.
    { unfold integrate. destruct (mode3D u); simpl;
        repeat split; auto; discriminate. }
    destruct Hint as [A1 [A2 [A3 [A4 [A5 [A6 [A7 A8]]]]]]].
    rewrite H1, H2, H3, H4, H5, H6, H7.
    repeat split; try congruence;
      match goal with
      | E3 : mode3D u = false |- _ => destruct (H8 E3), (A8 E3); congruence
      end.
Qed.


Lemma carried_stepped (u : Universe T) (p q r : Particle T) :
  carried u p q -> stepped u q r -> stepped u p r.
Proof.
  unfold carried, stepped.
  intros [A1 [A2 [A3 [A4 [A5 [A6 [A7 [[A8 [A9 A10]] A11]]]]]]]]
         [B1 [B2 [B3 [B4 [B5 [B6 [B7 B8]]]]]]].
  repeat split; try congruence; auto.
  - rewrite B6, A1, A6. reflexivity.
  - destruct (B8 H). congruence.
  - destruct (B8 H). rewrite H1. auto.
Qed.


End Population.

(** * Emission: the threshold and the one-photon policy *)

Section EmissionPolicy.

Context {T : Type} {N : JsNumber T}.
Variable M : JsMath T.
Variable config : PhotonEmissionConfig.

Local Open Scope js_scope.

Lemma set_particles_same (u : Universe T) : set_particles u (particles u) = u.
Proof. now destruct u. Qed.

Lemma emissionCall_slow (u : Universe T) (p : Particle T) (k : nat) :
  (isElectron p = true ->
   (fullSpeed p <? photonEmissionSpeedThreshold u) = true) ->
  emissionCall M config u p k = (None, k).
Proof.
  unfold emissionCall, isElectron, shouldEmitPhoton, fullSpeed. intros H.
  destruct ((charge p >=? ofZ 0) || isPhoton p); [reflexivity |].
  destruct (onePhotonPerElectron config && hasEmittedPhoton p);
    [reflexivity |].
  now rewrite (H eq_refl).
Qed.

Lemma checkAndEmitPhotons_loop_slow (u : Universe T)
    (ps : list (Particle T)) (k : nat) :
  Forall
    (fun p =>
       isElectron p = true ->
       (fullSpeed p <? photonEmissionSpeedThreshold u) = true) ps ->
  checkAndEmitPhotons_loop M config u ps k = (ps, [], k).
Proof.
  induction 1 as [|p ps Hp _ IH]; simpl; [reflexivity |].
  unfold checkAndEmitPhotons_body.
  rewrite (emissionCall_slow u p k Hp), IH. reflexivity.
Qed.

(** X1. While every electron is slower than the emission threshold (the speed
    being the one [shouldEmitPhoton] computes, over the three axes), the
    emission sweep is the identity: no particle is touched, no photon
    created and [Math.random()] is not called, whatever the
    configuration. *)
Theorem checkAndEmitPhotons_below_threshold (u : Universe T) (k : nat) :
  Forall
    (fun p =>
       isElectron p = true ->
       (fullSpeed p <? photonEmissionSpeedThreshold u) = true)
    (particles u) ->
  checkAndEmitPhotons M config u k = (u, k).
Proof.
  intros H. unfold checkAndEmitPhotons.
  rewrite (checkAndEmitPhotons_loop_slow u k H), app_nil_r.
  now rewrite set_particles_same.
Qed.

(** A call is made on an electron only; under the one-photon policy, on
    one whose flag is not set.  The call sets the flag. *)
Lemma emissionCall_fresh (u : Universe T) (p : Particle T) (k k' : nat)
    (args : T * T * T * T) :
  emissionCall M config u p k = (Some args, k') ->
  isElectron p = true
  /\ (onePhotonPerElectron config = true -> hasEmittedPhoton p = false).
Proof.
  unfold emissionCall, isElectron.
  destruct ((charge p >=? ofZ 0) || isPhoton p); [discriminate |].
  destruct (onePhotonPerElectron config); simpl.
  - destruct (hasEmittedPhoton p); [discriminate | auto].
  - intros _. split; [reflexivity | discriminate].
Qed.

Lemma fresh_after_call (u : Universe T) (p : Particle T)
    (speed avx avy avz r : T) :
  fresh (fst (managePhotonEmission config u p speed avx avy avz r)) = false.
Proof.
  unfold managePhotonEmission, fresh.
  destruct (enabled config), (mode3D u); simpl; apply andb_false_r.
Qed.

Lemma length_pushedBy (u : Universe T) (call : Particle T * (T * T * T * T)) :
  (length (pushedBy config u call) <= 1)%nat
  /\ (enabled config = true -> length (pushedBy config u call) = 1%nat).
Proof.
  destruct call as [p [[[speed avx] avy] avz]]. unfold pushedBy.
  unfold managePhotonEmission. destruct (enabled config); simpl; split;
    auto; discriminate.
Qed.

Lemma length_flat_map_pushedBy (u : Universe T)
    (calls : list (Particle T * (T * T * T * T))) :
  (length (flat_map (pushedBy config u) calls) <= length calls)%nat
  /\ (enabled config = true ->
      length (flat_map (pushedBy config u) calls) = length calls).
Proof.
  induction calls as [|c calls [IH1 IH2]]; simpl; [auto |].
  rewrite length_app. destruct (length_pushedBy u c) as [H1 H2]. split.
  - lia.
  - intros E. rewrite (H2 E), (IH2 E). reflexivity.
Qed.

(** X2. One photon per electron.  With [onePhotonPerElectron] on,
    [managePhotonEmission] is called only on electrons whose
    [hasEmittedPhoton] flag is not set, and each call sets it: the
    electrons that have not emitted yet after the sweep and the calls made
    add up to the electrons that had not emitted before it.  The photons
    created are at most as many as the calls, exactly as many when emission
    is enabled. *)
Theorem checkAndEmitPhotons_one_photon_per_electron (u : Universe T)
    (ps : list (Particle T)) (k : nat) :
  onePhotonPerElectron config = true ->
  let calls := emissionCalls M config u ps k in
  let ps' := fst (fst (checkAndEmitPhotons_loop M config u ps k)) in
  let newPhotons := snd (fst (checkAndEmitPhotons_loop M config u ps k)) in
  Forall (fun call => fresh (fst call) = true) calls
  /\ (length (filter fresh ps') + length calls)%nat = length (filter fresh ps)
  /\ (length newPhotons <= length calls)%nat
  /\ (enabled config = true -> length newPhotons = length calls).
Proof.
  intros Hone. cbv zeta.
  rewrite checkAndEmitPhotons_loop_calls.
  split; [| split; [| apply length_flat_map_pushedBy]].
  - revert k. induction ps as [|p ps IH]; intros k; simpl; [constructor |].
    destruct (emissionCall M config u p k) as [[args|] k1] eqn:Hcall;
      [| apply IH].
    constructor; [| apply IH].
    destruct (emissionCall_fresh u p k Hcall) as [He Hf].
    unfold fresh. simpl. now rewrite He, (Hf Hone).
  - revert k. induction ps as [|p ps IH]; intros k; simpl; [reflexivity |].
    unfold checkAndEmitPhotons_body.
    destruct (emissionCall M config u p k)
      as [[[[[speed avx] avy] avz]|] k1] eqn:Hcall.
    + destruct (emissionCall_fresh u p k Hcall) as [He Hf].
      pose proof (fresh_after_call u p speed avx avy avz lit_0_9) as Hafter.
      destruct (managePhotonEmission config u p speed avx avy avz lit_0_9)
        as [p' photon].
      specialize (IH k1).
      destruct (checkAndEmitPhotons_loop M config u ps k1)
        as [[rest' nps] k2].
      simpl in *. rewrite Hafter.
      assert (Hp : fresh p = true)
        by (unfold fresh; now rewrite He, (Hf Hone)).
      rewrite Hp. simpl. lia.
    + specialize (IH k1).
      destruct (checkAndEmitPhotons_loop M config u ps k1)
        as [[rest' nps] k2].
      simpl in *. destruct (fresh p); simpl; lia.
Qed.

End EmissionPolicy.

(** * Who is left alone by a step *)

Section Untouched.

Context {T : Type} {N : JsNumber T}.
Variable M : JsMath T.
Variable config : PhotonEmissionConfig.

Local Open Scope js_scope.

Lemma Forall2_refl_on (A : Type) (R : A -> A -> Prop) (l : list A) :
  (forall a, R a a) -> Forall2 R l l.
Proof. intros H. induction l; constructor; auto. Qed.

Lemma absorbScan_untouched (u : Universe T) (photon : Particle T)
    (ps : list (Particle T)) (k : nat) :
  forall ps' k',
    absorbScan M u photon ps k = Some (ps', k') ->
    Forall2 (fun p q => isElectron p = false -> q = p) ps ps'.
Proof.
  induction ps as [|p ps IH]; intros ps' k' H; cbn [absorbScan] in H;
    [discriminate |].
  destruct ((charge p >=? ofZ 0) || isPhoton p) eqn:Hskip.
  - destruct (absorbScan M u photon ps k) as [[rest' k0]|]; [| discriminate].
    injection H as <- <-. constructor; [reflexivity | now apply (IH rest' k0)].
  - destruct ((photonElectronDistance u photon p <? photonAbsorptionDistance u)
              && (age photon >=? photonMinAgeForAbsorption u)).
    + destruct (absorbPhoton M u photon p k) as [e' k0].
      injection H as <- <-. constructor.
      * unfold isElectron. rewrite Hskip. discriminate.
      * apply Forall2_refl_on. reflexivity.
    + destruct (absorbScan M u photon ps k) as [[rest' k0]|];
        [| discriminate].
      injection H as <- <-.
      constructor; [reflexivity | now apply (IH rest' k0)].
Qed.

Lemma isElectron_untouched_trans (ps qs rs : list (Particle T)) :
  Forall2 (fun p q => isElectron p = false -> q = p) ps qs ->
  Forall2 (fun p q => isElectron p = false -> q = p) qs rs ->
  Forall2 (fun p q => isElectron p = false -> q = p) ps rs.
Proof.
  apply Forall2_compose. intros a b c Hab Hbc Ha.
  pose proof (Hab Ha) as E. subst b. now apply Hbc.
Qed.

Lemma collisionLoop_untouched (u : Universe T) (idxs : list nat) :
  forall ps rm k,
    Forall2 (fun p q => isElectron p = false -> q = p) ps
      (fst (fst (collisionLoop M u idxs ps rm k))).
Proof.
  induction idxs as [|i idxs IH]; intros ps rm k; cbn [collisionLoop].
  - apply Forall2_refl_on. reflexivity.
  - destruct (nth_error ps i) as [photon|]; [| apply IH].
    destruct (negb (isPhoton photon)); [apply IH |].
    destruct (absorbScan M u photon ps k) as [[ps' k']|] eqn:Hscan;
      [| apply IH].
    eapply isElectron_untouched_trans; [| apply IH].
    eapply absorbScan_untouched; eassumption.
Qed.

(** Absorption leaves everything but electrons exactly as it was. *)
Lemma handlePhotonElectronCollisions_untouched (u : Universe T) (k : nat) :
  Forall2 (fun p q => isElectron p = false -> q = p)
    (filter (fun p => negb (absorbed u (particles u) p)) (particles u))
    (particles (fst (fst (handlePhotonElectronCollisions M u k)))).
Proof.
  unfold handlePhotonElectronCollisions.
  pose proof (collisionLoop_untouched u (seq 0 (length (particles u)))
                (particles u) [] k) as Hun.
  destruct (@collisionLoop_spec _ _ M u (particles u)
              (seq 0 (length (particles u))) (particles u) [] k)
    as [ps1 [k' [Hloop Hm]]].
  - apply Forall2_moved_refl.
  - apply seq_NoDup.
  - intros i _ [].
  - rewrite Hloop in *. cbn [fst snd particles set_particles app] in *.
    assert (Hlen : length (particles u) = length ps1)
      by (eapply Forall2_length; eassumption).
    rewrite Hlen, fold_splice1_filter.
    rewrite (keepAt_as_filter _
               (fun p => negb (absorbed u (particles u) p))).
    + apply Forall2_weaken
        with (R := fun p q => moved u p q /\ (isElectron p = false -> q = p));
        [tauto |].
      apply Forall2_filter.
      * intros a b [Hab _]. now rewrite (absorbed_moved (particles u) Hab).
      * clear Hloop Hlen. revert Hun.
        induction Hm as [|a b l l' Hab _ IHm]; intros Hun; [constructor |].
        inversion Hun; subst. constructor; [tauto | now apply IHm].
    + intros j q Hj. simpl.
      pose proof (Forall2_nth_error_r j Hm) as Hnth. rewrite Hj in Hnth.
      destruct Hnth as [p [Hp Hmv]].
      unfold absorbedAt. rewrite Hp.
      now rewrite (absorbed_moved (particles u) Hmv).
Qed.

Lemma checkAndEmitPhotons_loop_untouched (u : Universe T)
    (ps : list (Particle T)) :
  forall k,
    Forall2 (fun p q => isElectron p = false -> q = p) ps
      (fst (fst (checkAndEmitPhotons_loop M config u ps k))).
Proof.
  induction ps as [|p ps IH]; intros k; cbn [checkAndEmitPhotons_loop].
  - constructor.
  - unfold checkAndEmitPhotons_body.
    destruct (emissionCall M config u p k)
      as [[[[[speed avx] avy] avz]|] k1] eqn:Hcall.
    + destruct (emissionCall_fresh M config u p k Hcall) as [He _].
      destruct (managePhotonEmission config u p speed avx avy avz lit_0_9)
        as [p' photon].
      specialize (IH k1).
      destruct (checkAndEmitPhotons_loop M config u ps k1)
        as [[rest' nps] k2].
      cbn [fst snd] in *. constructor; [congruence | exact IH].
    + specialize (IH k1).
      destruct (checkAndEmitPhotons_loop M config u ps k1)
        as [[rest' nps] k2].
      cbn [fst snd] in *. constructor; [reflexivity | exact IH].
Qed.

End Untouched.

(** ** The step, particle by particle *)

Section StepStructure.

Context {T : Type} {N : JsNumber T}.
Variable M : JsMath T.
Variable config : PhotonEmissionConfig.

Local Open Scope js_scope.

Lemma Forall2_conj (A B : Type) (R R' : A -> B -> Prop) (l : list A)
    (l' : list B) :
  Forall2 R l l' -> Forall2 R' l l' ->
  Forall2 (fun a b => R a b /\ R' a b) l l'.
Proof.
  induction 1 as [|a b l l' Hab _ IH]; intros H'; inversion H'; subst;
    constructor; auto.
Qed.

(** The particles on which the integrator runs: the survivors of
    absorption, then the photons emitted in this step. *)
Lemma beforeMotion_kept (u : Universe T) (k : nat) :
  exists survivors emitted,
    beforeMotion M config u k = survivors ++ emitted
    /\ Forall2 (kept u)
         (filter (fun p => negb (absorbed u (particles u) p)) (particles u))
         survivors
    /\ Forall
         (fun ph =>
            isPhoton ph = true /\ charge ph = ofZ 0 /\ mass ph = ofZ 0
            /\ fixed ph = false /\ age ph = ofZ 0
            /\ hasEmittedPhoton ph = false)
         emitted
    /\ (enabled config = false -> emitted = []).
Proof.
  unfold beforeMotion.
  pose proof (handlePhotonElectronCollisions_untouched M u (S k)) as Hun.
  destruct (handlePhotonElectronCollisions_spec M u (S k))
    as [ps1 [k1 [Hh Hm]]].
  rewrite Hh in *. unfold checkAndEmitPhotons.
  set (u1 := set_particles u _) in *.
  pose proof (checkAndEmitPhotons_loop_carried M config u1 (particles u1) k1)
    as [Hc Hph].
  pose proof (checkAndEmitPhotons_loop_untouched M config u1 (particles u1) k1)
    as Hun2.
  assert (Hoff : enabled config = false ->
                 snd (fst (checkAndEmitPhotons_loop M config u1
                             (particles u1) k1)) = []).
  { intros Hoff. now apply checkAndEmitPhotons_loop_disabled. }
  destruct (checkAndEmitPhotons_loop M config u1 (particles u1) k1)
    as [[ps2 nps] k2].
  cbn [fst snd particles set_particles] in *. unfold u1 in *.
  cbn [fst snd particles set_particles] in *. rewrite map_app.
  exists (map resetForce ps2), (map resetForce nps).
  split; [reflexivity |]. split; [| split].
  - set (survivors0 := filter (fun p => negb (absorbed u (particles u) p))
                         (particles u)) in *.
    set (survivors1 := filter (fun p => negb (absorbed u (particles u) p))
                         ps1) in *.
    assert (H01 : Forall2 (fun p q => carried u p q
                                      /\ (isElectron p = false -> q = p))
                    survivors0 survivors1).
    { apply Forall2_conj; [| exact Hun].
      apply Forall2_weaken with (R := moved u);
        [intros a b; apply moved_carried |].
      apply Forall2_filter; [| exact Hm].
      intros a b Hab. now rewrite (absorbed_moved (particles u) Hab). }
    assert (H12 : Forall2 (fun p q => carried u p q
                                      /\ (isElectron p = false -> q = p))
                    survivors1 ps2)
      by (apply Forall2_conj; assumption).
    assert (H23 : Forall2 (fun p q => q = resetForce p) ps2
                    (map resetForce ps2))
      by (apply Forall2_map_r; reflexivity).
    apply Forall2_compose
      with (R1 := fun p q => carried u p q /\ (isElectron p = false -> q = p))
           (R2 := fun p q => q = resetForce p) (l2 := ps2);
      [| | exact H23].
    + intros a b c [C1 U1] ->. split.
      * eapply carried_trans; [exact C1 |].
        unfold carried, resetForce. simpl. tauto.
      * intros Ha. now rewrite (U1 Ha).
    + eapply Forall2_compose; [| exact H01 | exact H12].
      intros a b c [C1 U1] [C2 U2]. split.
      * eapply carried_trans; eassumption.
      * intros Ha. pose proof (U1 Ha) as E. subst b. now apply U2.
  - apply Forall_map. eapply Forall_impl; [| exact Hph].
    unfold resetForce. simpl. tauto.
  - intros Hoff'. now rewrite (Hoff Hoff').
Qed.

Lemma moveAll_moves (u : Universe T) (ps : list (Particle T)) :
  forall forces,
    length forces = length ps -> Forall2 (moves u) ps (moveAll u ps forces).
Proof.
  induction ps as [|p ps IH]; intros [|f forces] Hlen; simpl in *;
    try discriminate; constructor.
  - now exists f.
  - apply IH. lia.
Qed.

Lemma moves_settings (u u' : Universe T) (p q : Particle T) :
  sameSettings u u' -> moves u' p q -> moves u p q.
Proof. unfold sameSettings. intros ->. auto. Qed.

(** The particles after a step, from the ones [beforeMotion] lists. *)
Lemma step_moves (u : Universe T) (k : nat) :
  Forall2 (moves u) (beforeMotion M config u k)
    (particles (fst (step M config u k))).
Proof.
  unfold step, beforeMotion.
  pose proof (handlePhotonElectronCollisions_settings M u (S k)) as H1.
  destruct (handlePhotonElectronCollisions M u (S k)) as [[u1 n] k1].
  pose proof (checkAndEmitPhotons_settings M config u1 k1) as H2.
  destruct (checkAndEmitPhotons M config u1 k1) as [u2 k2].
  simpl in *.
  eapply Forall2_weaken; [| apply moveAll_moves, length_accumulateForces].
  intros a b. apply moves_settings.
  eapply sameSettings_trans; eassumption.
Qed.

(** A step, particle by particle: the particles after [step()] are, in
    order, what the integrator makes of the survivors of absorption as
    [kept] describes them, then what it makes of the photons emitted in
    this step. *)
Lemma step_structure (u : Universe T) (k : nat) :
  exists survivors emitted,
    particles (fst (step M config u k)) = survivors ++ emitted
    /\ Forall2 (fun p q => exists p', kept u p p' /\ moves u p' q)
         (filter (fun p => negb (absorbed u (particles u) p)) (particles u))
         survivors
    /\ Forall
         (fun q =>
            exists ph,
              (isPhoton ph = true /\ charge ph = ofZ 0 /\ mass ph = ofZ 0
               /\ fixed ph = false /\ age ph = ofZ 0
               /\ hasEmittedPhoton ph = false)
              /\ moves u ph q)
         emitted
    /\ (enabled config = false -> emitted = []).
Proof.
  destruct (beforeMotion_kept u k) as [s0 [e0 [Hb [Hs [He Hoff]]]]].
  pose proof (step_moves u k) as Hmv. rewrite Hb in Hmv.
  apply Forall2_app_inv_l in Hmv.
  destruct Hmv as [survivors [emitted [Hs' [He' Heq]]]].
  exists survivors, emitted. split; [exact Heq |]. split; [| split].
  - eapply Forall2_compose; [| exact Hs | exact Hs'].
    intros a b c Hab Hbc. now exists b.
  - clear Hoff Hb Heq. induction He' as [|a b l l' Hab _ IH]; constructor.
    + exists a. split; [| exact Hab]. now inversion He.
    + apply IH. now inversion He.
  - intros H. specialize (Hoff H). subst e0. now inversion He'.
Qed.

(** X3. What a step does to the population: the particles after [step()]
    are, in order, the particles before it minus the absorbed photons,
    followed by the photons emitted during the step.  Each survivor has
    kept its kind, charge, mass, [fixed] flag and energy; a
    [hasEmittedPhoton] flag that was set is still set; a photon's age has
    grown by exactly one and no other particle's age has changed; in 2D
    mode [z] and [vz] are untouched.  The emitted photons end the step
    with age [0 + 1], and there are none when emission is disabled. *)
Theorem step_population (u : Universe T) (k : nat) :
  exists survivors emitted,
    particles (fst (step M config u k)) = survivors ++ emitted
    /\ Forall2 (stepped u)
         (filter (fun p => negb (absorbed u (particles u) p)) (particles u))
         survivors
    /\ Forall newborn emitted
    /\ (enabled config = false -> emitted = []).
Proof.
  destruct (step_structure u k) as [survivors [emitted [Heq [Hs [He Hoff]]]]].
  exists survivors, emitted. split; [exact Heq |]. split; [| split].
  - eapply Forall2_weaken; [| exact Hs].
    intros a b [p' [[Hc _] [f ->]]].
    eapply carried_stepped; [exact Hc |]. apply updateParticleMotion_stepped.
  - eapply Forall_impl; [| exact He].
    intros q [ph [[A1 [A2 [A3 [A4 [A5 A6]]]]] [f ->]]].
    destruct (updateParticleMotion_stepped u ph (fx f) (fy f) (fz f))
      as [B1 [B2 [B3 [B4 [B5 [B6 [B7 B8]]]]]]].
    unfold newborn. rewrite B1, B2, B3, B4, B6, A1, A2, A3, A4, A5.
    repeat split; reflexivity.
  - exact Hoff.
Qed.

Lemma isPhoton_not_electron (p : Particle T) :
  isPhoton p = true -> isElectron p = false.
Proof. unfold isElectron. intros ->. now rewrite orb_true_r. Qed.

(** X4. The flight of a photon.  A photon that is not absorbed leaves
    [step()] exactly as [applyBoundaryConditions] of its position advanced
    by velocity times [dt] and its age by one (the diagnostic force reset
    to zero): nothing else in the universe, no other particle, no force, no
    setting but [size], [dt] and [mode3D], has any influence on it. *)
Theorem step_photon_flight (u : Universe T) (k : nat) :
  exists survivors emitted,
    particles (fst (step M config u k)) = survivors ++ emitted
    /\ Forall2
         (fun p q =>
            isPhoton p = true ->
            q = applyBoundaryConditions u (advancePhoton u (resetForce p)))
         (filter (fun p => negb (absorbed u (particles u) p)) (particles u))
         survivors.
Proof.
  destruct (step_structure u k) as [survivors [emitted [Heq [Hs _]]]].
  exists survivors, emitted. split; [exact Heq |].
  eapply Forall2_weaken; [| exact Hs].
  intros a b [p' [[_ Hun] [f ->]]] Hph.
  rewrite (Hun (isPhoton_not_electron a Hph)).
  unfold updateParticleMotion, resetForce. cbn [isPhoton set_forceElectro].
  now rewrite Hph.
Qed.

(** X5. Particles the integrator skips stay where they are through a whole
    step.  A non-photon that is [fixed], or of charge [> 0] while
    [staticProtons] is on, has the same position after [step()] as before
    it; and unless it is an electron, which emission and absorption may
    still speed up or slow down, nothing of it changes but the diagnostic
    force. *)
Theorem step_skipped_stay (u : Universe T) (k : nat) :
  exists survivors emitted,
    particles (fst (step M config u k)) = survivors ++ emitted
    /\ Forall2
         (fun p q =>
            isPhoton p = false -> skipped u p = true ->
            (x q = x p /\ y q = y p /\ z q = z p)
            /\ (isElectron p = false -> sameButForce p q))
         (filter (fun p => negb (absorbed u (particles u) p)) (particles u))
         survivors.
Proof.
  destruct (step_structure u k) as [survivors [emitted [Heq [Hs _]]]].
  exists survivors, emitted. split; [exact Heq |].
  eapply Forall2_weaken; [| exact Hs].
  intros a b [p' [[Hc Hun] [f ->]]] Hph Hskip.
  destruct Hc as [C1 [C2 [C3 [C4 [C5 [C6 [C7 [[C8 [C9 C10]] C11]]]]]]]].
  assert (Hq : updateParticleMotion u p' (fx f) (fy f) (fz f)
               = set_forceElectro p' (fx f) (fy f) (fz f)).
  { unfold updateParticleMotion. rewrite C1, Hph.
    cbn [fixed charge set_forceElectro]. rewrite C4, C2.
    unfold skipped in Hskip.
    destruct (fixed a); [reflexivity |]. cbn [orb] in Hskip.
    now rewrite Hskip. }
  rewrite Hq. split.
  - cbn [x y z set_forceElectro]. auto.
  - intros He. rewrite (Hun He). unfold sameButForce, resetForce.
    reflexivity.
Qed.

End StepStructure.

Section Matter.

Context {T : Type} {N : JsNumber T}.
Variable M : JsMath T.
Variable config : PhotonEmissionConfig.

Local Open Scope js_scope.

Lemma Forall2_map_eq (A B C : Type) (R : A -> B -> Prop) (f : A -> C)
    (g : B -> C) (l : list A) (l' : list B) :
  (forall a b, R a b -> f a = g b) -> Forall2 R l l' -> map f l = map g l'.
Proof.
  intros Hfg H. induction H as [|a b l l' Hab _ IH]; simpl.
  - reflexivity.
  - now rewrite (Hfg a b Hab), IH.
Qed.

Lemma filter_photons_nil (l : list (Particle T)) :
  Forall (fun p => isPhoton p = true) l -> filter isNonPhoton l = [].
Proof.
  induction 1 as [|p l Hp _ IH]; simpl; [reflexivity |].
  unfold isNonPhoton at 1. now rewrite Hp.
Qed.

Lemma filter_nonPhoton_survivors (u : Universe T) (ps l : list (Particle T)) :
  filter isNonPhoton (filter (fun p => negb (absorbed u ps p)) l)
  = filter isNonPhoton l.
Proof.
  induction l as [|p l IH]; simpl; [reflexivity |].
  unfold absorbed at 1, isNonPhoton at 2.
  destruct (isPhoton p) eqn:Hph; simpl.
  - destruct (existsb (collides u p) ps); simpl; [exact IH |].
    unfold isNonPhoton at 1. rewrite Hph. exact IH.
  - unfold isNonPhoton at 1. rewrite Hph. simpl. now rewrite IH.
Qed.

(** One step neither creates nor removes a non-photon, nor changes its
    charge, mass or [fixed] flag. *)
Lemma step_matter (u : Universe T) (k : nat) :
  matter (fst (step M config u k)) = matter u.
Proof.
  destruct (step_structure M config u k)
    as [survivors [emitted [Heq [Hs [He _]]]]].
  unfold matter. rewrite Heq, filter_app.
  rewrite (filter_photons_nil (l := emitted)), app_nil_r.
  - rewrite <- (filter_nonPhoton_survivors u (particles u) (particles u)).
    symmetry.
    apply Forall2_map_eq with (R := stepped u).
    + intros a b [B1 [B2 [B3 [B4 _]]]]. congruence.
    + apply Forall2_filter.
      * intros a b [B1 _]. unfold isNonPhoton. now rewrite B1.
      * eapply Forall2_weaken; [| exact Hs].
        intros a b [p' [[Hc _] [f ->]]].
        eapply carried_stepped; [exact Hc |].
        apply updateParticleMotion_stepped.
  - eapply Forall_impl; [| exact He].
    intros q [ph [[A1 _] [f ->]]].
    destruct (updateParticleMotion_stepped u ph (fx f) (fy f) (fz f))
      as [B1 _].
    congruence.
Qed.

(** X6. Across any number of steps, the universe keeps its settings and its
    matter: no non-photon particle is created or removed, none changes its
    charge, its mass or its [fixed] flag, and the order of the non-photons
    is kept.  Photons are the only particles that come and go. *)
Theorem runSteps_conserves_matter (n : nat) (u : Universe T) (k : nat) :
  sameSettings u (fst (runSteps M config n u k))
  /\ matter (fst (runSteps M config n u k)) = matter u.
Proof.
  revert u k. induction n as [|n IH]; intros u k; simpl.
  - split; [apply sameSettings_refl | reflexivity].
  - pose proof (step_settings M config u k) as Hs.
    pose proof (step_matter u k) as Hm.
    destruct (step M config u k) as [u1 k1]. simpl in *.
    destruct (IH u1 k1) as [IH1 IH2]. split.
    + eapply sameSettings_trans; eassumption.
    + congruence.
Qed.

End Matter.

(** * Absorption: what is removed is counted *)

Section Counting.

Variables (A B : Type).

Lemma length_filter_complement (f : A -> bool) (l : list A) :
  length (filter f l) + length (filter (fun a => negb (f a)) l) = length l.
Proof.
  induction l as [|a l IH]; simpl; [reflexivity |].
  destruct (f a); simpl; lia.
Qed.

Lemma length_filter_le (f g : A -> bool) (l : list A) :
  (forall a, f a = true -> g a = true) ->
  length (filter f l) <= length (filter g l).
Proof.
  intros H. induction l as [|a l IH]; simpl; [lia |].
  destruct (f a) eqn:E.
  - rewrite (H a E). simpl. lia.
  - destruct (g a); simpl; lia.
Qed.

Lemma length_filter_Forall2 (R : A -> B -> Prop)
    (f : A -> bool) (g : B -> bool) (l : list A) (l' : list B) :
  (forall a b, R a b -> f a = g b) -> Forall2 R l l' ->
  length (filter f l) = length (filter g l').
Proof.
  intros Hfg H.
  exact (Forall2_length (Forall2_filter f g Hfg H)).
Qed.

(** Counting the indices of [l] whose element satisfies [P] counts the
    elements that satisfy it. *)
Lemma length_filter_indices (P : A -> bool) (l : list A) :
  length
    (filter (fun i => match nth_error l i with Some a => P a | None => false end)
       (seq 0 (length l)))
  = length (filter P l).
Proof.
  pose proof (length_keepAt_filter
                (fun i => match nth_error l i with
                          | Some a => P a
                          | None => false
                          end) 0 l) as H.
  rewrite (keepAt_as_filter _ (fun a => negb (P a))) in H.
  - pose proof (length_filter_complement P l). lia.
  - intros j q Hj. simpl. now rewrite Hj.
Qed.

End Counting.

Section AbsorptionCount.

Context {T : Type} {N : JsNumber T}.
Variable M : JsMath T.

Local Open Scope js_scope.

(** X8. The number [handlePhotonElectronCollisions] returns is the number of
    particles it removed: it is the number of photons that had an electron
    within reach, the particles left and the particles removed add up to
    the particles there were, and as many non-photons are left as there
    were. *)
Theorem handlePhotonElectronCollisions_count (u : Universe T) (k : nat) :
  let u' := fst (fst (handlePhotonElectronCollisions M u k)) in
  let removed := snd (fst (handlePhotonElectronCollisions M u k)) in
  removed = length (filter (absorbed u (particles u)) (particles u))
  /\ (length (particles u') + removed)%nat = length (particles u)
  /\ (removed <= length (filter (fun p => isPhoton p) (particles u)))%nat
  /\ length (filter isNonPhoton (particles u'))
     = length (filter isNonPhoton (particles u)).
Proof.
  cbv zeta.
  destruct (handlePhotonElectronCollisions_spec M u k) as [ps1 [k' [Hh Hm]]].
  rewrite Hh. cbn [fst snd]. unfold set_particles at 1 2. cbn [particles].
  assert (Hcount :
            length (filter (absorbedAt u (particles u))
                      (seq 0 (length (particles u))))
            = length (filter (absorbed u (particles u)) (particles u))).
  { apply (length_filter_indices (absorbed u (particles u))). }
  assert (Hleft :
            length (filter (fun p => negb (absorbed u (particles u) p)) ps1)
            = length (filter (fun p => negb (absorbed u (particles u) p))
                        (particles u))).
  { symmetry. apply length_filter_Forall2 with (R := moved u); [| exact Hm].
    intros a b Hab. now rewrite (absorbed_moved (particles u) Hab). }
  rewrite Hcount, Hleft. split; [reflexivity |]. split; [| split].
  - pose proof (length_filter_complement (absorbed u (particles u))
                  (particles u)). lia.
  - apply length_filter_le. intros a Ha. unfold absorbed in Ha.
    now apply andb_true_iff in Ha.
  - rewrite filter_nonPhoton_survivors. symmetry.
    apply length_filter_Forall2 with (R := moved u); [| exact Hm].
    intros a b [Hab _]. unfold isNonPhoton.
    now rewrite (sameBody_isPhoton Hab).
Qed.

End AbsorptionCount.

(** * Photons take no part in the forces *)

Section PhotonForces.

Context {T : Type} {N : JsNumber T}.

Local Open Scope js_scope.

Lemma fold_left_ext_in (A B : Type) (f g : A -> B -> A) (l : list B) :
  (forall a b, In b l -> f a b = g a b) ->
  forall a, fold_left f l a = fold_left g l a.
Proof.
  induction l as [|b l IH]; intros H a; simpl.
  - reflexivity.
  - rewrite (H a b) by now left. apply IH. intros a' b' Hb'. apply H.
    now right.
Qed.

Lemma samePlaceholder_nth_error (ps ps' : list (Particle T)) (i : nat) :
  Forall2 samePlaceholder ps ps' ->
  nonPhotonAt ps' i = nonPhotonAt ps i
  /\ (nonPhotonAt ps i = true -> nth_error ps' i = nth_error ps i).
Proof.
  intros H. unfold nonPhotonAt. revert i.
  induction H as [|p q l l' Hpq _ IH]; intros [|i]; simpl; auto.
  unfold samePlaceholder in Hpq.
  destruct (isPhoton p) eqn:E.
  - rewrite Hpq. simpl. split; [reflexivity | discriminate].
  - subst q. rewrite E. auto.
Qed.

Lemma nonPhotonPairs_samePlaceholder (ps ps' : list (Particle T)) :
  Forall2 samePlaceholder ps ps' -> nonPhotonPairs ps' = nonPhotonPairs ps.
Proof.
  intros H. unfold nonPhotonPairs, pairsFrom.
  rewrite <- (Forall2_length H).
  assert (Hf : forall l, filter (nonPhotonAt ps') l = filter (nonPhotonAt ps) l).
  { intros l. apply filter_ext. intros i.
    apply (samePlaceholder_nth_error i H). }
  rewrite Hf. apply flat_map_ext. intros i. now rewrite Hf.
Qed.

Lemma addFieldForce_samePlaceholder (field : Particle T -> Force T)
    (ps ps' : list (Particle T)) :
  Forall2 samePlaceholder ps ps' ->
  forall forces,
    addFieldForce field ps' forces = addFieldForce field ps forces.
Proof.
  induction 1 as [|p q l l' Hpq _ IH]; intros [|f forces]; simpl;
    try reflexivity.
  rewrite IH. f_equal. unfold samePlaceholder in Hpq.
  destruct (isPhoton p) eqn:E.
  - now rewrite Hpq.
  - subst q. now rewrite E.
Qed.

Lemma pairOuter_samePlaceholder (u : Universe T) (ps ps' : list (Particle T))
    (forces : list (Force T)) :
  Forall2 samePlaceholder ps ps' ->
  pairOuter u ps' (seq 0 (length ps')) forces
  = pairOuter u ps (seq 0 (length ps)) forces.
Proof.
  intros H. rewrite !pairOuter_fold.
  fold (nonPhotonPairs ps') (nonPhotonPairs ps).
  rewrite (nonPhotonPairs_samePlaceholder H).
  apply fold_left_ext_in. intros fs [i j] Hij.
  apply nonPhotonPairs_spec in Hij. destruct Hij as [_ [Hi Hj]].
  unfold applyPair. simpl.
  destruct (samePlaceholder_nth_error i H) as [_ Ei].
  destruct (samePlaceholder_nth_error j H) as [_ Ej].
  now rewrite (Ei Hi), (Ej Hj).
Qed.

Lemma nth_error_applyPair_other (u : Universe T) (ps : list (Particle T))
    (forces : list (Force T)) (i j l : nat) :
  l <> i -> l <> j ->
  nth_error (applyPair u ps forces (i, j)) l = nth_error forces l.
Proof.
  intros Hi Hj. unfold applyPair. simpl.
  destruct (nth_error ps i); [| reflexivity].
  destruct (nth_error ps j); [| reflexivity].
  unfold accumulatePair.
  now rewrite !nth_error_updateAt_other by congruence.
Qed.

Lemma nth_error_fold_applyPair (u : Universe T) (ps : list (Particle T))
    (pairs : list (nat * nat)) (l : nat) :
  (forall i j, In (i, j) pairs -> l <> i /\ l <> j) ->
  forall forces,
    nth_error (fold_left (applyPair u ps) pairs forces) l
    = nth_error forces l.
Proof.
  induction pairs as [|[i j] pairs IH]; intros H forces; simpl.
  - reflexivity.
  - rewrite IH.
    + destruct (H i j) as [Hi Hj]; [now left |].
      now apply nth_error_applyPair_other.
    + intros i' j' Hin. apply H. now right.
Qed.

Lemma nth_error_addFieldForce_photon (field : Particle T -> Force T)
    (ps : list (Particle T)) (l : nat) (p : Particle T) :
  nth_error ps l = Some p -> isPhoton p = true ->
  forall forces,
    nth_error (addFieldForce field ps forces) l = nth_error forces l.
Proof.
  revert l. induction ps as [|a ps IH]; intros [|l] Hl Hph [|f forces];
    simpl in *; try discriminate; try reflexivity.
  - injection Hl as ->. now rewrite Hph.
  - now apply IH.
Qed.

(** X9. Photons exert no force.  The forces [step] accumulates stay the same,
    entry by entry, when the photons of the list are replaced by any other
    photons: no photon's position, velocity, energy or charge is read by
    the pairwise loop or by the two field loops. *)
Theorem accumulateForces_ignores_photons (u : Universe T)
    (ps ps' : list (Particle T)) :
  Forall2 samePlaceholder ps ps' ->
  accumulateForces u ps' = accumulateForces u ps.
Proof.
  intros H. unfold accumulateForces.
  rewrite (pairOuter_samePlaceholder u _ H).
  assert (Hmap : map (fun _ : Particle T => zeroForce) ps'
                 = map (fun _ : Particle T => zeroForce) ps).
  { clear u. induction H; simpl; congruence. }
  rewrite Hmap, !(addFieldForce_samePlaceholder _ H). reflexivity.
Qed.

(** X10. Photons feel no force.  The force [step] accumulates for a photon is
    the zero vector it starts from, whatever the other particles are and
    whichever of the strong force, gravity and ground gravity is
    enabled. *)
Theorem accumulateForces_photon_zero (u : Universe T)
    (ps : list (Particle T)) (l : nat) (p : Particle T) :
  nth_error ps l = Some p -> isPhoton p = true ->
  nth_error (accumulateForces u ps) l = Some zeroForce.
Proof.
  intros Hl Hph. unfold accumulateForces.
  assert (Hpairs :
            nth_error
              (pairOuter u ps (seq 0 (length ps))
                 (map (fun _ : Particle T => zeroForce) ps)) l
            = Some zeroForce).
  { rewrite pairOuter_fold. fold (nonPhotonPairs ps).
    rewrite nth_error_fold_applyPair.
    - rewrite nth_error_map, Hl. reflexivity.
    - intros i j Hij. apply nonPhotonPairs_spec in Hij.
      destruct Hij as [_ [Hi Hj]].
      unfold nonPhotonAt in Hi, Hj.
      split; intros ->; rewrite Hl, Hph in *; discriminate. }
  destruct (groundGravityEnabled u), (gravityEnabled u);
    rewrite ?(nth_error_addFieldForce_photon _ _ _ Hl Hph); exact Hpairs.
Qed.

End PhotonForces.

(** * The integrator on a particle that moves *)

Section Euler.

Context {T : Type} {N : JsNumber T}.

Local Open Scope js_scope.

Lemma clampCoordinate_same (u : Universe T) (c : T) :
  (c <? ofZ 0) = false -> (c >? size u) = false -> clampCoordinate u c = c.
Proof. unfold clampCoordinate. now intros -> ->. Qed.

Lemma applyBoundaryConditions_inside (u : Universe T) (p : Particle T) :
  isPhoton p = false -> outOfBounds u p = false ->
  applyBoundaryConditions u p = p.
Proof.
  intros Hph Hout.
  rewrite (applyBoundaryConditions_nonPhoton u p Hph), Hout.
  unfold outOfBounds in Hout.
  apply orb_false_iff in Hout. destruct Hout as [Hxy Hz].
  apply orb_false_iff in Hxy. destruct Hxy as [Hx Hy].
  apply orb_false_iff in Hx. destruct Hx as [X1 X2].
  apply orb_false_iff in Hy. destruct Hy as [Y1 Y2].
  rewrite (clampCoordinate_same u _ X1 X2), (clampCoordinate_same u _ Y1 Y2).
  destruct (mode3D u).
  - cbn [andb] in Hz. apply orb_false_iff in Hz. destruct Hz as [Z1 Z2].
    rewrite (clampCoordinate_same u _ Z1 Z2). now destruct p.
  - now destruct p.
Qed.

(** X11. The integration scheme.  For a non-photon that neither skip test
    holds back, [updateParticleMotion] is the boundary handler applied to
    the semi-implicit Euler update: the acceleration is [force / mass], the
    velocity grows by [acceleration * dt], and the position then advances
    by the new velocity times [dt]; in 2D mode [z], [vz] are left alone and
    the stored [accelerationZ] is [0].  When the new position is within
    bounds the handler changes nothing. *)
Theorem updateParticleMotion_euler (u : Universe T) (p : Particle T)
    (forceX forceY forceZ : T) :
  isPhoton p = false -> skipped u p = false ->
  let q := updateParticleMotion u p forceX forceY forceZ in
  let target :=
    integrate u (set_forceElectro p forceX forceY forceZ)
      forceX forceY forceZ in
  q = applyBoundaryConditions u target
  /\ (outOfBounds u target = false -> q = target)
  /\ (accelerationX target = forceX / mass p
      /\ accelerationY target = forceY / mass p
      /\ accelerationZ target
         = (if mode3D u then forceZ / mass p else ofZ 0))
  /\ (vx target = vx p + forceX / mass p * dt u
      /\ vy target = vy p + forceY / mass p * dt u
      /\ vz target
         = (if mode3D u then vz p + forceZ / mass p * dt u else vz p))
  /\ (x target = x p + vx target * dt u
      /\ y target = y p + vy target * dt u
      /\ z target = (if mode3D u then z p + vz target * dt u else z p))
  /\ (forceElectroX target = forceX /\ forceElectroY target = forceY
      /\ forceElectroZ target = forceZ).
Proof.
  intros Hph Hskip q target.
  unfold skipped in Hskip. apply orb_false_iff in Hskip.
  destruct Hskip as [Hf Hs].
  assert (Hq : q = applyBoundaryConditions u target)
    by (apply updateParticleMotion_movable; assumption).
  split; [exact Hq |]. split.
  - intros Hout. rewrite Hq. apply applyBoundaryConditions_inside; [| exact Hout].
    unfold target. now rewrite integrate_isPhoton.
  - unfold target, integrate. destruct (mode3D u); cbn; repeat split.
Qed.

End Euler.

(** * The pairwise forces add up to zero *)

Section NetForce.

Local Open Scope R_scope.

Variable h : Force R -> R.
Hypothesis h_plus : forall f a, h (plusForce f a) = h a + h f.
Hypothesis h_minus : forall f a, h (minusForce f a) = h a - h f.
Hypothesis h_zero : h zeroForce = 0.

Lemma sumOf_updateAt (g : Force R -> Force R) (l : list (Force R)) (i : nat)
    (a : Force R) :
  nth_error l i = Some a ->
  sumOf h (updateAt i g l) = sumOf h l + (h (g a) - h a).
Proof.
  revert i. induction l as [|b l IH]; intros [|i] Hi; simpl in *;
    try discriminate.
  - injection Hi as ->. ring.
  - rewrite (IH i Hi). ring.
Qed.

Lemma sumOf_applyPair (u : Universe R) (ps : list (Particle R))
    (forces : list (Force R)) (i j : nat) :
  length forces = length ps -> In (i, j) (nonPhotonPairs ps) ->
  sumOf h (applyPair u ps forces (i, j)) = sumOf h forces
  /\ length (applyPair u ps forces (i, j)) = length ps.
Proof.
  intros Hlen Hin. apply nonPhotonPairs_spec in Hin.
  destruct Hin as [[Hij Hj] _].
  unfold applyPair. cbn [fst snd].
  destruct (nth_error ps i) as [pi|]; [| auto].
  destruct (nth_error ps j) as [pj|]; [| auto].
  unfold accumulatePair. rewrite !length_updateAt. split; [| exact Hlen].
  destruct (nth_error forces i) as [fi|] eqn:Hfi.
  2: { apply nth_error_None in Hfi. lia. }
  destruct (nth_error forces j) as [fj|] eqn:Hfj.
  2: { apply nth_error_None in Hfj. lia. }
  rewrite (@sumOf_updateAt _ _ j fj).
  - rewrite (@sumOf_updateAt _ _ i fi Hfi), h_plus, h_minus. ring.
  - rewrite nth_error_updateAt_other by lia. exact Hfj.
Qed.

Lemma sumOf_fold_applyPair (u : Universe R) (ps : list (Particle R))
    (pairs : list (nat * nat)) :
  (forall ij, In ij pairs -> In ij (nonPhotonPairs ps)) ->
  forall forces,
    length forces = length ps ->
    sumOf h (fold_left (applyPair u ps) pairs forces) = sumOf h forces.
Proof.
  induction pairs as [|[i j] pairs IH]; intros Hsub forces Hlen;
    cbn [fold_left]; [reflexivity |].
  destruct (@sumOf_applyPair u ps forces i j Hlen) as [Hsum Hlen'].
  { apply Hsub. now left. }
  rewrite IH; [exact Hsum | | exact Hlen'].
  intros ij Hij. apply Hsub. now right.
Qed.

Lemma sumOf_zeroForces (ps : list (Particle R)) :
  sumOf h (map (fun _ : Particle R => zeroForce) ps) = 0.
Proof.
  induction ps as [|p ps IH]; cbn [map sumOf fold_right]; [reflexivity |].
  fold (sumOf h (map (fun _ : Particle R => zeroForce) ps)).
  rewrite IH, h_zero. ring.
Qed.

Lemma sumOf_accumulateForces (u : Universe R) (ps : list (Particle R)) :
  gravityEnabled u = false -> groundGravityEnabled u = false ->
  sumOf h (accumulateForces u ps) = 0.
Proof.
  intros Hg Hgg. unfold accumulateForces. rewrite Hg, Hgg.
  rewrite pairOuter_fold. fold (nonPhotonPairs ps).
  rewrite sumOf_fold_applyPair.
  - apply sumOf_zeroForces.
  - auto.
  - apply length_map.
Qed.

End NetForce.

Section NetForceComponents.

Local Open Scope R_scope.

(** X12. The internal forces cancel.  In exact arithmetic, with gravity
    and ground gravity off and no two non-photons at the same place (where
    the code divides zero by zero), the forces [step] accumulates over all
    the particles add up to the zero vector, with or without the strong
    force: every pair's force is added to one particle and subtracted from
    the other. *)
Theorem accumulateForces_net_zero (u : Universe R) (ps : list (Particle R)) :
  gravityEnabled u = false -> groundGravityEnabled u = false ->
  apart u ps ->
  sumOf (@fx R) (accumulateForces u ps) = 0
  /\ sumOf (@fy R) (accumulateForces u ps) = 0
  /\ sumOf (@fz R) (accumulateForces u ps) = 0.
Proof.
  (* where two non-photons coincide the code divides zero by zero: the
     case is left out *)
  intros Hg Hgg _.
  repeat split; apply sumOf_accumulateForces; try assumption;
    try reflexivity; intros f a; unfold plusForce, minusForce;
    cbn [fx fy fz add sub R_JsNumber]; ring.
Qed.

End NetForceComponents.

(** * Energy accounting: what the three sums read *)

Section EnergyShape.

Context {T : Type} {N : JsNumber T}.

Local Open Scope js_scope.

Lemma energyInner_shift (u : Universe T) (p : Particle T)
    (l : list (Particle T)) (p1 : Particle T) (js : list nat) :
  forall acc,
    Energy.energyInner u (p :: l) p1 (map S js) acc
    = Energy.energyInner u l p1 js acc.
Proof.
  induction js as [|j js IH]; intros acc; simpl.
  - reflexivity.
  - destruct (nth_error l j) as [p2|]; [| apply IH].
    destruct (isPhoton p2); apply IH.
Qed.

Lemma energyOuter_shift (u : Universe T) (p : Particle T)
    (l : list (Particle T)) (idxs : list nat) :
  forall acc,
    Energy.energyOuter u (p :: l) (map S idxs) acc
    = Energy.energyOuter u l idxs acc.
Proof.
  induction idxs as [|i idxs IH]; intros acc; simpl.
  - reflexivity.
  - destruct (nth_error l i) as [p1|]; [| apply IH].
    destruct (isPhoton p1); [apply IH |].
    rewrite <- seq_shift, energyInner_shift. apply IH.
Qed.

Lemma energyInner_cons (u : Universe T) (q : Particle T)
    (l : list (Particle T)) (p1 : Particle T) (acc : T) :
  Energy.energyInner u (q :: l) p1 (seq 0 (length (q :: l))) acc
  = Energy.energyInner u l p1 (seq 0 (length l))
      (if isPhoton q then acc else acc + Energy.potentialEnergy u p1 q).
Proof.
  simpl. rewrite <- seq_shift, !energyInner_shift.
  now destruct (isPhoton q).
Qed.

Lemma energyOuter_cons (u : Universe T) (p : Particle T)
    (l : list (Particle T)) (acc : T) :
  Energy.energyOuter u (p :: l) (seq 0 (length (p :: l))) acc
  = Energy.energyOuter u l (seq 0 (length l))
      (if isPhoton p then acc
       else Energy.energyInner u l p (seq 0 (length l)) acc).
Proof.
  simpl. rewrite Nat.sub_0_r, <- seq_shift, !energyOuter_shift.
  destruct (isPhoton p); [reflexivity |].
  now rewrite energyInner_shift.
Qed.

Lemma potentialEnergy_samePlace (u : Universe T) (p1 p2 q1 q2 : Particle T) :
  samePlace p1 q1 -> samePlace p2 q2 ->
  Energy.potentialEnergy u q1 q2 = Energy.potentialEnergy u p1 p2.
Proof.
  unfold samePlace, Energy.potentialEnergy.
  intros [_ [-> [-> [-> ->]]]] [_ [-> [-> [-> ->]]]]. reflexivity.
Qed.

Lemma energyInner_samePlace (u : Universe T) (p1 q1 : Particle T)
    (l l' : list (Particle T)) :
  samePlace p1 q1 -> Forall2 samePlace l l' ->
  forall acc,
    Energy.energyInner u l' q1 (seq 0 (length l')) acc
    = Energy.energyInner u l p1 (seq 0 (length l)) acc.
Proof.
  intros H1. induction 1 as [|p q l l' Hpq _ IH]; intros acc.
  - reflexivity.
  - rewrite !energyInner_cons, IH.
    rewrite (potentialEnergy_samePlace u H1 Hpq).
    destruct Hpq as [-> _]. reflexivity.
Qed.

Lemma energyOuter_samePlace (u : Universe T) (l l' : list (Particle T)) :
  Forall2 samePlace l l' ->
  forall acc,
    Energy.energyOuter u l' (seq 0 (length l')) acc
    = Energy.energyOuter u l (seq 0 (length l)) acc.
Proof.
  induction 1 as [|p q l l' Hpq Hl IH]; intros acc.
  - reflexivity.
  - rewrite !energyOuter_cons, IH, (energyInner_samePlace u Hpq Hl).
    destruct Hpq as [-> _]. reflexivity.
Qed.

Lemma energyInner_filter (u : Universe T) (p1 : Particle T)
    (l : list (Particle T)) :
  forall acc,
    Energy.energyInner u (filter isNonPhoton l) p1
      (seq 0 (length (filter isNonPhoton l))) acc
    = Energy.energyInner u l p1 (seq 0 (length l)) acc.
Proof.
  induction l as [|q l IH]; intros acc; [reflexivity |].
  rewrite energyInner_cons. cbn [filter].
  replace (isNonPhoton q) with (negb (isPhoton q)) by reflexivity.
  destruct (isPhoton q) eqn:E; cbn [negb].
  - apply IH.
  - rewrite energyInner_cons, E. apply IH.
Qed.

Lemma energyOuter_filter (u : Universe T) (l : list (Particle T)) :
  forall acc,
    Energy.energyOuter u (filter isNonPhoton l)
      (seq 0 (length (filter isNonPhoton l))) acc
    = Energy.energyOuter u l (seq 0 (length l)) acc.
Proof.
  induction l as [|p l IH]; intros acc; [reflexivity |].
  rewrite energyOuter_cons. cbn [filter].
  replace (isNonPhoton p) with (negb (isPhoton p)) by reflexivity.
  destruct (isPhoton p) eqn:E; cbn [negb].
  - apply IH.
  - rewrite energyOuter_cons, E, energyInner_filter. apply IH.
Qed.

Lemma energyOuter_photons (u : Universe T) (l : list (Particle T)) :
  Forall (fun p => isPhoton p = true) l ->
  forall acc, Energy.energyOuter u l (seq 0 (length l)) acc = acc.
Proof.
  induction 1 as [|p l Hp _ IH]; intros acc; [reflexivity |].
  now rewrite energyOuter_cons, Hp, IH.
Qed.

Lemma energyInner_settings (u : Universe T) (l0 ps : list (Particle T))
    (p1 : Particle T) (js : list nat) :
  forall acc,
    Energy.energyInner (set_particles u l0) ps p1 js acc
    = Energy.energyInner u ps p1 js acc.
Proof.
  induction js as [|j js IH]; intros acc; simpl; [reflexivity |].
  destruct (nth_error ps j) as [p2|]; [| apply IH].
  destruct (isPhoton p2); apply IH.
Qed.

Lemma energyOuter_settings (u : Universe T) (l0 ps : list (Particle T))
    (idxs : list nat) :
  forall acc,
    Energy.energyOuter (set_particles u l0) ps idxs acc
    = Energy.energyOuter u ps idxs acc.
Proof.
  induction idxs as [|i idxs IH]; intros acc; simpl; [reflexivity |].
  destruct (nth_error ps i) as [p1|]; [| apply IH].
  destruct (isPhoton p1); [apply IH |].
  rewrite energyInner_settings. apply IH.
Qed.

(** The electrostatic energy reads the positions and charges of the
    non-photons, in order, and nothing else. *)
Lemma calculateTotalElectrostaticEnergy_matter (u u' : Universe T) :
  sameSettings u u' ->
  Forall2 samePlace (filter isNonPhoton (particles u))
    (filter isNonPhoton (particles u')) ->
  Energy.calculateTotalElectrostaticEnergy u'
  = Energy.calculateTotalElectrostaticEnergy u.
Proof.
  unfold sameSettings. intros -> H.
  unfold Energy.calculateTotalElectrostaticEnergy.
  cbn [particles set_particles] in *.
  rewrite energyOuter_settings.
  rewrite <- (energyOuter_filter u (particles u')),
          <- (energyOuter_filter u (particles u)).
  now apply energyOuter_samePlace.
Qed.

Lemma fold_kinetic_filter (u : Universe T) (l : list (Particle T)) :
  forall acc,
    fold_left
      (fun totalKE particle =>
         if isPhoton particle then totalKE
         else totalKE + Energy.kineticEnergy u particle)
      (filter isNonPhoton l) acc
    = fold_left
        (fun totalKE particle =>
           if isPhoton particle then totalKE
           else totalKE + Energy.kineticEnergy u particle)
        l acc.
Proof.
  induction l as [|p l IH]; intros acc; [reflexivity |].
  cbn [filter fold_left].
  replace (isNonPhoton p) with (negb (isPhoton p)) by reflexivity.
  destruct (isPhoton p) eqn:E; cbn [negb fold_left]; rewrite ?E; apply IH.
Qed.

Lemma fold_kinetic_photons (u : Universe T) (l : list (Particle T)) :
  Forall (fun p => isPhoton p = true) l ->
  forall acc,
    fold_left
      (fun totalKE particle =>
         if isPhoton particle then totalKE
         else totalKE + Energy.kineticEnergy u particle)
      l acc
    = acc.
Proof.
  induction 1 as [|p l Hp _ IH]; intros acc; [reflexivity |].
  cbn [fold_left]. rewrite Hp. apply IH.
Qed.

Lemma fold_photon_filter (l : list (Particle T)) :
  forall acc,
    fold_left
      (fun total particle =>
         if isPhoton particle then total + energy particle else total)
      (filter (fun p => isPhoton p) l) acc
    = fold_left
        (fun total particle =>
           if isPhoton particle then total + energy particle else total)
        l acc.
Proof.
  induction l as [|p l IH]; intros acc; [reflexivity |].
  cbn [filter fold_left].
  destruct (isPhoton p) eqn:E; cbn [fold_left]; rewrite ?E; apply IH.
Qed.

Lemma fold_photon_matter (l : list (Particle T)) :
  Forall (fun p => isPhoton p = false) l ->
  forall acc,
    fold_left
      (fun total particle =>
         if isPhoton particle then total + energy particle else total)
      l acc
    = acc.
Proof.
  induction 1 as [|p l Hp _ IH]; intros acc; [reflexivity |].
  cbn [fold_left]. rewrite Hp. apply IH.
Qed.

(** X13. What the three sums of [energy.js] read.  The kinetic and the
    electrostatic energy of a universe are those of its non-photons alone,
    and both are [0] for a universe of photons; the photon energy is that
    of its photons alone, and [0] for a universe without photons.  This
    holds for the numbers as the code computes them: a skipped particle
    leaves the running sum untouched. *)
Theorem energy_sums_by_kind (u : Universe T) :
  Energy.calculateTotalKineticEnergy (matterOnly u)
  = Energy.calculateTotalKineticEnergy u
  /\ Energy.calculateTotalElectrostaticEnergy (matterOnly u)
     = Energy.calculateTotalElectrostaticEnergy u
  /\ Energy.calculateTotalPhotonEnergy (matterOnly u) = ofZ 0
  /\ Energy.calculateTotalPhotonEnergy (lightOnly u)
     = Energy.calculateTotalPhotonEnergy u
  /\ Energy.calculateTotalKineticEnergy (lightOnly u) = ofZ 0
  /\ Energy.calculateTotalElectrostaticEnergy (lightOnly u) = ofZ 0.
Proof.
  assert (Hm : Forall (fun p : Particle T => isPhoton p = false)
                 (filter isNonPhoton (particles u))).
  { apply Forall_forall. intros p Hp. apply filter_In in Hp.
    destruct Hp as [_ Hp]. unfold isNonPhoton in Hp.
    now destruct (isPhoton p). }
  assert (Hl : Forall (fun p : Particle T => isPhoton p = true)
                 (filter (fun p => isPhoton p) (particles u))).
  { apply Forall_forall. intros p Hp. apply filter_In in Hp. tauto. }
  unfold matterOnly, lightOnly, Energy.calculateTotalKineticEnergy,
    Energy.calculateTotalPhotonEnergy, Energy.calculateTotalElectrostaticEnergy.
  rewrite !energyOuter_settings.
  cbn [particles set_particles].
  repeat split.
  - apply (fold_kinetic_filter u).
  - apply (energyOuter_filter u).
  - now apply fold_photon_matter.
  - apply fold_photon_filter.
  - now apply (fold_kinetic_photons u).
  - now apply (energyOuter_photons u).
Qed.

End EnergyShape.

(** * The pairwise forces in exact arithmetic *)

Section ForcesExact.

Local Open Scope R_scope.

Lemma separation_square (u : Universe R) (p1 p2 : Particle R) :
  separation u p1 p2 * separation u p1 p2
  = offsetX p1 p2 * offsetX p1 p2 + offsetY p1 p2 * offsetY p1 p2
    + offsetZ u p1 p2 * offsetZ u p1 p2.
Proof. unfold separation. apply sqrt_sqrt. nra. Qed.

Lemma norm_scaled (m a b c d : R) :
  0 < d -> d * d = a * a + b * b + c * c ->
  R_sqrt.sqrt (m * (a / d) * (m * (a / d)) + m * (b / d) * (m * (b / d))
               + m * (c / d) * (m * (c / d)))
  = Rabs m.
Proof.
  intros Hd Hsq.
  replace (m * (a / d) * (m * (a / d)) + m * (b / d) * (m * (b / d))
           + m * (c / d) * (m * (c / d)))
    with (Rsqr m * ((a * a + b * b + c * c) / (d * d)))
    by (unfold Rsqr; field; lra).
  rewrite <- Hsq.
  replace (d * d / (d * d)) with 1 by (field; lra).
  rewrite Rmult_1_r. apply sqrt_Rsqr_abs.
Qed.

Lemma calculateElectrostaticForce_components (u : Universe R)
    (p1 p2 : Particle R) :
  let d := separation u p1 p2 in
  let m := - (electrostaticCoefficient u * charge p1 * charge p2)
           / (d * d + 1 / 100) in
  calculateElectrostaticForce u p1 p2
  = {| fx := m * (offsetX p1 p2 / d);
       fy := m * (offsetY p1 p2 / d);
       fz := m * (offsetZ u p1 p2 / d) |}.
Proof.
  cbv zeta. rewrite separation_square.
  unfold calculateElectrostaticForce, separation, offsetX, offsetY, offsetZ,
    lit_0_01.
  cbn [add sub mul div neg Math_sqrt ofZ R_JsNumber].
  destruct (mode3D u); f_equal. unfold Rdiv. ring.
Qed.

(** X14. Coulomb's law as the code has it, in exact arithmetic, for two
    particles a positive distance [d] apart and a positive coefficient: the
    force on [p1] is [m] times the unit vector from [p1] to [p2], with
    [m = -(K q1 q2) / (d^2 + 0.01)]; so charges of opposite sign attract
    ([m > 0]), charges of the same sign repel ([m < 0]), and the force has
    magnitude [K |q1 q2| / (d^2 + 0.01)], which stays below [100 K |q1 q2|]
    however close the particles are. *)
Theorem calculateElectrostaticForce_coulomb (u : Universe R)
    (p1 p2 : Particle R) :
  0 < separation u p1 p2 ->
  0 < electrostaticCoefficient u ->
  let d := separation u p1 p2 in
  let m := - (electrostaticCoefficient u * charge p1 * charge p2)
           / (d * d + 1 / 100) in
  let f := calculateElectrostaticForce u p1 p2 in
  (fx f = m * (offsetX p1 p2 / d) /\ fy f = m * (offsetY p1 p2 / d)
   /\ fz f = m * (offsetZ u p1 p2 / d))
  /\ (charge p1 * charge p2 < 0 -> 0 < m)
  /\ (0 < charge p1 * charge p2 -> m < 0)
  /\ norm f
     = electrostaticCoefficient u * Rabs (charge p1 * charge p2)
       / (d * d + 1 / 100)
  /\ norm f
     <= 100 * electrostaticCoefficient u * Rabs (charge p1 * charge p2).
Proof.
  intros Hd HK d m f.
  assert (Hden : 0 < d * d + 1 / 100) by nra.
  assert (Hf : f = {| fx := m * (offsetX p1 p2 / d);
                      fy := m * (offsetY p1 p2 / d);
                      fz := m * (offsetZ u p1 p2 / d) |})
    by apply calculateElectrostaticForce_components.
  assert (Hnorm : norm f
                  = electrostaticCoefficient u * Rabs (charge p1 * charge p2)
                    / (d * d + 1 / 100)).
  { rewrite Hf. unfold norm. cbn [fx fy fz].
    rewrite (@norm_scaled m (offsetX p1 p2) (offsetY p1 p2)
               (offsetZ u p1 p2) d Hd (separation_square u p1 p2)).
    unfold m.
    replace (- (electrostaticCoefficient u * charge p1 * charge p2)
             / (d * d + 1 / 100))
      with (- (electrostaticCoefficient u / (d * d + 1 / 100))
            * (charge p1 * charge p2)) by (field; lra).
    rewrite Rabs_mult, Rabs_Ropp, Rabs_pos_eq.
    - field. lra.
    - apply Rlt_le, Rdiv_lt_0_compat; assumption. }
  split; [| split; [| split; [| split]]].
  - rewrite Hf. cbn [fx fy fz]. auto.
  - intros Hq. unfold m. apply Rdiv_lt_0_compat; [| exact Hden]. nra.
  - intros Hq. unfold m.
    assert (0 < electrostaticCoefficient u * charge p1 * charge p2
                / (d * d + 1 / 100)).
    { apply Rdiv_lt_0_compat; [nra | exact Hden]. }
    unfold Rdiv in *. rewrite Ropp_mult_distr_l_reverse. lra.
  - exact Hnorm.
  - rewrite Hnorm.
    pose proof (Rabs_pos (charge p1 * charge p2)) as Ha.
    apply Rle_trans
      with (electrostaticCoefficient u * Rabs (charge p1 * charge p2)
            / (1 / 100)); [| right; field].
    unfold Rdiv. apply Rmult_le_compat_l; [nra |].
    apply Rinv_le_contravar; nra.
Qed.

Lemma calculateStrongForce_components (u : Universe R) (p1 p2 : Particle R) :
  let d := separation u p1 p2 in
  let m := strongForceCoefficient u * (1 / 10000000000)
           / (d * d * (d * d)) in
  calculateStrongForce u p1 p2
  = {| fx := - m * (offsetX p1 p2 / d);
       fy := - m * (offsetY p1 p2 / d);
       fz := - m * (offsetZ u p1 p2 / d) |}.
Proof.
  cbv zeta. rewrite separation_square.
  unfold calculateStrongForce, separation, offsetX, offsetY, offsetZ,
    lit_1e_10.
  cbn [add sub mul div neg Math_sqrt ofZ R_JsNumber].
  destruct (mode3D u); f_equal. unfold Rdiv. ring.
Qed.

(** X15. The strong force in exact arithmetic, for two particles a positive
    distance [d] apart and a positive coefficient: whatever the charges,
    the force on [p1] points away from [p2] (it is [-m] times the unit
    vector from [p1] to [p2], [m > 0]) and has magnitude
    [m = K_strong * 1e-10 / d^4]. *)
Theorem calculateStrongForce_repulsive (u : Universe R) (p1 p2 : Particle R) :
  0 < separation u p1 p2 ->
  0 < strongForceCoefficient u ->
  let d := separation u p1 p2 in
  let m := strongForceCoefficient u * (1 / 10000000000)
           / (d * d * (d * d)) in
  let f := calculateStrongForce u p1 p2 in
  0 < m
  /\ (fx f = - m * (offsetX p1 p2 / d) /\ fy f = - m * (offsetY p1 p2 / d)
      /\ fz f = - m * (offsetZ u p1 p2 / d))
  /\ norm f = m
  /\ fx f * offsetX p1 p2 + fy f * offsetY p1 p2 + fz f * offsetZ u p1 p2
     = - m * d.
Proof.
  intros Hd HK d m f.
  assert (Hd2 : 0 < d * d) by (apply Rmult_lt_0_compat; exact Hd).
  assert (Hd4 : 0 < d * d * (d * d))
    by (apply Rmult_lt_0_compat; exact Hd2).
  assert (Hm : 0 < m).
  { unfold m. apply Rdiv_lt_0_compat; [lra | exact Hd4]. }
  assert (Hf : f = {| fx := - m * (offsetX p1 p2 / d);
                      fy := - m * (offsetY p1 p2 / d);
                      fz := - m * (offsetZ u p1 p2 / d) |})
    by apply calculateStrongForce_components.
  pose proof (separation_square u p1 p2) as Hsq. fold d in Hsq.
  split; [exact Hm |]. rewrite Hf. cbn [fx fy fz].
  split; [auto |]. split.
  - unfold norm. cbn [fx fy fz].
    rewrite (@norm_scaled (- m) (offsetX p1 p2) (offsetY p1 p2)
               (offsetZ u p1 p2) d Hd (separation_square u p1 p2)).
    rewrite Rabs_Ropp. apply Rabs_pos_eq. lra.
  - replace (- m * (offsetX p1 p2 / d) * offsetX p1 p2
             + - m * (offsetY p1 p2 / d) * offsetY p1 p2
             + - m * (offsetZ u p1 p2 / d) * offsetZ u p1 p2)
      with (- m * ((offsetX p1 p2 * offsetX p1 p2
                    + offsetY p1 p2 * offsetY p1 p2
                    + offsetZ u p1 p2 * offsetZ u p1 p2) / d))
      by (field; fold d in Hd; lra).
    rewrite <- Hsq. field. fold d in Hd. lra.
Qed.

(** X16. Newton's third law at the level of the force function, in exact
    arithmetic, for two particles a positive distance apart: exchanging
    the two particles negates the force, with or without the strong force,
    in 2D and 3D mode.  (The step applies each pair's force once to both
    particles; this says it does not matter which of the two is [p1].) *)
Theorem calculateForce_antisymmetric (u : Universe R) (p1 p2 : Particle R) :
  0 < separation u p1 p2 ->
  calculateForce u p2 p1 = negForce (calculateForce u p1 p2).
Proof.
  (* at distance 0 the code divides zero by zero: the case is left out *)
  intros _.
  assert (Hsep : separation u p2 p1 = separation u p1 p2).
  { unfold separation, offsetX, offsetY, offsetZ. f_equal.
    destruct (mode3D u); ring. }
  unfold calculateForce, negForce.
  rewrite !calculateElectrostaticForce_components,
          !calculateStrongForce_components, Hsep.
  unfold offsetX, offsetY, offsetZ.
  cbn [add sub mul div neg Math_sqrt ofZ R_JsNumber fx fy fz].
  destruct (strongForceEnabled u), (mode3D u);
    cbn [fx fy fz add neg ofZ R_JsNumber]; f_equal; unfold Rdiv; ring.
Qed.

End ForcesExact.

(** * Energy balance of emission and absorption, in exact arithmetic *)

Section EnergySums.

Local Open Scope R_scope.

Variable u : Universe R.

Lemma kineticSum_acc (l : list (Particle R)) :
  forall acc,
    fold_left
      (fun totalKE particle =>
         if isPhoton particle then totalKE
         else (totalKE + Energy.kineticEnergy u particle)%js)
      l acc
    = acc + kineticSum u l.
Proof.
  unfold kineticSum, Energy.calculateTotalKineticEnergy.
  cbn [particles set_particles].
  change (fun (totalKE : R) (particle : Particle R) =>
            if isPhoton particle then totalKE
            else (totalKE
                  + Energy.kineticEnergy (set_particles u l) particle)%js)
    with (fun (totalKE : R) (particle : Particle R) =>
            if isPhoton particle then totalKE
            else (totalKE + Energy.kineticEnergy u particle)%js).
  induction l as [|p l IH]; intros acc; cbn [fold_left].
  - cbn [ofZ R_JsNumber]. ring.
  - rewrite IH, (IH (if isPhoton p then _ else _)).
    destruct (isPhoton p); cbn [add ofZ R_JsNumber]; ring.
Qed.

Lemma kineticSum_cons (p : Particle R) (l : list (Particle R)) :
  kineticSum u (p :: l)
  = (if isPhoton p then 0 else Energy.kineticEnergy u p) + kineticSum u l.
Proof.
  unfold kineticSum at 1, Energy.calculateTotalKineticEnergy.
  cbn [particles set_particles fold_left].
  change (fun (totalKE : R) (particle : Particle R) =>
            if isPhoton particle then totalKE
            else (totalKE
                  + Energy.kineticEnergy (set_particles u (p :: l))
                      particle)%js)
    with (fun (totalKE : R) (particle : Particle R) =>
            if isPhoton particle then totalKE
            else (totalKE + Energy.kineticEnergy u particle)%js).
  rewrite kineticSum_acc.
  change (Energy.kineticEnergy (set_particles u (p :: l)) p)
    with (Energy.kineticEnergy u p).
  destruct (isPhoton p); cbn [add ofZ R_JsNumber]; ring.
Qed.

Lemma kineticSum_nil : kineticSum u [] = 0.
Proof. reflexivity. Qed.

Lemma kineticSum_app (l1 l2 : list (Particle R)) :
  kineticSum u (l1 ++ l2) = kineticSum u l1 + kineticSum u l2.
Proof.
  induction l1 as [|p l1 IH]; cbn [app].
  - rewrite kineticSum_nil. ring.
  - rewrite !kineticSum_cons, IH. ring.
Qed.

Lemma photonSum_acc (l : list (Particle R)) :
  forall acc,
    fold_left
      (fun total particle =>
         if isPhoton particle then (total + energy particle)%js else total)
      l acc
    = acc + photonSum u l.
Proof.
  unfold photonSum, Energy.calculateTotalPhotonEnergy.
  cbn [particles set_particles].
  induction l as [|p l IH]; intros acc; cbn [fold_left].
  - cbn [ofZ R_JsNumber]. ring.
  - rewrite IH, (IH (if isPhoton p then _ else _)).
    destruct (isPhoton p); cbn [add ofZ R_JsNumber]; ring.
Qed.

Lemma photonSum_cons (p : Particle R) (l : list (Particle R)) :
  photonSum u (p :: l)
  = (if isPhoton p then energy p else 0) + photonSum u l.
Proof.
  unfold photonSum at 1, Energy.calculateTotalPhotonEnergy.
  cbn [particles set_particles fold_left].
  rewrite photonSum_acc.
  destruct (isPhoton p); cbn [add ofZ R_JsNumber]; ring.
Qed.

Lemma photonSum_nil : photonSum u [] = 0.
Proof. reflexivity. Qed.

Lemma photonSum_app (l1 l2 : list (Particle R)) :
  photonSum u (l1 ++ l2) = photonSum u l1 + photonSum u l2.
Proof.
  induction l1 as [|p l1 IH]; cbn [app].
  - rewrite photonSum_nil. ring.
  - rewrite !photonSum_cons, IH. ring.
Qed.

Lemma kineticSum_photons (l : list (Particle R)) :
  Forall (fun p => isPhoton p = true) l -> kineticSum u l = 0.
Proof.
  induction 1 as [|p l Hp _ IH]; [reflexivity |].
  rewrite kineticSum_cons, Hp, IH. ring.
Qed.

Lemma kineticSum_settings (u' : Universe R) :
  sameSettings u u' ->
  Energy.calculateTotalKineticEnergy u' = kineticSum u (particles u').
Proof. unfold sameSettings. intros ->. reflexivity. Qed.

Lemma photonSum_settings (u' : Universe R) :
  sameSettings u u' ->
  Energy.calculateTotalPhotonEnergy u' = photonSum u (particles u').
Proof. unfold sameSettings. intros ->. reflexivity. Qed.

End EnergySums.

Section EmissionEnergy.

Variable M : JsMath R.
Variable config : PhotonEmissionConfig.

Local Open Scope R_scope.

Lemma scale_square : scale * scale = 1 / 10.
Proof. unfold scale. rewrite sqrt_sqrt; lra. Qed.

Lemma scaled_product (a b : R) : a * scale * (b * scale) = a * b * (1 / 10).
Proof. rewrite <- scale_square. ring. Qed.

Lemma isElectron_not_photon {T : Type} {N : JsNumber T} (p : Particle T) :
  isElectron p = true -> isPhoton p = false.
Proof.
  unfold isElectron. destruct (isPhoton p); [| reflexivity].
  now rewrite orb_true_r.
Qed.

(** One call of [managePhotonEmission] from the sweep: the electron keeps a
    tenth of its kinetic energy, and the photon's energy is nine tenths of
    [1/2 m_e speed^2]. *)
Lemma managePhotonEmission_energy (u : Universe R) (p : Particle R)
    (k k' : nat) (speed avx avy avz : R) :
  emissionCall M config u p k = (Some (speed, avx, avy, avz), k') ->
  let r := managePhotonEmission config u p speed avx avy avz lit_0_9 in
  isPhoton (fst r) = false /\ isPhoton p = false
  /\ Energy.kineticEnergy u (fst r) = 1 / 10 * Energy.kineticEnergy u p
  /\ match snd r with
     | Some ph =>
         isPhoton ph = true
         /\ energy ph
            = 9 / 10 * (1 / 2 * electronMass u
                        * (vx p * vx p + vy p * vy p
                           + activeVz u p * activeVz u p))
     | None => enabled config = false
     end.
Proof.
  intros Hcall.
  destruct (emissionCall_fresh M config u p k Hcall) as [He _].
  pose proof (isElectron_not_photon p He) as Hph.
  destruct (emissionCall_args M config u p k Hcall)
    as [-> [-> [Hz Hspeed]]].
  assert (Hz' : avz = activeVz u p) by (rewrite Hz; reflexivity).
  clear Hz. subst avz.
  assert (Hsq : speed * speed
                = vx p * vx p + vy p * vy p + activeVz u p * activeVz u p).
  { rewrite Hspeed. cbn [add mul Math_sqrt R_JsNumber].
    apply sqrt_sqrt. nra. }
  cbv zeta. unfold managePhotonEmission, Energy.kineticEnergy, lit_0_9,
    lit_0_5, activeVz in *.
  cbn [add sub mul div neg Math_sqrt ofZ R_JsNumber] in *.
  fold scale.
  destruct (enabled config), (mode3D u);
    cbn [fst snd x y z vx vy vz energy charge mass age isPhoton
         hasEmittedPhoton newParticle set_vx set_vy set_vz
         set_hasEmittedPhoton];
    rewrite ?div_reduction_factor, ?scaled_product;
    repeat split; try assumption; try reflexivity; try field.
  - rewrite Rmult_assoc, Hsq. field.
  - rewrite Rmult_assoc, Hsq. field.
Qed.

Lemma checkAndEmitPhotons_loop_energy (u : Universe R)
    (ps : list (Particle R)) :
  enabled config = true ->
  Forall (fun p => isElectron p = true -> mass p = electronMass u) ps ->
  forall k,
    kineticSum u (fst (fst (checkAndEmitPhotons_loop M config u ps k)))
    + photonSum u (snd (fst (checkAndEmitPhotons_loop M config u ps k)))
    = kineticSum u ps
    /\ photonSum u (fst (fst (checkAndEmitPhotons_loop M config u ps k)))
       = photonSum u ps.
Proof.
  intros Hen. induction 1 as [|p ps Hp _ IH]; intros k; cbn [checkAndEmitPhotons_loop].
  - cbn [fst snd]. rewrite kineticSum_nil, photonSum_nil. split; ring.
  - unfold checkAndEmitPhotons_body.
    destruct (emissionCall M config u p k)
      as [[[[[speed avx] avy] avz]|] k1] eqn:Hcall.
    + pose proof (managePhotonEmission_energy u p k Hcall)
        as [Hph' [Hph [Hke Hphoton]]].
      destruct (emissionCall_fresh M config u p k Hcall) as [He _].
      destruct (managePhotonEmission config u p speed avx avy avz lit_0_9)
        as [p' photon].
      destruct (IH k1) as [IH1 IH2].
      destruct (checkAndEmitPhotons_loop M config u ps k1)
        as [[rest' nps] k2].
      cbn [fst snd] in *.
      rewrite !kineticSum_cons, !photonSum_cons, Hph, Hph', IH2.
      destruct photon as [ph|]; [| congruence].
      destruct Hphoton as [Hphp Hen'].
      rewrite photonSum_cons, Hphp, Hke, Hen'. split; [| ring].
      rewrite <- IH1. unfold Energy.kineticEnergy, lit_0_5, activeVz.
      cbn [add sub mul div neg Math_sqrt ofZ R_JsNumber].
      rewrite (Hp He). field.
    + destruct (IH k1) as [IH1 IH2].
      destruct (checkAndEmitPhotons_loop M config u ps k1)
        as [[rest' nps] k2].
      cbn [fst snd] in *.
      rewrite !kineticSum_cons, !photonSum_cons, IH2, <- IH1.
      split; ring.
Qed.

Lemma carried_samePlace {T : Type} {N : JsNumber T} (u : Universe T)
    (p q : Particle T) :
  carried u p q -> samePlace p q.
Proof. unfold carried, samePlace. tauto. Qed.

(** X17. Emission conserves energy.  With emission enabled and every electron
    of mass [electronMass], the emission sweep leaves the sum of
    [calculateTotalKineticEnergy] and [calculateTotalPhotonEnergy]
    unchanged in exact arithmetic: what the electrons lose is what the new
    photons carry.  The electrostatic energy does not change either, so
    neither does the [total] of [calculateTotalEnergy]. *)
Theorem checkAndEmitPhotons_conserves_energy (u : Universe R) (k : nat) :
  enabled config = true ->
  Forall (fun p => isElectron p = true -> mass p = electronMass u)
    (particles u) ->
  let u' := fst (checkAndEmitPhotons M config u k) in
  Energy.calculateTotalKineticEnergy u' + Energy.calculateTotalPhotonEnergy u'
  = Energy.calculateTotalKineticEnergy u + Energy.calculateTotalPhotonEnergy u
  /\ Energy.calculateTotalElectrostaticEnergy u'
     = Energy.calculateTotalElectrostaticEnergy u
  /\ Energy.total (Energy.calculateTotalEnergy u')
     = Energy.total (Energy.calculateTotalEnergy u).
Proof.
  intros Hen Hmass u'.
  pose proof (checkAndEmitPhotons_settings M config u k) as Hs.
  fold u' in Hs.
  assert (Hparts :
            exists ps' nps,
              particles u' = ps' ++ nps
              /\ kineticSum u ps' + photonSum u nps = kineticSum u (particles u)
              /\ photonSum u ps' = photonSum u (particles u)
              /\ Forall2 (carried u) (particles u) ps'
              /\ Forall (fun p => isPhoton p = true) nps).
  { unfold u', checkAndEmitPhotons.
    pose proof (@checkAndEmitPhotons_loop_energy u (particles u) Hen Hmass k)
      as [E1 E2].
    pose proof (checkAndEmitPhotons_loop_carried M config u (particles u) k)
      as [Hc Hph].
    destruct (checkAndEmitPhotons_loop M config u (particles u) k)
      as [[ps' nps] k'].
    cbn [fst snd particles set_particles] in *.
    exists ps', nps. repeat split; try assumption.
    eapply Forall_impl; [| exact Hph]. cbv beta. tauto. }
  destruct Hparts as [ps' [nps [Hp [E1 [E2 [Hc Hph]]]]]].
  assert (Hsum : Energy.calculateTotalKineticEnergy u'
                 + Energy.calculateTotalPhotonEnergy u'
                 = Energy.calculateTotalKineticEnergy u
                   + Energy.calculateTotalPhotonEnergy u).
  { rewrite (kineticSum_settings Hs), (photonSum_settings Hs), Hp.
    rewrite (kineticSum_settings (sameSettings_refl u)),
            (photonSum_settings (sameSettings_refl u)).
    rewrite kineticSum_app, photonSum_app, (kineticSum_photons u Hph).
    lra. }
  assert (Hpot : Energy.calculateTotalElectrostaticEnergy u'
                 = Energy.calculateTotalElectrostaticEnergy u).
  { apply calculateTotalElectrostaticEnergy_matter; [exact Hs |].
    rewrite Hp, filter_app, (filter_photons_nil Hph), app_nil_r.
    apply Forall2_filter.
    - intros a b [Hab _]. unfold isNonPhoton. now rewrite Hab.
    - eapply Forall2_weaken; [| exact Hc].
      intros a b Hab. exact (carried_samePlace Hab). }
  split; [exact Hsum |]. split; [exact Hpot |].
  unfold Energy.calculateTotalEnergy. cbn [Energy.total].
  cbn [add R_JsNumber]. rewrite Hsum, Hpot. reflexivity.
Qed.

End EmissionEnergy.

Section AbsorptionEnergy.

Variable M : JsMath R.
Variable u : Universe R.

Local Open Scope R_scope.

Lemma Rltb_true (a b : R) : a < b -> Rltb a b = true.
Proof. intros H. unfold Rltb. now destruct (Rlt_dec a b). Qed.

Lemma Rltb_false (a b : R) : b <= a -> Rltb a b = false.
Proof. intros H. unfold Rltb. destruct (Rlt_dec a b); [lra | reflexivity]. Qed.


(** The energy transfer of one absorption: the electron's kinetic energy
    grows by the photon's energy. *)
Lemma absorbPhoton_energy (photon electron : Particle R) (k : nat) :
  trigonometric M ->
  0 < mass electron -> (mode3D u = false -> vz electron = 0) ->
  0 <= energy photon ->
  Energy.kineticEnergy u (fst (absorbPhoton M u photon electron k))
  = Energy.kineticEnergy u electron + energy photon.
Proof.
  intros [Htrig Hpi2] Hm Hvz HE.
  set (s := vx electron * vx electron + vy electron * vy electron
            + vz electron * vz electron).
  assert (Hs : 0 <= s) by (unfold s; nra).
  set (c := R_sqrt.sqrt s).
  assert (Hc : c * c = s) by (apply sqrt_sqrt; exact Hs).
  assert (Hc0 : 0 <= c) by apply sqrt_pos.
  set (newKE := 5 / 10 * mass electron * c * c + energy photon).
  assert (HnewKE : 0 <= newKE).
  { unfold newKE. rewrite Rmult_assoc, Hc. nra. }
  set (n := R_sqrt.sqrt (2 * newKE / mass electron)).
  assert (Hn : n * n = 2 * newKE / mass electron).
  { apply sqrt_sqrt. apply Rmult_le_pos; [lra |].
    apply Rlt_le, Rinv_0_lt_compat, Hm. }
  assert (Hgoal : 5 / 10 * mass electron * (n * n) = newKE).
  { rewrite Hn. field. lra. }
  assert (Hactive :
            vx electron * vx electron + vy electron * vy electron
            + (if mode3D u then vz electron else 0)
              * (if mode3D u then vz electron else 0) = s).
  { unfold s. destruct (mode3D u); [reflexivity |].
    rewrite (Hvz eq_refl). ring. }
  assert (Hold : Energy.kineticEnergy u electron
                 = 5 / 10 * mass electron * s).
  { unfold Energy.kineticEnergy, lit_0_5.
    cbn [add sub mul div neg Math_sqrt ofZ R_JsNumber].
    now rewrite Hactive. }
  rewrite Hold.
  replace (5 / 10 * mass electron * s + energy photon) with newKE
    by (unfold newKE; rewrite <- Hc; ring).
  rewrite <- Hgoal.
  unfold absorbPhoton, Energy.kineticEnergy, lit_0_5.
  cbn [add sub mul div neg Math_sqrt ltb ofZ R_JsNumber].
  fold s c newKE n.
  destruct (Rlt_dec 0 c) as [Hpos | Hzero].
  - rewrite (Rltb_true Hpos).
    assert (Hratio : forall a b, a * (n / c) * (b * (n / c))
                                 = a * b * (n * n) / s).
    { intros a b. rewrite <- Hc. field. lra. }
    assert (Hspos : 0 < s)
      by (rewrite <- Hc; apply Rmult_lt_0_compat; exact Hpos).
    destruct (mode3D u) eqn:E3;
      cbn [fst mass vx vy vz set_vx set_vy set_vz];
      rewrite ?Hratio.
    + replace (vx electron * vx electron * (n * n) / s
               + vy electron * vy electron * (n * n) / s
               + vz electron * vz electron * (n * n) / s)
        with ((vx electron * vx electron + vy electron * vy electron
               + vz electron * vz electron) * (n * n) / s)
        by (field; lra).
      fold s. replace (s * (n * n) / s) with (n * n) by (field; lra).
      reflexivity.
    + replace (vx electron * vx electron * (n * n) / s
               + vy electron * vy electron * (n * n) / s + 0 * 0)
        with ((vx electron * vx electron + vy electron * vy electron
               + 0 * 0) * (n * n) / s)
        by (field; lra).
      rewrite Hactive.
      replace (s * (n * n) / s) with (n * n) by (field; lra).
      reflexivity.
  - rewrite Rltb_false by lra.
    destruct (mode3D u) eqn:E3;
      cbn [fst mass vx vy vz set_vx set_vy set_vz].
    + set (theta := Math_random M k * 2 * Math_PI M).
      set (phi := Math_acos M (2 * Math_random M (S k) - 1)).
      pose proof (Htrig theta) as Ht. pose proof (Htrig phi) as Hp.
      f_equal.
      replace (n * Math_sin M phi * Math_cos M theta
               * (n * Math_sin M phi * Math_cos M theta)
               + n * Math_sin M phi * Math_sin M theta
                 * (n * Math_sin M phi * Math_sin M theta)
               + n * Math_cos M phi * (n * Math_cos M phi))
        with (n * n
              * (Math_sin M phi * Math_sin M phi
                 * (Math_sin M theta * Math_sin M theta
                    + Math_cos M theta * Math_cos M theta)
                 + Math_cos M phi * Math_cos M phi)) by ring.
      rewrite Ht, Rmult_1_r, Hp. ring.
    + set (theta := Math_random M k * 2 * Math_PI M).
      pose proof (Htrig theta) as Ht.
      rewrite Hpi2. f_equal.
      replace (n * 1 * Math_cos M theta * (n * 1 * Math_cos M theta)
               + n * 1 * Math_sin M theta * (n * 1 * Math_sin M theta)
               + 0 * 0)
        with (n * n
              * (Math_sin M theta * Math_sin M theta
                 + Math_cos M theta * Math_cos M theta)) by ring.
      rewrite Ht. ring.
Qed.

End AbsorptionEnergy.

Section IndexSums.

Local Open Scope R_scope.

Variable A : Type.

Lemma sumOf_app (B : Type) (f : B -> R) (l1 l2 : list B) :
  sumOf f (l1 ++ l2) = sumOf f l1 + sumOf f l2.
Proof.
  induction l1 as [|a l1 IH]; simpl; [ring |]. rewrite IH. ring.
Qed.

Lemma sumOf_filter_ext_in (B : Type) (g g' : B -> R) (Q Q' : B -> bool)
    (l : list B) :
  (forall i, In i l -> g i = g' i /\ Q i = Q' i) ->
  sumOf g (filter Q l) = sumOf g' (filter Q' l).
Proof.
  induction l as [|i l IH]; intros H; [reflexivity |].
  cbn [filter]. destruct (H i) as [Hg HQ]; [now left |].
  rewrite <- HQ.
  assert (IH' : sumOf g (filter Q l) = sumOf g' (filter Q' l)).
  { apply IH. intros j Hj. apply H. now right. }
  destruct (Q i); [| exact IH'].
  cbn [sumOf fold_right]. fold (sumOf g (filter Q l)).
  fold (sumOf g' (filter Q' l)). now rewrite Hg, IH'.
Qed.

(** Summing over the indices of [l] whose element satisfies [P] sums over
    the elements that satisfy it. *)
Lemma sumOf_indices (f : A -> R) (P : A -> bool) (l : list A) :
  sumOf (fun i => match nth_error l i with Some a => f a | None => 0 end)
    (filter (fun i => match nth_error l i with
                      | Some a => P a
                      | None => false
                      end)
       (seq 0 (length l)))
  = sumOf f (filter P l).
Proof.
  induction l as [|b l IH] using rev_ind; [reflexivity |].
  rewrite length_app, Nat.add_comm. cbn [length Nat.add].
  rewrite seq_S, !filter_app, !sumOf_app. cbn [Nat.add filter].
  rewrite nth_error_app2, Nat.sub_diag by lia. cbn [nth_error].
  f_equal.
  - rewrite <- IH. apply sumOf_filter_ext_in.
    intros i Hi. apply in_seq in Hi.
    rewrite nth_error_app1 by lia. auto.
  - destruct (P b); cbn [sumOf fold_right].
    + rewrite nth_error_app2, Nat.sub_diag by lia. reflexivity.
    + reflexivity.
Qed.

End IndexSums.

Section AbsorptionBalance.

Variable M : JsMath R.
Variable u : Universe R.

Local Open Scope R_scope.

Lemma wellFormed_moved (p q : Particle R) :
  moved u p q -> wellFormed u p -> wellFormed u q.
Proof.
  intros [Hb [_ Hvz]] [He Hph]. unfold wellFormed.
  rewrite (isElectron_sameBody Hb), (sameBody_isPhoton Hb).
  unfold sameBody in Hb.
  assert (Hm : mass q = mass p) by (rewrite Hb; reflexivity).
  assert (Hen : energy q = energy p) by (rewrite Hb; reflexivity).
  rewrite Hm, Hen. split; [| exact Hph].
  intros H. destruct (He H) as [H1 H2]. split; [exact H1 |].
  intros H2D. rewrite (Hvz H2D). auto.
Qed.

Lemma Forall_wellFormed_moved (ps qs : list (Particle R)) :
  Forall2 (moved u) ps qs -> Forall (wellFormed u) ps ->
  Forall (wellFormed u) qs.
Proof.
  induction 1 as [|p q ps qs Hpq _ IH]; intros H; inversion H; subst;
    constructor.
  - eapply wellFormed_moved; eassumption.
  - now apply IH.
Qed.

(** The inner loop, when it absorbs: the kinetic energy of the particles
    grows by the photon's energy. *)
Lemma absorbScan_energy (photon : Particle R) (ps : list (Particle R))
    (k : nat) :
  trigonometric M -> 0 <= energy photon -> Forall (wellFormed u) ps ->
  forall ps' k',
    absorbScan M u photon ps k = Some (ps', k') ->
    kineticSum u ps' = kineticSum u ps + energy photon.
Proof.
  intros Htrig HE. induction 1 as [|p ps Hp _ IH]; intros ps' k' H;
    cbn [absorbScan] in H; [discriminate |].
  destruct ((charge p >=? ofZ 0)%js || isPhoton p) eqn:Hskip.
  - destruct (absorbScan M u photon ps k) as [[rest' k0]|]; [| discriminate].
    injection H as <- <-. rewrite !kineticSum_cons, (IH rest' k0 eq_refl).
    ring.
  - destruct ((photonElectronDistance u photon p
               <? photonAbsorptionDistance u)%js
              && (age photon >=? photonMinAgeForAbsorption u)%js).
    + pose proof (@absorbPhoton_energy M u photon p k Htrig) as Hen.
      pose proof (absorbPhoton_sameBody M u photon p k) as Hb.
      destruct (absorbPhoton M u photon p k) as [e' k0].
      injection H as <- <-. cbn [fst] in *.
      assert (He : isElectron p = true)
        by (unfold isElectron; now rewrite Hskip).
      destruct Hp as [Hp _]. destruct (Hp He) as [Hm Hvz].
      rewrite !kineticSum_cons, (sameBody_isPhoton Hb),
        (isElectron_not_photon p He), (Hen Hm Hvz HE).
      ring.
    + destruct (absorbScan M u photon ps k) as [[rest' k0]|];
        [| discriminate].
      injection H as <- <-. rewrite !kineticSum_cons, (IH rest' k0 eq_refl).
      ring.
Qed.

(** The outer loop: the kinetic energy grows by the energies of the
    photons it schedules for removal. *)
Lemma collisionLoop_energy (ps0 : list (Particle R)) (idxs : list nat) :
  trigonometric M -> Forall (wellFormed u) ps0 ->
  forall ps rm k,
    Forall2 (moved u) ps0 ps ->
    kineticSum u (fst (fst (collisionLoop M u idxs ps rm k)))
    = kineticSum u ps
      + sumOf (energyAt ps0) (filter (absorbedAt u ps0) idxs).
Proof.
  intros Htrig Hwf.
  induction idxs as [|i idxs IH]; intros ps rm k Hm; cbn [collisionLoop].
  - cbn [fst filter sumOf fold_right]. ring.
  - pose proof (Forall2_nth_error_r i Hm) as Hnth.
    cbn [filter]. unfold absorbedAt at 1.
    destruct (nth_error ps i) as [photon|].
    + destruct Hnth as [p0 [Hp0 Hmv]]. rewrite Hp0.
      rewrite <- (absorbed_moved ps0 Hmv).
      unfold absorbed at 1.
      destruct (isPhoton photon) eqn:Hph; cbn [negb andb].
      * rewrite <- (existsb_collides_moved photon Hm).
        assert (Heq : photon = p0).
        { destruct Hmv as [Hb [Hsame _]]. apply Hsame.
          now rewrite <- (sameBody_isPhoton Hb). }
        destruct (absorbScan M u photon ps k) as [[ps1 k1]|] eqn:Hscan.
        -- assert (He : existsb (collides u photon) ps = true).
           { destruct (existsb (collides u photon) ps) eqn:E; [reflexivity |].
             apply (absorbScan_None M u photon ps k) in E. congruence. }
           rewrite He. cbn [sumOf fold_right].
           fold (sumOf (energyAt ps0) (filter (absorbedAt u ps0) idxs)).
           rewrite IH.
           ++ assert (Hwf0 : wellFormed u p0).
              { rewrite Forall_forall in Hwf. apply Hwf.
                eapply nth_error_In; eassumption. }
              rewrite (@absorbScan_energy photon ps k Htrig) with
                (ps' := ps1) (k' := k1).
              ** replace (energyAt ps0 i) with (energy photon)
                   by (unfold energyAt; now rewrite Hp0, Heq).
                 ring.
              ** rewrite Heq. destruct Hwf0 as [_ Hw]. apply Hw.
                 now rewrite <- Heq.
              ** eapply Forall_wellFormed_moved; eassumption.
              ** exact Hscan.
           ++ eapply Forall2_moved_trans; [exact Hm |].
              eapply absorbScan_moved; eassumption.
        -- apply (absorbScan_None M u photon ps k) in Hscan.
           rewrite Hscan. now apply IH.
      * now apply IH.
    + rewrite Hnth. now apply IH.
Qed.

Lemma kineticSum_filter (f : Particle R -> bool) (l : list (Particle R)) :
  (forall p, f p = false -> isPhoton p = true) ->
  kineticSum u (filter f l) = kineticSum u l.
Proof.
  intros H. induction l as [|p l IH]; [reflexivity |].
  cbn [filter]. destruct (f p) eqn:E.
  - now rewrite !kineticSum_cons, IH.
  - rewrite kineticSum_cons, (H p E), IH. ring.
Qed.

Lemma photonSum_filter (f : Particle R -> bool) (l : list (Particle R)) :
  (forall p, f p = true -> isPhoton p = true) ->
  photonSum u l
  = photonSum u (filter (fun p => negb (f p)) l) + sumOf (@energy R) (filter f l).
Proof.
  intros H. induction l as [|p l IH].
  { cbn [filter sumOf fold_right]. rewrite photonSum_nil. ring. }
  cbn [filter]. destruct (f p) eqn:E; cbn [negb].
  - rewrite photonSum_cons, (H p E), IH. cbn [sumOf fold_right].
    fold (sumOf (@energy R) (filter f l)). ring.
  - rewrite !photonSum_cons, IH. ring.
Qed.

Lemma photonSum_moved (l l' : list (Particle R)) :
  Forall2 (moved u) l l' -> photonSum u l' = photonSum u l.
Proof.
  induction 1 as [|p q l l' [Hb _] _ IH]; [reflexivity |].
  rewrite !photonSum_cons, IH, (sameBody_isPhoton Hb).
  unfold sameBody in Hb. rewrite Hb. reflexivity.
Qed.

Lemma moved_samePlace (p q : Particle R) : moved u p q -> samePlace p q.
Proof.
  intros [Hb _]. unfold samePlace.
  rewrite (sameBody_isPhoton Hb). unfold sameBody in Hb.
  rewrite Hb. cbn. tauto.
Qed.

(** X18. Absorption conserves energy.  In exact arithmetic, with sine and
    cosine on the unit circle, every electron of positive mass and (in 2D
    mode) without velocity along [z], and every photon of non-negative
    energy: [handlePhotonElectronCollisions] leaves the sum of
    [calculateTotalKineticEnergy] and [calculateTotalPhotonEnergy]
    unchanged.  What the removed photons carried is what the electrons
    gained.  The electrostatic energy does not change either, so neither
    does the [total] of [calculateTotalEnergy]. *)
Theorem handlePhotonElectronCollisions_conserves_energy (k : nat) :
  trigonometric M ->
  Forall (wellFormed u) (particles u) ->
  let u' := fst (fst (handlePhotonElectronCollisions M u k)) in
  Energy.calculateTotalKineticEnergy u' + Energy.calculateTotalPhotonEnergy u'
  = Energy.calculateTotalKineticEnergy u + Energy.calculateTotalPhotonEnergy u
  /\ Energy.calculateTotalElectrostaticEnergy u'
     = Energy.calculateTotalElectrostaticEnergy u
  /\ Energy.total (Energy.calculateTotalEnergy u')
     = Energy.total (Energy.calculateTotalEnergy u).
Proof.
  intros Htrig Hwf u'.
  pose proof (handlePhotonElectronCollisions_settings M u k) as Hs.
  fold u' in Hs.
  assert (Hparts :
            exists ps1,
              particles u'
              = filter (fun p => negb (absorbed u (particles u) p)) ps1
              /\ Forall2 (moved u) (particles u) ps1
              /\ kineticSum u ps1
                 = kineticSum u (particles u)
                   + sumOf (energyAt (particles u))
                       (filter (absorbedAt u (particles u))
                          (seq 0 (length (particles u))))).
  { unfold u', handlePhotonElectronCollisions.
    pose proof (@collisionLoop_energy (particles u)
                  (seq 0 (length (particles u))) Htrig Hwf
                  (particles u) [] k (Forall2_moved_refl u (particles u)))
      as Hen.
    destruct (@collisionLoop_spec _ _ M u (particles u)
                (seq 0 (length (particles u))) (particles u) [] k)
      as [ps1 [k' [Hloop Hm]]].
    - apply Forall2_moved_refl.
    - apply seq_NoDup.
    - intros i _ [].
    - rewrite Hloop in *. cbn [fst snd particles set_particles app] in *.
      exists ps1. split; [| split; assumption].
      assert (Hlen : length (particles u) = length ps1)
        by (eapply Forall2_length; eassumption).
      rewrite Hlen, fold_splice1_filter.
      apply keepAt_as_filter. intros j q Hj. simpl.
      pose proof (Forall2_nth_error_r j Hm) as Hnth. rewrite Hj in Hnth.
      destruct Hnth as [p [Hp Hmv]].
      unfold absorbedAt. rewrite Hp.
      now rewrite (absorbed_moved (particles u) Hmv). }
  destruct Hparts as [ps1 [Hp [Hm Hk]]].
  assert (Habs : forall p, absorbed u (particles u) p = true ->
                           isPhoton p = true).
  { intros p H. unfold absorbed in H. now apply andb_true_iff in H. }
  assert (Hsum : Energy.calculateTotalKineticEnergy u'
                 + Energy.calculateTotalPhotonEnergy u'
                 = Energy.calculateTotalKineticEnergy u
                   + Energy.calculateTotalPhotonEnergy u).
  { rewrite (kineticSum_settings Hs), (photonSum_settings Hs), Hp.
    rewrite (kineticSum_settings (sameSettings_refl u)),
            (photonSum_settings (sameSettings_refl u)).
    rewrite kineticSum_filter, Hk.
    - rewrite (photonSum_filter (absorbed u (particles u)) (particles u) Habs).
      assert (Hph : photonSum u
                      (filter (fun p => negb (absorbed u (particles u) p)) ps1)
                    = photonSum u
                        (filter (fun p => negb (absorbed u (particles u) p))
                           (particles u))).
      { apply photonSum_moved. apply Forall2_filter; [| exact Hm].
        intros a b Hab. now rewrite (absorbed_moved (particles u) Hab). }
      rewrite Hph.
      rewrite <- (sumOf_indices (@energy R) (absorbed u (particles u))
                    (particles u)).
      unfold energyAt, absorbedAt. ring.
    - intros p H. apply Habs. now destruct (absorbed u (particles u) p). }
  assert (Hpot : Energy.calculateTotalElectrostaticEnergy u'
                 = Energy.calculateTotalElectrostaticEnergy u).
  { apply calculateTotalElectrostaticEnergy_matter; [exact Hs |].
    rewrite Hp, filter_nonPhoton_survivors.
    apply Forall2_filter.
    - intros a b [Hab _]. unfold isNonPhoton. now rewrite Hab.
    - eapply Forall2_weaken; [| exact Hm].
      intros a b. apply moved_samePlace. }
  split; [exact Hsum |]. split; [exact Hpot |].
  unfold Energy.calculateTotalEnergy. cbn [Energy.total].
  cbn [add R_JsNumber]. rewrite Hsum, Hpot. reflexivity.
Qed.

End AbsorptionBalance.

Section EmissionLoss.

Variable M : JsMath R.
Variable config : PhotonEmissionConfig.

Local Open Scope R_scope.

(** X19. What a call costs the electron, whatever the configuration and
    whatever its mass: in exact arithmetic the sweep lowers the kinetic
    energy by nine tenths of the kinetic energy of every electron it calls
    [managePhotonEmission] on.  With emission disabled nothing takes this
    energy up: no photon is created and the photon energy stays as it
    was. *)
Theorem checkAndEmitPhotons_kinetic_loss (u : Universe R) (k : nat) :
  let u' := fst (checkAndEmitPhotons M config u k) in
  Energy.calculateTotalKineticEnergy u'
  = Energy.calculateTotalKineticEnergy u
    - 9 / 10
      * sumOf (fun call => Energy.kineticEnergy u (fst call))
          (emissionCalls M config u (particles u) k)
  /\ (enabled config = false ->
      Energy.calculateTotalPhotonEnergy u'
      = Energy.calculateTotalPhotonEnergy u).
Proof.
  intros u'.
  pose proof (checkAndEmitPhotons_settings M config u k) as Hs.
  fold u' in Hs.
  rewrite (kineticSum_settings Hs), (photonSum_settings Hs).
  rewrite (kineticSum_settings (sameSettings_refl u)),
          (photonSum_settings (sameSettings_refl u)).
  assert (Hloop :
            forall ps k0,
              kineticSum u (fst (fst (checkAndEmitPhotons_loop M config u ps k0)))
              = kineticSum u ps
                - 9 / 10
                  * sumOf (fun call => Energy.kineticEnergy u (fst call))
                      (emissionCalls M config u ps k0)
              /\ photonSum u
                   (fst (fst (checkAndEmitPhotons_loop M config u ps k0)))
                 = photonSum u ps
              /\ Forall (fun p => isPhoton p = true)
                   (snd (fst (checkAndEmitPhotons_loop M config u ps k0)))).
  { induction ps as [|p ps IH]; intros k0;
      cbn [checkAndEmitPhotons_loop emissionCalls].
    - cbn [fst snd sumOf fold_right]. repeat split; [ring | constructor].
    - unfold checkAndEmitPhotons_body.
      destruct (emissionCall M config u p k0)
        as [[[[[speed avx] avy] avz]|] k1] eqn:Hcall.
      + pose proof (@managePhotonEmission_energy M config u p k0 k1 speed avx avy
                      avz Hcall)
          as [Hph' [Hph [Hke Hphoton]]].
        destruct (managePhotonEmission config u p speed avx avy avz lit_0_9)
          as [p' photon].
        destruct (IH k1) as [IH1 [IH2 IH3]].
        destruct (checkAndEmitPhotons_loop M config u ps k1)
          as [[rest' nps] k2].
        cbn [fst snd sumOf fold_right] in *.
        fold (sumOf (fun call : Particle R * (R * R * R * R) =>
                       Energy.kineticEnergy u (fst call))
                (emissionCalls M config u ps k1)).
        rewrite !kineticSum_cons, !photonSum_cons, Hph, Hph', IH1, IH2, Hke.
        repeat split; [cbn [fst]; field |].
        destruct photon as [ph|]; [| exact IH3].
        constructor; [apply Hphoton | exact IH3].
      + destruct (IH k1) as [IH1 [IH2 IH3]].
        destruct (checkAndEmitPhotons_loop M config u ps k1)
          as [[rest' nps] k2].
        cbn [fst snd] in *.
        rewrite !kineticSum_cons, !photonSum_cons, IH1, IH2.
        repeat split; [ring | exact IH3]. }
  unfold u', checkAndEmitPhotons.
  destruct (Hloop (particles u) k) as [H1 [H2 H3]].
  pose proof (fun Hoff =>
                @checkAndEmitPhotons_loop_disabled _ _ M config u
                  (particles u) Hoff k) as Hoff.
  destruct (checkAndEmitPhotons_loop M config u (particles u) k)
    as [[ps' nps] k'].
  cbn [fst snd particles set_particles] in *.
  rewrite kineticSum_app, (kineticSum_photons u H3), H1. split; [ring |].
  intros Hdis. rewrite (Hoff Hdis), app_nil_r. exact H2.
Qed.

End EmissionLoss.

(** * Housekeeping on binary64 numbers *)

Module Binary64Order.

Lemma ltb_leb (a b : float) :
  PrimFloat.ltb a b = true -> PrimFloat.leb a b = true.
Proof.
  rewrite ltb_spec, leb_spec. unfold SFltb, SFleb.
  destruct (SFcompare (Prim2SF a) (Prim2SF b)) as [[]|]; congruence.
Qed.

Lemma ltb_irrefl (a : float) : PrimFloat.ltb a a = false.
Proof.
  destruct (PrimFloat.ltb a a) eqn:E; [| reflexivity].
  pose proof (Binary64.ltb_excludes_geb E) as H1.
  pose proof (ltb_leb E) as H2. congruence.
Qed.

Lemma leb_not_gtb (a b : float) :
  PrimFloat.leb a b = true -> PrimFloat.ltb b a = false.
Proof.
  intros H. destruct (PrimFloat.ltb b a) eqn:E; [| reflexivity].
  pose proof (Binary64.ltb_excludes_geb E). congruence.
Qed.

End Binary64Order.

Section HousekeepingBinary64.

Variable config : PhotonEmissionConfig.

Local Open Scope js_scope.

Lemma filter_idempotent (A : Type) (f : A -> bool) (l : list A) :
  filter f (filter f l) = filter f l.
Proof.
  induction l as [|a l IH]; simpl; [reflexivity |].
  destruct (f a) eqn:E; simpl; rewrite ?E, IH; reflexivity.
Qed.

(** X20. [removeAllElectrons] keeps exactly the particles whose charge compares
    greater than zero.  So no electron is left; but no photon either: the
    photons made by [managePhotonEmission] have charge [0] and all go, and
    so does every particle whose charge is [0] or NaN.  The settings are
    kept, a second call changes nothing, and removing after [addParticle]
    is adding after removing when the particle's charge is [> 0], and
    removing alone otherwise. *)
Theorem removeAllElectrons_keeps_positive_charges (u : Universe float) :
  let u' := removeAllElectrons u in
  sameSettings u u'
  /\ (forall q, In q (particles u') <->
                In q (particles u) /\ (charge q >? ofZ 0) = true)
  /\ (forall q, In q (particles u') ->
                isElectron q = false /\ Number.isNaN (charge q) = false)
  /\ (forall u0 e speed avx avy avz r photon,
        snd (managePhotonEmission config u0 e speed avx avy avz r)
        = Some photon ->
        ~ In photon (particles u'))
  /\ removeAllElectrons u' = u'
  /\ (forall p,
        removeAllElectrons (addParticle u p)
        = if charge p >? ofZ 0 then addParticle u' p else u').
Proof.
  cbv zeta. unfold removeAllElectrons, addParticle.
  cbn [particles set_particles].
  split; [apply sameSettings_set |]. split; [| split; [| split; [| split]]].
  - intros q. apply filter_In.
  - intros q Hq. apply filter_In in Hq. destruct Hq as [_ Hq].
    cbn [ltb float_JsNumber ofZ float_ofZ] in Hq. split.
    + unfold isElectron. cbn [leb float_JsNumber ofZ float_ofZ].
      now rewrite (Binary64Order.ltb_leb Hq).
    + now destruct (Binary64.ltb_true_numbers Hq).
  - intros u0 e speed avx avy avz r photon Hph Hin.
    apply filter_In in Hin. destruct Hin as [_ Hc].
    unfold managePhotonEmission in Hph.
    destruct (enabled config); [| discriminate].
    injection Hph as <-. cbn in Hc. discriminate.
  - unfold set_particles at 1. cbn [size electrostaticCoefficient electronMass
      photonEmissionSpeedThreshold photonAbsorptionDistance
      photonMinAgeForAbsorption staticProtons strongForceEnabled
      strongForceCoefficient gravityEnabled gravityCoefficient
      groundGravityEnabled groundGravityCoefficient mode3D particles dt
      set_particles].
    now rewrite filter_idempotent.
  - intros p. unfold set_particles. cbn [size electrostaticCoefficient
      electronMass photonEmissionSpeedThreshold photonAbsorptionDistance
      photonMinAgeForAbsorption staticProtons strongForceEnabled
      strongForceCoefficient gravityEnabled gravityCoefficient
      groundGravityEnabled groundGravityCoefficient mode3D particles dt].
    rewrite filter_app. cbn [filter].
    destruct (charge p >? ofZ 0); [reflexivity |].
    now rewrite app_nil_r.
Qed.

Lemma clampCoordinate_inside (u : Universe float) (c : float) :
  (ofZ 0 <=? size u) = true ->
  (clampCoordinate u c <? ofZ 0) = false
  /\ (clampCoordinate u c >? size u) = false.
Proof.
  intros Hsize. unfold clampCoordinate.
  cbn [ltb leb ofZ float_JsNumber float_ofZ] in *.
  pose proof (Binary64Order.leb_not_gtb Hsize) as Hs.
  destruct (PrimFloat.ltb c PrimFloat.zero) eqn:Hlo.
  - split; [reflexivity | exact Hs].
  - destruct (PrimFloat.ltb (size u) c) eqn:Hhi.
    + split; [exact Hs | apply Binary64Order.ltb_irrefl].
    + split; assumption.
Qed.

Lemma clampCoordinate_fixed (u : Universe float) (c : float) :
  (c <? ofZ 0) = false -> (c >? size u) = false -> clampCoordinate u c = c.
Proof. unfold clampCoordinate. now intros -> ->. Qed.

(** X21. The clamp-and-stop handler is idempotent.  For a universe with
    [0 <= size] and any non-photon, NaN coordinates included: what
    [applyBoundaryConditions] returns is within bounds on every active
    axis as far as the handler's own comparisons can tell, and a second
    application returns it unchanged. *)
Theorem applyBoundaryConditions_idempotent (u : Universe float)
    (p : Particle float) :
  (ofZ 0 <=? size u) = true -> isPhoton p = false ->
  let q := applyBoundaryConditions u p in
  outOfBounds u q = false /\ applyBoundaryConditions u q = q.
Proof.
  intros Hsize Hph q.
  destruct (applyBoundaryConditions_position u p Hph) as [Hx [Hy Hz]].
  fold q in Hx, Hy, Hz.
  assert (Hq : isPhoton q = false).
  { unfold q. rewrite (applyBoundaryConditions_nonPhoton u p Hph).
    unfold stopParticle.
    destruct (outOfBounds u p), (mode3D u); exact Hph. }
  destruct (clampCoordinate_inside u (x p) Hsize) as [X1 X2].
  destruct (clampCoordinate_inside u (y p) Hsize) as [Y1 Y2].
  destruct (clampCoordinate_inside u (z p) Hsize) as [Z1 Z2].
  assert (Hout : outOfBounds u q = false).
  { unfold outOfBounds. rewrite Hx, Hy, Hz, X1, X2, Y1, Y2.
    destruct (mode3D u); [now rewrite Z1, Z2 | reflexivity]. }
  split; [exact Hout |].
  rewrite (applyBoundaryConditions_nonPhoton u q Hq), Hout.
  assert (Ex : clampCoordinate u (x q) = x q)
    by (rewrite Hx; now apply clampCoordinate_fixed).
  assert (Ey : clampCoordinate u (y q) = y q)
    by (rewrite Hy; now apply clampCoordinate_fixed).
  assert (Ez : (if mode3D u then clampCoordinate u (z q) else z q) = z q).
  { destruct (mode3D u); [| reflexivity].
    rewrite Hz. now apply clampCoordinate_fixed. }
  rewrite Ex, Ey, Ez. now destruct q.
Qed.

End HousekeepingBinary64.

(** * The properties on concrete inputs *)

Lemma checkAndEmitPhotons_below_threshold_witness :
  checkAndEmitPhotons Sample.math Sample.emissionOn PopulationSample.resting 0
  = (PopulationSample.resting, 0).
Proof.
  apply checkAndEmitPhotons_below_threshold.
  repeat constructor.
Defined.

Lemma checkAndEmitPhotons_one_photon_per_electron_witness :
  length
    (filter fresh
       (fst (fst (checkAndEmitPhotons_loop Sample.math Sample.emissionOn
                    EmissionSample.fast [EmissionSample.fastElectron] 0))))
  + length (emissionCalls Sample.math Sample.emissionOn EmissionSample.fast
              [EmissionSample.fastElectron] 0)
  = length (filter fresh [EmissionSample.fastElectron])
  /\ length (emissionCalls Sample.math Sample.emissionOn EmissionSample.fast
               [EmissionSample.fastElectron] 0) = 1.
Proof.
  split; [| vm_compute; reflexivity].
  exact (proj1 (proj2 (@checkAndEmitPhotons_one_photon_per_electron _ _
                         Sample.math Sample.emissionOn EmissionSample.fast
                         [EmissionSample.fastElectron] 0 eq_refl))).
Defined.

Lemma accumulateForces_ignores_photons_witness :
  accumulateForces Sample.universe PopulationSample.withYoungPhoton
  = accumulateForces Sample.universe PopulationSample.withOldPhoton.
Proof.
  apply accumulateForces_ignores_photons.
  repeat constructor.
Defined.

Lemma accumulateForces_photon_zero_witness :
  nth_error (accumulateForces Sample.universe PopulationSample.withOldPhoton) 1
  = Some zeroForce.
Proof.
  apply (@accumulateForces_photon_zero _ _ Sample.universe
           PopulationSample.withOldPhoton 1 AbsorptionSample.oldPhoton);
    reflexivity.
Defined.

Lemma checkAndEmitPhotons_conserves_energy_witness :
  (Energy.total
     (Energy.calculateTotalEnergy
        (fst (checkAndEmitPhotons ReflectSample.mathR Sample.emissionOn
                EnergySample.emitter 0)))
   = Energy.total (Energy.calculateTotalEnergy EnergySample.emitter))%R.
Proof.
  apply (@checkAndEmitPhotons_conserves_energy ReflectSample.mathR
           Sample.emissionOn EnergySample.emitter 0).
  - reflexivity.
  - repeat constructor.
Defined.

Lemma trigonometric_mathR : trigonometric ReflectSample.mathR.
Proof.
  split.
  - intros a. simpl. pose proof (sin2_cos2 a) as H. unfold Rsqr in H.
    exact H.
  - simpl. apply sin_PI2.
Qed.

Lemma handlePhotonElectronCollisions_conserves_energy_witness :
  (Energy.total
     (Energy.calculateTotalEnergy
        (fst (fst (handlePhotonElectronCollisions ReflectSample.mathR
                     EnergySample.absorber 0))))
   = Energy.total (Energy.calculateTotalEnergy EnergySample.absorber))%R.
Proof.
  apply (@handlePhotonElectronCollisions_conserves_energy ReflectSample.mathR
           EnergySample.absorber 0).
  - exact trigonometric_mathR.
  - constructor; [| constructor; [| constructor]].
    + split.
      * unfold isElectron. simpl. rewrite orb_true_r. discriminate.
      * intros _. simpl. lra.
    + split.
      * intros _. simpl. split; [lra | reflexivity].
      * simpl. discriminate.
Defined.

Lemma applyBoundaryConditions_idempotent_witness :
  x (applyBoundaryConditions Sample.universe ClampSample.strayProton)
  = Sample.num 1
  /\ applyBoundaryConditions Sample.universe
       (applyBoundaryConditions Sample.universe ClampSample.strayProton)
     = applyBoundaryConditions Sample.universe ClampSample.strayProton.
Proof.
  split; [vm_compute; reflexivity |].
  apply (@applyBoundaryConditions_idempotent Sample.universe
           ClampSample.strayProton); reflexivity.
Defined.

Lemma updateParticleMotion_euler_witness :
  x (updateParticleMotion Sample.universe Sample.electron
       (Sample.num 1) (Sample.num 0) (Sample.num 0))
  = (lit_0_5 + (Sample.num 0 + Sample.num 1 / Sample.num 1 * lit_0_01)
               * lit_0_01)%js.
Proof.
  assert (Hph : isPhoton Sample.electron = false) by reflexivity.
  assert (Hskip : skipped Sample.universe Sample.electron = false)
    by (vm_compute; reflexivity).
  destruct (@updateParticleMotion_euler _ _ Sample.universe Sample.electron
              (Sample.num 1) (Sample.num 0) (Sample.num 0) Hph Hskip)
    as [_ [Hin [_ [[Hvx _] [[Hx _] _]]]]].
  rewrite Hin by (vm_compute; reflexivity).
  rewrite Hx, Hvx. reflexivity.
Defined.

Lemma separation_sample :
  separation ForceSample.universeR ForceSample.protonR ForceSample.electronR
  = 1%R.
Proof.
  unfold separation, offsetX, offsetY, offsetZ. simpl.
  replace ((1 - 0) * (1 - 0) + (0 - 0) * (0 - 0) + 0 * 0)%R with 1%R by ring.
  apply sqrt_1.
Qed.

Lemma accumulateForces_net_zero_witness :
  sumOf (@fx R)
    (accumulateForces ForceSample.universeR
       [ForceSample.protonR; ForceSample.electronR])
  = 0%R.
Proof.
  apply (@accumulateForces_net_zero ForceSample.universeR
           [ForceSample.protonR; ForceSample.electronR]);
    try reflexivity.
  intros i j pi pj Hin Hi Hj.
  destruct Hin as [E | []]. injection E as <- <-.
  injection Hi as <-. injection Hj as <-.
  rewrite separation_sample. lra.
Defined.

Lemma calculateForce_antisymmetric_witness :
  calculateForce ForceSample.universeR ForceSample.electronR
    ForceSample.protonR
  = negForce
      (calculateForce ForceSample.universeR ForceSample.protonR
         ForceSample.electronR).
Proof.
  apply calculateForce_antisymmetric.
  rewrite separation_sample. lra.
Defined.

Lemma calculateElectrostaticForce_coulomb_witness :
  (0 < norm (calculateElectrostaticForce ForceSample.universeR
               ForceSample.protonR ForceSample.electronR))%R.
Proof.
  pose proof separation_sample as Hsep.
  destruct (@calculateElectrostaticForce_coulomb ForceSample.universeR
              ForceSample.protonR ForceSample.electronR)
    as [_ [_ [_ [Hn _]]]].
  - rewrite Hsep. lra.
  - simpl. lra.
  - rewrite Hn, Hsep. simpl.
    replace (1 * -1)%R with (-1)%R by ring.
    rewrite (Rabs_left (-1)) by lra. lra.
Defined.

Lemma calculateStrongForce_repulsive_witness :
  (norm (calculateStrongForce ForceSample.universeR ForceSample.protonR
           ForceSample.electronR)
   = 10 * (1 / 10000000000))%R.
Proof.
  pose proof separation_sample as Hsep.
  destruct (@calculateStrongForce_repulsive ForceSample.universeR
              ForceSample.protonR ForceSample.electronR)
    as [_ [_ [Hn _]]].
  - rewrite Hsep. lra.
  - simpl. lra.
  - rewrite Hn, Hsep. simpl. field.
Defined.
